(** * go-quadtree: a shallow embedding of [quadtree.go]

    The development follows the Go source function by function.

    - Go's [int] is taken at 64 bits: a [Z] with the wrap-around of [+]
      written out ([GoInt.add]).
    - Go's [float64] is a type [C] with the operations the source uses on
      it ([+], [/ 2.0], [<], [<=]; [a > b] is [b < a], [a >= b] is [b <= a]),
      collected in the class [Coord].  The instance [float64] interprets
      them by Rocq's primitive binary64 floats, which compute as Go's
      [float64] does; the instance [exactQ] interprets them by the
      rationals, that is, by arithmetic that does not round.  What is
      proved for every [C] holds of the program; what needs [ExactLaws]
      holds of the rationals only, and the program's behaviour where
      rounding matters is evaluated on floats.
    - A [*node] is either [nilNode] (the nil pointer) or [mkNode] with the
      fields of the struct; [items] is [None] for a nil slice.  The tree
      has one owner per node, so in-place mutation is a functional update.
    - Dereferencing nil is [Panic]; [addInternal] is not structurally
      recursive, so it takes fuel, the depth of the call stack, and
      [OutOfFuel] stands for a recursion that is still running. *)

From Stdlib Require Import ZArith List Bool Lia String Permutation.
From Stdlib Require Import QArith Lqa.
From Stdlib Require Import Floats.
Import ListNotations.

Local Open Scope Z_scope.

(** ** Go's [int] *)

Module GoInt.

Definition min_int : Z := - 2 ^ 63.
Definition max_int : Z := 2 ^ 63 - 1.

Definition in_range (z : Z) : Prop := min_int <= z <= max_int.

Definition wrap (z : Z) : Z := (z + 2 ^ 63) mod 2 ^ 64 - 2 ^ 63.

Definition add (a b : Z) : Z := wrap (a + b).

Lemma wrap_in_range (z : Z) : in_range z -> wrap z = z.
Proof.
  unfold in_range, wrap, min_int, max_int. intros Hz.
  rewrite Z.mod_small; lia.
Qed.

Lemma add_no_overflow (a b : Z) : in_range (a + b) -> add a b = a + b.
Proof. apply wrap_in_range. Qed.

End GoInt.

(** ** Outcomes of a call *)

Inductive outcome (A : Type) : Type :=
| Ret (a : A)
| Panic
| OutOfFuel.

Arguments Ret {A} a.
Arguments Panic {A}.
Arguments OutOfFuel {A}.

Definition bind {A B : Type} (m : outcome A) (k : A -> outcome B) : outcome B :=
  match m with
  | Ret a => k a
  | Panic => Panic
  | OutOfFuel => OutOfFuel
  end.

Notation "x <- m ;; k" := (bind m (fun x => k))
  (at level 61, m at next level, right associativity).

(** ** The operations on [float64] that the source uses *)

Class Coord (C : Type) : Type := {
  cadd : C -> C -> C;
  chalf : C -> C;
  clt : C -> C -> bool;
  cle : C -> C -> bool;
  czero : C
}.

Definition cgt {C} `{Coord C} (a b : C) : bool := clt b a.
Definition cge {C} `{Coord C} (a b : C) : bool := cle b a.

(** IEEE-754 binary64, as Go's [float64]. *)
#[export] Instance float64 : Coord float := {
  cadd := PrimFloat.add;
  chalf := fun x => PrimFloat.div x 2%float;
  clt := PrimFloat.ltb;
  cle := PrimFloat.leb;
  czero := 0%float
}.

(** Exact rational arithmetic. *)
#[export] Instance exactQ : Coord Q := {
  cadd := Qplus;
  chalf := fun x => Qdiv x (2 # 1);
  clt := fun a b => negb (Qle_bool b a);
  cle := Qle_bool;
  czero := 0%Q
}.

(** ** Data model *)

Section Quadtree.

Context {C : Type} `{Coord C}.
(** The payload type, [interface{}] in the source. *)
Context {T : Type}.

Record Point : Type := mkPoint {
  Point_X : C;
  Point_Y : C
}.

Record Rect : Type := mkRect {
  Rect_X : C;
  Rect_Y : C;
  Width : C;
  Height : C
}.

Inductive quadrant : Type :=
| quadrantNone
| quadrantUpperLeft
| quadrantUpperRight
| quadrantLowerLeft
| quadrantLowerRight.

Record treeEntry : Type := mkEntry {
  position : Point;
  data : T
}.

Inductive node : Type :=
| nilNode
| mkNode (bounds : Rect) (depth : Z) (items : option (list treeEntry))
         (ul ur ll lr : node).

Record Quadtree : Type := mkQuadtree {
  maxDepth : Z;
  maxItemsPerNode : Z;
  root : node;
  size : Z;
  debugAssertions : bool
}.

(** ** Geometry *)

Definition Contains (r : Rect) (point : Point) : bool :=
  cge (Point_X point) (Rect_X r) &&
  cge (Point_Y point) (Rect_Y r) &&
  clt (Point_X point) (cadd (Rect_X r) (Width r)) &&
  clt (Point_Y point) (cadd (Rect_Y r) (Height r)).

Definition overlaps (r1 r2 : Rect) : bool :=
  clt (Rect_X r1) (cadd (Rect_X r2) (Width r2)) &&
  cgt (cadd (Rect_X r1) (Width r1)) (Rect_X r2) &&
  cgt (cadd (Rect_Y r1) (Height r1)) (Rect_Y r2) &&
  clt (Rect_Y r1) (cadd (Rect_Y r2) (Height r2)).

(** Returned in the order of the source's named results: ul, ur, ll, lr. *)
Definition quadrants (r : Rect) : Rect * Rect * Rect * Rect :=
  let w := chalf (Width r) in
  let h := chalf (Height r) in
  let qll := mkRect (Rect_X r) (Rect_Y r) w h in
  let qul := mkRect (Rect_X r) (cadd (Rect_Y r) h) w h in
  let qur := mkRect (cadd (Rect_X r) w) (cadd (Rect_Y r) h) w h in
  let qlr := mkRect (cadd (Rect_X r) w) (Rect_Y r) w h in
  (qul, qur, qll, qlr).

Definition whichQuadrant (r : Rect) (p : Point) : quadrant :=
  if negb (Contains r p) then quadrantNone
  else
    let midX := cadd (Rect_X r) (chalf (Width r)) in
    let midY := cadd (Rect_Y r) (chalf (Height r)) in
    if clt (Point_X p) midX then
      if clt (Point_Y p) midY then quadrantLowerLeft else quadrantUpperLeft
    else
      if clt (Point_Y p) midY then quadrantLowerRight else quadrantUpperRight.

(** ** Slices *)

Definition len {A : Type} (s : option (list A)) : Z :=
  match s with
  | None => 0
  | Some l => Z.of_nat (List.length l)
  end.

Definition append {A : Type} (s : option (list A)) (x : A) : option (list A) :=
  match s with
  | None => Some [x]
  | Some l => Some (l ++ [x])
  end.

Definition is_nil {A : Type} (s : option (list A)) : bool :=
  match s with
  | None => true
  | Some _ => false
  end.

Definition range {A : Type} (s : option (list A)) : list A :=
  match s with
  | None => []
  | Some l => l
  end.

(** ** Construction *)

Definition NewQuadtree (bounds : Rect) (maxDepth maxItemsPerNode : Z)
  : option Quadtree * option string :=
  if maxDepth <=? 0 then
    (None, Some "Creating tree failed: maxDepth must be larger than 1"%string)
  else if maxItemsPerNode <=? 0 then
    (None, Some "Creating tree failed: maxItemsPerNode must be larger than 0"%string)
  else
    (Some {| maxDepth := maxDepth;
             maxItemsPerNode := maxItemsPerNode;
             root := mkNode bounds 0 (Some []) nilNode nilNode nilNode nilNode;
             size := 0;
             debugAssertions := false |},
     None).

Definition Size (qt : Quadtree) : Z := size qt.

(** [parent] has been dereferenced by the caller, so it is not nil. *)
Definition newNode (parent : node) (bounds : Rect) : node :=
  match parent with
  | nilNode => nilNode
  | mkNode _ d _ _ _ _ _ =>
      mkNode bounds (GoInt.add d 1) (Some []) nilNode nilNode nilNode nilNode
  end.

(** ** Insertion *)

Fixpoint addInternal (fuel : nat) (qt : Quadtree) (n : node) (item : treeEntry)
  {struct fuel} : outcome node :=
  match fuel with
  | O => OutOfFuel
  | S fuel' =>
    match n with
    | nilNode => Panic
    | mkNode b d its cul cur cll clr =>
      match whichQuadrant b (position item) with
      | quadrantNone => Ret n
      | q =>
        if negb (is_nil its) && (d >=? maxDepth qt) then
          Ret (mkNode b d (append its item) cul cur cll clr)
        else if len its >=? maxItemsPerNode qt then
          let '(qul, qur, qll, qlr) := quadrants b in
          let split :=
            mkNode b d None (newNode n qul) (newNode n qur)
                   (newNode n qll) (newNode n qlr) in
          n' <- fold_left
                  (fun acc i => m <- acc ;; addInternal fuel' qt m i)
                  (range its) (Ret split) ;;
          addInternal fuel' qt n' item
        else if negb (is_nil its) then
          Ret (mkNode b d (append its item) cul cur cll clr)
        else
          match q with
          | quadrantUpperLeft =>
              c <- addInternal fuel' qt cul item ;;
              Ret (mkNode b d its c cur cll clr)
          | quadrantUpperRight =>
              c <- addInternal fuel' qt cur item ;;
              Ret (mkNode b d its cul c cll clr)
          | quadrantLowerLeft =>
              c <- addInternal fuel' qt cll item ;;
              Ret (mkNode b d its cul cur c clr)
          | quadrantLowerRight =>
              c <- addInternal fuel' qt clr item ;;
              Ret (mkNode b d its cul cur cll c)
          | quadrantNone => Ret n
          end
      end
    end
  end.

Definition Add (fuel : nat) (qt : Quadtree) (d : T) (pos : Point)
  : outcome (Quadtree * option string) :=
  match root qt with
  | nilNode => Panic
  | mkNode b _ _ _ _ _ _ =>
    if negb (Contains b pos) then
      Ret (qt, Some "Add failed: position outside bounds of tree."%string)
    else
      let item := mkEntry pos d in
      r <- addInternal fuel qt (root qt) item ;;
      Ret ({| maxDepth := maxDepth qt;
              maxItemsPerNode := maxItemsPerNode qt;
              root := r;
              size := GoInt.add (size qt) 1;
              debugAssertions := debugAssertions qt |},
           None)
  end.

(** ** Queries *)

(** A [consumer] is a Go closure: it may read and update the variables it
    captured, here the state [S]. *)
Definition consumer (S : Type) : Type := treeEntry -> S -> bool * S.

Fixpoint queryInternal {S : Type} (n : node) (bounds : Rect)
  (consume : consumer S) (s : S) {struct n} : outcome S :=
  match n with
  | nilNode => Panic
  | mkNode b _ its cul cur cll clr =>
    if overlaps b bounds then
      match its with
      | None =>
          s1 <- queryInternal cul bounds consume s ;;
          s2 <- queryInternal cur bounds consume s1 ;;
          s3 <- queryInternal cll bounds consume s2 ;;
          queryInternal clr bounds consume s3
      | Some l =>
          Ret (fold_left
                 (fun acc e =>
                    if Contains bounds (position e)
                    then snd (consume e acc)
                    else acc)
                 l s)
      end
    else Ret s
  end.

Definition Query (qt : Quadtree) (bounds : Rect) : outcome (list T) :=
  queryInternal (root qt) bounds
    (fun item acc => (true, acc ++ [data item])) [].

End Quadtree.

(** ** Laws of the coordinate operations

    [OrderLaws] holds of IEEE-754 comparisons and of adding a zero, so it
    holds of [float64].  [ExactLaws] says that halving and adding do not
    round and that every two coordinates compare; it holds of [exactQ] and
    fails for [float64]. *)

Class OrderLaws (C : Type) `{Coord C} : Prop := {
  clt_cle_false : forall a b : C, clt a b = true -> cle b a = true -> False;
  cle_clt_trans : forall a b c : C,
    cle a b = true -> clt b c = true -> clt a c = true;
  cadd_zero_r : forall x z p : C,
    cle z czero = true -> cle czero z = true ->
    clt p (cadd x z) = clt p x
}.

Class ExactLaws (C : Type) `{Coord C} : Prop := {
  exact_order :: OrderLaws C;
  cle_total : forall a b : C, clt a b = false -> cle b a = true;
  chalf_twice : forall x w p : C,
    clt p (cadd (cadd x (chalf w)) (chalf w)) = clt p (cadd x w);
  lower_half_within : forall x w p : C,
    cle x p = true -> clt p (cadd x (chalf w)) = true ->
    clt p (cadd x w) = true;
  upper_half_within : forall x w p : C,
    cle (cadd x (chalf w)) p = true -> clt p (cadd x w) = true ->
    cle x p = true
}.

(** ** Shapes of nodes and trees *)

Section Shapes.

Context {C : Type} `{Coord C} {T : Type}.

Local Abbreviation Point := (@Point C).
Local Abbreviation Rect := (@Rect C).
Local Abbreviation node := (@node C T).
Local Abbreviation treeEntry := (@treeEntry C T).
Local Abbreviation Quadtree := (@Quadtree C T).

Definition is_nilNode (n : node) : bool :=
  match n with
  | nilNode => true
  | mkNode _ _ _ _ _ _ _ => false
  end.

(** A non-nil entries list and all four child references unset. *)
Definition is_leaf (n : node) : bool :=
  match n with
  | nilNode => false
  | mkNode _ _ its cul cur cll clr =>
      negb (is_nil its) &&
      is_nilNode cul && is_nilNode cur && is_nilNode cll && is_nilNode clr
  end.

(** No entries list and all four child references set. *)
Definition is_internal (n : node) : bool :=
  match n with
  | nilNode => false
  | mkNode _ _ its cul cur cll clr =>
      is_nil its &&
      negb (is_nilNode cul) && negb (is_nilNode cur) &&
      negb (is_nilNode cll) && negb (is_nilNode clr)
  end.

(** The node itself and every node below it. *)
Fixpoint subnodes (n : node) : list node :=
  match n with
  | nilNode => []
  | mkNode _ _ _ cul cur cll clr =>
      n :: subnodes cul ++ subnodes cur ++ subnodes cll ++ subnodes clr
  end.

Definition child (q : quadrant) (n : node) : node :=
  match n with
  | nilNode => nilNode
  | mkNode _ _ _ cul cur cll clr =>
      match q with
      | quadrantNone => nilNode
      | quadrantUpperLeft => cul
      | quadrantUpperRight => cur
      | quadrantLowerLeft => cll
      | quadrantLowerRight => clr
      end
  end.

Definition is_quadrantNone (q : quadrant) : bool :=
  match q with
  | quadrantNone => true
  | _ => false
  end.

(** [n] with the child reference of quadrant [q] set to [c]. *)
Definition set_child (q : quadrant) (n c : node) : node :=
  match n with
  | nilNode => nilNode
  | mkNode b d its cul cur cll clr =>
      match q with
      | quadrantNone => n
      | quadrantUpperLeft => mkNode b d its c cur cll clr
      | quadrantUpperRight => mkNode b d its cul c cll clr
      | quadrantLowerLeft => mkNode b d its cul cur c clr
      | quadrantLowerRight => mkNode b d its cul cur cll c
      end
  end.

(** The node [addInternal] recurses on after it has split [n]. *)
Definition split_node (n : node) : node :=
  match n with
  | nilNode => nilNode
  | mkNode b d _ _ _ _ _ =>
      let '(qul, qur, qll, qlr) := quadrants b in
      mkNode b d None (newNode n qul) (newNode n qur)
             (newNode n qll) (newNode n qlr)
  end.

(** The entries stored in the tree below [n], in traversal order. *)
Fixpoint entries (n : node) : list treeEntry :=
  match n with
  | nilNode => []
  | mkNode _ _ its cul cur cll clr =>
      range its ++ entries cul ++ entries cur ++ entries cll ++ entries clr
  end.

(** The fields of a node; of the nil reference, zero values. *)
Definition bounds_of (n : node) : Rect :=
  match n with
  | nilNode => mkRect czero czero czero czero
  | mkNode b _ _ _ _ _ _ => b
  end.

Definition depth_of (n : node) : Z :=
  match n with
  | nilNode => 0
  | mkNode _ d _ _ _ _ _ => d
  end.

Definition items_of (n : node) : option (list treeEntry) :=
  match n with
  | nilNode => None
  | mkNode _ _ its _ _ _ _ => its
  end.

(** The quadrant of [r] that [quadrants] returns for [q]. *)
Definition quadrant_bounds (q : quadrant) (r : Rect) : Rect :=
  let '(qul, qur, qll, qlr) := quadrants r in
  match q with
  | quadrantNone => r
  | quadrantUpperLeft => qul
  | quadrantUpperRight => qur
  | quadrantLowerLeft => qll
  | quadrantLowerRight => qlr
  end.

(** Every entry below a node is inside the bounds of that node, and the
    children of an internal node have the bounds that [quadrants] gives. *)
Fixpoint placed (n : node) : Prop :=
  match n with
  | nilNode => True
  | mkNode b _ its cul cur cll clr =>
      Forall (fun e => Contains b (position e) = true) (entries n) /\
      match its with
      | Some _ => True
      | None =>
          (bounds_of cul, bounds_of cur, bounds_of cll, bounds_of clr)
            = quadrants b /\
          placed cul /\ placed cur /\ placed cll /\ placed clr
      end
  end.

(** The leaf that insertion at [pos] reaches from [n]. *)
Fixpoint route (pos : Point) (n : node) : node :=
  match n with
  | nilNode => nilNode
  | mkNode b _ (Some _) _ _ _ _ => n
  | mkNode b _ None cul cur cll clr =>
      match whichQuadrant b pos with
      | quadrantNone => nilNode
      | quadrantUpperLeft => route pos cul
      | quadrantUpperRight => route pos cur
      | quadrantLowerLeft => route pos cll
      | quadrantLowerRight => route pos clr
      end
  end.

(** Below [n], only the leaf that [pos] is routed to holds entries. *)
Fixpoint on_route (pos : Point) (n : node) : Prop :=
  match n with
  | nilNode => True
  | mkNode b _ (Some _) _ _ _ _ => True
  | mkNode b _ None cul cur cll clr =>
      match whichQuadrant b pos with
      | quadrantNone =>
          entries cul = [] /\ entries cur = [] /\
          entries cll = [] /\ entries clr = []
      | quadrantUpperLeft =>
          on_route pos cul /\
          entries cur = [] /\ entries cll = [] /\ entries clr = []
      | quadrantUpperRight =>
          on_route pos cur /\
          entries cul = [] /\ entries cll = [] /\ entries clr = []
      | quadrantLowerLeft =>
          on_route pos cll /\
          entries cul = [] /\ entries cur = [] /\ entries clr = []
      | quadrantLowerRight =>
          on_route pos clr /\
          entries cul = [] /\ entries cur = [] /\ entries cll = []
      end
  end.

(** The entry that [Add] makes of a payload and a position. *)
Definition entry_of (c : T * Point) : treeEntry := mkEntry (snd c) (fst c).

(** The quadrants that [whichQuadrant] names for [p], [k] levels down from
    [r], each contain [p]: insertion can carry [p] down [k] levels without
    reaching the [quadrantNone] branch. *)
Fixpoint routable (k : nat) (r : Rect) (p : Point) : bool :=
  match k with
  | O => true
  | S k' =>
      let q := quadrant_bounds (whichQuadrant r p) r in
      Contains q p && routable k' q p
  end.

(** The entries of every leaf can be carried down from that leaf to depth
    [D]. *)
Fixpoint routed (D : Z) (n : node) : Prop :=
  match n with
  | nilNode => True
  | mkNode b d (Some l) _ _ _ _ =>
      Forall (fun e => routable (Z.to_nat (D - d)) b (position e) = true) l
  | mkNode _ _ None cul cur cll clr =>
      routed D cul /\ routed D cur /\ routed D cll /\ routed D clr
  end.

(** [r2] contains every point that [r1] contains. *)
Definition within (r1 r2 : Rect) : Prop :=
  forall p : Point, Contains r1 p = true -> Contains r2 p = true.

(** The node reached from [n] by following child references. *)
Fixpoint descend (path : list quadrant) (n : node) : node :=
  match path with
  | [] => n
  | q :: path' => descend path' (child q n)
  end.

(** The well-formed nodes for maximum depth [D] and capacity [M], at depth
    [d]: a leaf between depth 0 and [D] that holds at most [M] entries
    unless it is at depth [D], or an internal node at a depth less than
    [D] with four well-formed children one level down. *)
Fixpoint wf (D M d : Z) (n : node) : Prop :=
  match n with
  | nilNode => False
  | mkNode _ d' its cul cur cll clr =>
      d' = d /\ 0 <= d /\
      match its with
      | Some l =>
          cul = nilNode /\ cur = nilNode /\ cll = nilNode /\ clr = nilNode /\
          d <= D /\ (d < D -> Z.of_nat (List.length l) <= M)
      | None =>
          d < D /\
          wf D M (d + 1) cul /\ wf D M (d + 1) cur /\
          wf D M (d + 1) cll /\ wf D M (d + 1) clr
      end
  end.

(** [grows n n']: [n'] has the bounds and the depth of [n], and where [n]
    is internal [n'] is internal with children grown from those of [n]. *)
Fixpoint grows (n n' : node) : Prop :=
  match n, n' with
  | nilNode, nilNode => True
  | mkNode b d its cul cur cll clr, mkNode b' d' its' cul' cur' cll' clr' =>
      b = b' /\ d = d' /\
      match its with
      | Some _ => True
      | None =>
          its' = None /\
          grows cul cul' /\ grows cur cur' /\ grows cll cll' /\ grows clr clr'
      end
  | _, _ => False
  end.

(** Fuel that lets [addInternal] return on a well-formed node at depth [d]. *)
Definition fuel_for (D d : Z) (n : node) : nat :=
  Z.to_nat (2 * (D - d)) + (if is_leaf n then 1 else 0).

(** The operations of the public API on a tree. *)
Inductive op : Type :=
| OpAdd (d : T) (pos : Point)
| OpQuery (bounds : Rect)
| OpSize.

(** The tree after an operation. *)
Definition step (fuel : nat) (qt : Quadtree) (o : op) : outcome Quadtree :=
  match o with
  | OpAdd d pos => r <- Add fuel qt d pos ;; Ret (fst r)
  | OpQuery bounds => _ <- Query qt bounds ;; Ret qt
  | OpSize => let _ := Size qt in Ret qt
  end.

(** The trees the public API builds: [NewQuadtree], then operations that
    return. *)
Inductive reachable : Quadtree -> Prop :=
| reachable_new bounds D M qt :
    GoInt.in_range D ->
    NewQuadtree bounds D M = (Some qt, None) ->
    reachable qt
| reachable_step fuel qt o qt' :
    reachable qt ->
    step fuel qt o = Ret qt' ->
    reachable qt'.

(** A sequence of operations, one after the other. *)
Fixpoint run (fuel : nat) (qt : Quadtree) (ops : list op) : outcome Quadtree :=
  match ops with
  | [] => Ret qt
  | o :: rest => qt' <- step fuel qt o ;; run fuel qt' rest
  end.

(** Go's [err == nil]. *)
Definition is_nil_error (e : option string) : bool :=
  match e with
  | None => true
  | Some _ => false
  end.

(** Go's [w == 0]. *)
Definition is_zero (w : C) : bool := cle w czero && cle czero w.

(** The entries [queryInternal] hands to its consumer, in order. *)
Fixpoint visited (n : node) (bounds : Rect) : list treeEntry :=
  match n with
  | nilNode => []
  | mkNode b _ its cul cur cll clr =>
      if overlaps b bounds then
        match its with
        | None =>
            visited cul bounds ++ visited cur bounds ++
            visited cll bounds ++ visited clr bounds
        | Some l => filter (fun e => Contains bounds (position e)) l
        end
      else []
  end.

(** The consumer that hands the payload and the stored position of an
    entry to a visitor [func(data interface{}, pos Point) bool], as the
    tests' visitors are. *)
Definition visiting {S : Type} (visitor : T -> Point -> S -> bool * S)
  : consumer S :=
  fun item acc => visitor (data item) (position item) acc.

(** A sequence of [Add] calls, with the error each call returned. *)
Fixpoint add_all (fuel : nat) (qt : Quadtree) (calls : list (T * Point))
  : outcome (Quadtree * list (option string)) :=
  match calls with
  | [] => Ret (qt, [])
  | (d, pos) :: rest =>
      r <- Add fuel qt d pos ;;
      r' <- add_all fuel (fst r) rest ;;
      Ret (fst r', snd r :: snd r')
  end.

Definition root_bounds (qt : Quadtree) : Rect :=
  match root qt with
  | nilNode => mkRect czero czero czero czero
  | mkNode b _ _ _ _ _ _ => b
  end.

(** What the lemmas below establish of the trees of the API. *)
Definition tree_ok (qt : Quadtree) : Prop :=
  GoInt.in_range (maxDepth qt) /\
  1 <= maxItemsPerNode qt /\
  wf (maxDepth qt) (maxItemsPerNode qt) 0 (root qt).

Definition out_of_bounds : option string :=
  Some "Add failed: position outside bounds of tree."%string.

(** With fuel [2 * maxDepth + 1], [Add] returns on every tree of the API. *)
Definition fuel_of (qt : Quadtree) : nat := S (Z.to_nat (2 * maxDepth qt)).

(** The number of calls of [calls] that [Add] accepts, and that it
    rejects. *)
Definition accepted (bounds : Rect) (calls : list (T * Point)) : nat :=
  List.length (filter (fun c => Contains bounds (snd c)) calls).

Definition rejected (bounds : Rect) (calls : list (T * Point)) : nat :=
  List.length (filter (fun c => negb (Contains bounds (snd c))) calls).

End Shapes.

(** ** Inputs

    Trees built by the source's own functions on binary64 floats: those
    of the tests, with the numbers the tests give their data as payloads,
    and trees whose bounds are at the scale of one unit in the last place
    of their coordinates. *)

#[local] Set Warnings "-inexact-float".

(** [Rect{x, y, w, h}] and [Point{x, y}] with [float64] fields. *)
Definition Rect64 (x y w h : float) : @Rect float := mkRect x y w h.
Definition Point64 (x y : float) : @Point float := mkPoint x y.

(** The tree that [NewQuadtree] and the given [Add] calls build, with the
    errors of the calls. *)
Definition build {C T : Type} `{Coord C} (bounds : @Rect C) (D M : Z)
  (calls : list (T * @Point C))
  : outcome (@Quadtree C T * list (option string)) :=
  match fst (NewQuadtree bounds D M) with
  | None => Panic
  | Some qt => add_all (fuel_of qt) qt calls
  end.

Definition tree_of {C T : Type} `{Coord C}
  (r : outcome (@Quadtree C T * list (option string))) : @Quadtree C T :=
  match r with
  | Ret (qt, _) => qt
  | _ => mkQuadtree 0 0 nilNode 0 false
  end.

(** TestQuery_withPointRect_doesNotreturnItemAtPosition. *)
Definition point_rect_bounds : @Rect float := Rect64 0 0 5 5.
Definition point_rect : @Rect float := Rect64 1 1 0 0.
Definition point_rect_tree : @Quadtree float nat :=
  tree_of (build point_rect_bounds 2 2 [(1%nat, Point64 1 1)]).

(** TestSize_sizeIncrements, followed by the four calls of
    TestAdd_outsideBoundsGeneratesError scaled to the bounds. *)
Definition size_bounds : @Rect float := Rect64 0 0 100 100.
Definition size_calls : list (nat * @Point float) :=
  [ (7%nat, Point64 20 20);
    (7%nat, Point64 20 20);
    (1%nat, Point64 0 500);
    (2%nat, Point64 10 20);
    (1%nat, Point64 0 (-500));
    (1%nat, Point64 500 0);
    (3%nat, Point64 20 90);
    (1%nat, Point64 (-500) 0) ].
Definition size_tree0 : @Quadtree float nat :=
  mkQuadtree 5 1 (mkNode size_bounds 0 (Some []) nilNode nilNode nilNode nilNode)
             0 false.

(** TestQuery_whenSplittingToMaxDepth_returnsAllItems. *)
Definition depth_bounds : @Rect float := Rect64 0 0 5 5.
Definition depth_tree : @Quadtree float nat :=
  tree_of (build depth_bounds 2 2
             (map (fun i => (i, Point64 1 1))
                  [1; 2; 3; 4; 5; 6]%nat)).

(** Bounds with decimal coordinates: in binary64, 0.2 + 0.1 is
    0.30000000000000004, while 0.2 + 0.05 is 0.25 and 0.25 + 0.05 is 0.3;
    so 0.3 is below the end of [Rect{0.2, 0.2, 0.1, 0.1}] on the x axis
    and not below the end of its right quadrants. *)
Definition tenth_bounds : @Rect float := Rect64 0.2 0.2 0.1 0.1.
Definition tenth_point : @Point float := Point64 0.3 0.25.
Definition tenth_calls : list (nat * @Point float) :=
  [(1%nat, tenth_point); (2%nat, Point64 0.22 0.22)].
Definition tenth_tree : @Quadtree float nat :=
  tree_of (build tenth_bounds 10 1 tenth_calls).
Definition tenth_same_calls : list (nat * @Point float) :=
  map (fun i => (i, tenth_point)) (seq 1 11).
Definition tenth_same_tree : @Quadtree float nat :=
  tree_of (build tenth_bounds 10 10 tenth_same_calls).

(** Bounds at the scale of one unit in the last place:
    2^53 = 9007199254740992 and 2^53 + 2 are neighbours in binary64, so
    in [Rect{2^53, 0, 2, 2}] the midpoint 2^53 + 1 rounds to 2^53. *)
Definition ulp_bounds : @Rect float := Rect64 9007199254740992 0 2 2.
Definition ulp_point : @Point float := Point64 9007199254740992 0.5.
Definition ulp_calls : list (nat * @Point float) :=
  [(1%nat, ulp_point); (2%nat, ulp_point)].
Definition ulp_tree : @Quadtree float nat :=
  tree_of (build ulp_bounds 1 1 ulp_calls).

(** A rectangle whose upper quadrants end above it: its height is three
    units in the last place of its [Y]. *)
Definition skew_bounds : @Rect float := Rect64 0 1 1 0x3p-52.
Definition skew_point : @Point float := Point64 0.25 0x1.0000000000003p+0.
Definition skew_tree : @Quadtree float nat :=
  tree_of (build skew_bounds 1 1
             [(1%nat, Point64 0.5 1); (2%nat, Point64 0.5 1)]).

(** TestQueryIterative_stopsWhenReturnFalse: the tree, and the visitor
    that counts its calls and answers false from the second call on. *)
Definition visit_bounds : @Rect float := Rect64 (-1) (-1) 1 1.
Definition visit_calls : list (nat * @Point float) :=
  [ (1%nat, Point64 (-0.5) (-0.1));
    (2%nat, Point64 (-0.1) (-0.3));
    (3%nat, Point64 (-0.7) (-0.7));
    (4%nat, Point64 (-0.3) (-0.9)) ].
Definition visit_tree : @Quadtree float nat :=
  tree_of (build visit_bounds 2 2 visit_calls).
Definition counting_visitor (_ : nat) (_ : @Point float) (count : Z)
  : bool * Z :=
  let count := GoInt.add count 1 in
  if count >? 1 then (false, count) else (true, count).

(** The same bounds and calls with rational coordinates. *)
Definition ulp_bounds_exact : @Rect Q :=
  mkRect (9007199254740992 # 1) (0 # 1) (2 # 1) (2 # 1).
Definition ulp_point_exact : @Point Q :=
  mkPoint (9007199254740992 # 1) (1 # 2).
Definition ulp_calls_exact : list (nat * @Point Q) :=
  [(1%nat, ulp_point_exact); (2%nat, ulp_point_exact)].

(** ** The two interpretations satisfy their laws *)

Lemma SFltb_SFleb_false (a b : spec_float) :
  SFltb a b = true -> SFleb b a = true -> False.
Proof.
  unfold SFltb, SFleb, SFcompare.
  destruct a as [sa|sa| |sa ma ea], b as [sb|sb| |sb mb eb];
    try destruct sa; try destruct sb; simpl; try discriminate.
  all: change (Pos.compare_cont Eq) with Pos.compare.
  all: destruct (Z.compare_spec ea eb); simpl; try discriminate;
       destruct (Z.compare_spec eb ea); simpl; try discriminate; try lia;
       destruct (Pos.compare_spec ma mb); simpl; try discriminate;
       destruct (Pos.compare_spec mb ma); simpl; try discriminate; try lia.
Qed.

Lemma SFleb_SFltb_trans (a b c : spec_float) :
  SFleb a b = true -> SFltb b c = true -> SFltb a c = true.
Proof.
  unfold SFltb, SFleb, SFcompare.
  destruct a as [sa|sa| |sa ma ea], b as [sb|sb| |sb mb eb],
           c as [sc|sc| |sc mc ec];
    try destruct sa; try destruct sb; try destruct sc; simpl;
    try discriminate; try reflexivity.
  all: change (Pos.compare_cont Eq) with Pos.compare.
  all: destruct (Z.compare_spec ea eb); simpl; try discriminate;
       destruct (Z.compare_spec eb ec); simpl; try discriminate;
       destruct (Z.compare_spec ea ec); simpl; try reflexivity; try lia;
       destruct (Pos.compare_spec ma mb); simpl; try discriminate;
       destruct (Pos.compare_spec mb mc); simpl; try discriminate;
       destruct (Pos.compare_spec ma mc); simpl;
       try reflexivity; try discriminate; try lia.
Qed.

Lemma float_add_zero (x z p : float) :
  PrimFloat.leb z 0 = true -> PrimFloat.leb 0 z = true ->
  PrimFloat.ltb p (PrimFloat.add x z) = PrimFloat.ltb p x.
Proof.
  rewrite !leb_spec, !ltb_spec, add_spec.
  change (Prim2SF 0) with (S754_zero false).
  destruct (Prim2SF z) as [sz|sz| |sz mz ez]; try destruct sz; simpl;
    try discriminate; intros _ _.
  all: unfold SF64add, SFadd;
       destruct (Prim2SF x) as [sx|sx| |sx mx ex]; try destruct sx;
       try reflexivity.
  all: destruct (Prim2SF p) as [sp|sp| |sp mp ep]; try destruct sp;
       reflexivity.
Qed.

#[export] Instance float64_order : OrderLaws float.
Proof.
  constructor; simpl.
  - intros a b. rewrite ltb_spec, leb_spec. apply SFltb_SFleb_false.
  - intros a b c. rewrite !ltb_spec, leb_spec. apply SFleb_SFltb_trans.
  - apply float_add_zero.
Qed.

Lemma bool_ext (a b : bool) : (a = true <-> b = true) -> a = b.
Proof. destruct a, b; intuition congruence. Qed.

Lemma Qhalf_spec (x : Q) : (x / (2 # 1) == x * (1 # 2))%Q.
Proof. unfold Qdiv. reflexivity. Qed.

Lemma Qclt_iff (a b : Q) : clt a b = true <-> (a < b)%Q.
Proof.
  simpl. rewrite negb_true_iff, <- not_true_iff_false, Qle_bool_iff.
  split; intros; lra.
Qed.

Lemma Qcle_iff (a b : Q) : cle a b = true <-> (a <= b)%Q.
Proof. simpl. apply Qle_bool_iff. Qed.

#[export] Instance exactQ_order : OrderLaws Q.
Proof.
  constructor.
  - intros a b. rewrite Qclt_iff, Qcle_iff. lra.
  - intros a b c. rewrite !Qclt_iff, Qcle_iff. lra.
  - intros x z p. rewrite !Qcle_iff. intros Hz1 Hz2.
    apply bool_ext. rewrite !Qclt_iff. simpl in *. lra.
Qed.

#[export] Instance exactQ_exact : ExactLaws Q.
Proof.
  constructor.
  - exact exactQ_order.
  - intros a b Hlt. apply Qcle_iff.
    destruct (Qlt_le_dec a b) as [Hab|Hab]; [|exact Hab].
    apply Qclt_iff in Hab. congruence.
  - intros x w p. apply bool_ext. rewrite !Qclt_iff. simpl.
    pose proof (Qhalf_spec w). lra.
  - intros x w p. rewrite !Qclt_iff, Qcle_iff. simpl.
    pose proof (Qhalf_spec w). lra.
  - intros x w p. rewrite !Qclt_iff, !Qcle_iff. simpl.
    pose proof (Qhalf_spec w). lra.
Qed.

(** [float64] does not satisfy [ExactLaws]: 2^53 + 1 rounds to 2^53. *)
Lemma float64_not_exact : ~ ExactLaws float.
Proof.
  intros E.
  pose proof (@chalf_twice float _ E
                9007199254740992%float 2%float 9007199254740992%float) as Hh.
  vm_compute in Hh. discriminate Hh.
Qed.

(** ** Insertion keeps trees well formed *)

Section Structure.

Context {C : Type} `{Coord C} {T : Type}.

Local Abbreviation Point := (@Point C).
Local Abbreviation Rect := (@Rect C).
Local Abbreviation node := (@node C T).
Local Abbreviation treeEntry := (@treeEntry C T).
Local Abbreviation Quadtree := (@Quadtree C T).

Lemma bind_Ret {A B : Type} (m : outcome A) (k : A -> outcome B) (b : B) :
  bind m k = Ret b -> exists a, m = Ret a /\ k a = Ret b.
Proof. destruct m; simpl; intros E; try discriminate. eauto. Qed.

Lemma fold_bind_Ret {A B : Type} (step : A -> B -> outcome A)
  (l : list B) (acc : outcome A) (a' : A) :
  fold_left (fun acc i => m <- acc ;; step m i) l acc = Ret a' ->
  exists a, acc = Ret a.
Proof.
  revert acc. induction l as [|i l IH]; simpl; intros acc E.
  - eauto.
  - apply IH in E. destruct E as [a E]. apply bind_Ret in E.
    destruct E as [a0 [E _]]. eauto.
Qed.

(** An invariant of each step is an invariant of the loop. *)
Lemma fold_bind_invariant {A B : Type} (step : A -> B -> outcome A)
  (P : A -> Prop) (l : list B) :
  (forall a i a', P a -> step a i = Ret a' -> P a') ->
  forall a a', P a ->
    fold_left (fun acc i => m <- acc ;; step m i) l (Ret a) = Ret a' ->
    P a'.
Proof.
  intros Hstep. induction l as [|i l IH]; simpl; intros a a' Pa E.
  - congruence.
  - destruct (step a i) as [a1| |] eqn:E1.
    + eapply IH; [|exact E]. eapply Hstep; eauto.
    + apply fold_bind_Ret in E. destruct E; discriminate.
    + apply fold_bind_Ret in E. destruct E; discriminate.
Qed.

(** A loop whose steps all return, returns. *)
Lemma fold_bind_total {A B : Type} (step : A -> B -> outcome A)
  (P : A -> Prop) (l : list B) :
  (forall a i, P a -> exists a', step a i = Ret a' /\ P a') ->
  forall a, P a ->
    exists a',
      fold_left (fun acc i => m <- acc ;; step m i) l (Ret a) = Ret a' /\ P a'.
Proof.
  intros Hstep. induction l as [|i l IH]; simpl; intros a Pa.
  - eauto.
  - destruct (Hstep a i Pa) as [a1 [E1 P1]]. rewrite E1. apply IH, P1.
Qed.

(** The body of [addInternal], one test after the other. *)
Lemma addInternal_eq (fuel : nat) (qt : Quadtree) (b : Rect) (d : Z)
  (its : option (list treeEntry)) (cul cur cll clr : node) (item : treeEntry) :
  let n := mkNode b d its cul cur cll clr in
  let q := whichQuadrant b (position item) in
  addInternal (S fuel) qt n item =
    if is_quadrantNone q then Ret n
    else if negb (is_nil its) && (d >=? maxDepth qt) then
      Ret (mkNode b d (append its item) cul cur cll clr)
    else if len its >=? maxItemsPerNode qt then
      n' <- fold_left (fun acc i => m <- acc ;; addInternal fuel qt m i)
              (range its) (Ret (split_node n)) ;;
      addInternal fuel qt n' item
    else if negb (is_nil its) then
      Ret (mkNode b d (append its item) cul cur cll clr)
    else
      c <- addInternal fuel qt (child q n) item ;;
      Ret (set_child q n c).
Proof.
  intros n q. subst n q. cbn [addInternal split_node].
  destruct (quadrants b) as [[[qul qur] qll] qlr].
  destruct (whichQuadrant b (position item)); reflexivity.
Qed.

Lemma grows_refl (n : node) : grows n n.
Proof.
  induction n as [|b d its cul IHul cur IHur cll IHll clr IHlr]; simpl; auto.
  destruct its; auto 10.
Qed.

Lemma grows_trans (n1 n2 n3 : node) : grows n1 n2 -> grows n2 n3 -> grows n1 n3.
Proof.
  revert n2 n3.
  induction n1 as [|b d its cul IHul cur IHur cll IHll clr IHlr];
    intros [|b2 d2 its2 ul2 ur2 ll2 lr2] [|b3 d3 its3 ul3 ur3 ll3 lr3];
    simpl; try tauto.
  intros (-> & -> & H12) (-> & -> & H23).
  repeat split.
  destruct its; auto.
  destruct H12 as (-> & ? & ? & ? & ?).
  destruct H23 as (-> & ? & ? & ? & ?).
  eauto 10.
Qed.

Lemma wf_not_nil (D M d : Z) (n : node) : wf D M d n -> n <> nilNode.
Proof. destruct n; simpl; [tauto | discriminate]. Qed.

Section AddInternal.

Variable qt : Quadtree.
Hypothesis depth_range : GoInt.in_range (maxDepth qt).
Hypothesis capacity_pos : 1 <= maxItemsPerNode qt.

Let D := maxDepth qt.
Let M := maxItemsPerNode qt.

Lemma newNode_wf (b b' : Rect) (d : Z) (its : option (list treeEntry))
  (cul cur cll clr : node) :
  0 <= d < D ->
  wf D M (d + 1) (newNode (mkNode b d its cul cur cll clr) b').
Proof.
  intros Hd. simpl.
  rewrite GoInt.add_no_overflow.
  2:{ unfold GoInt.in_range, GoInt.min_int, GoInt.max_int in *.
      subst D. lia. }
  repeat split; try lia.
Qed.

Lemma split_node_wf (b : Rect) (d : Z) (its : option (list treeEntry))
  (cul cur cll clr : node) :
  0 <= d < D ->
  wf D M d (split_node (mkNode b d its cul cur cll clr)).
Proof.
  intros Hd. unfold split_node.
  destruct (quadrants b) as [[[qul qur] qll] qlr].
  cbn [wf]. split; [reflexivity|]. split; [lia|]. split; [lia|].
  refine (conj _ (conj _ (conj _ _))); apply newNode_wf; exact Hd.
Qed.

Lemma split_node_grows (b : Rect) (d : Z) (its : option (list treeEntry))
  (cul cur cll clr n' : node) :
  grows (split_node (mkNode b d its cul cur cll clr)) n' ->
  exists cul' cur' cll' clr', n' = mkNode b d None cul' cur' cll' clr'.
Proof.
  unfold split_node. destruct (quadrants b) as [[[qul qur] qll] qlr].
  destruct n' as [|b' d' its' ? ? ? ?]; simpl; [tauto|].
  intros (-> & -> & -> & _). eauto.
Qed.

Lemma child_wf (q : quadrant) (b : Rect) (d : Z) (cul cur cll clr : node) :
  is_quadrantNone q = false ->
  wf D M d (mkNode b d None cul cur cll clr) ->
  wf D M (d + 1) (child q (mkNode b d None cul cur cll clr)).
Proof.
  intros Hq (_ & _ & _ & Hul & Hur & Hll & Hlr).
  destruct q; simpl; auto; discriminate.
Qed.

Lemma set_child_wf (q : quadrant) (b : Rect) (d : Z)
  (cul cur cll clr c : node) :
  let n := mkNode b d None cul cur cll clr in
  wf D M d n -> wf D M (d + 1) c -> grows (child q n) c ->
  wf D M d (set_child q n c) /\ grows n (set_child q n c).
Proof.
  intros n (_ & Hd & HdD & Hul & Hur & Hll & Hlr) Hc Hg.
  pose proof (grows_refl cul). pose proof (grows_refl cur).
  pose proof (grows_refl cll). pose proof (grows_refl clr).
  destruct q; simpl in *; auto 15.
Qed.

(** Whenever [addInternal] returns, the node it returns is well formed and
    grown from the node it was given. *)
Lemma addInternal_wf (fuel : nat) :
  forall (n : node) (item : treeEntry) (d : Z) (n' : node),
    wf D M d n ->
    addInternal fuel qt n item = Ret n' ->
    wf D M d n' /\ grows n n'.
Proof.
  induction fuel as [|fuel IH]; intros n item d n' Hwf Hadd.
  - discriminate.
  - destruct n as [|b d0 its cul cur cll clr]; [destruct Hwf|].
    rewrite addInternal_eq in Hadd. cbv zeta in Hadd.
    fold D M in Hadd.
    assert (d0 = d) by (destruct Hwf; assumption). subst d0.
    destruct (is_quadrantNone (whichQuadrant b (position item))) eqn:Eq.
    { inversion Hadd; subst n'. split; [exact Hwf | apply grows_refl]. }
    destruct its as [l|]; cbn [is_nil negb andb len range] in Hadd.
    + (* a leaf *)
      destruct Hwf as (_ & Hd0 & -> & -> & -> & -> & HdD & Hcap).
      destruct (d >=? D) eqn:Emax.
      { inversion Hadd; subst n'; simpl; repeat split; auto; lia. }
      destruct (Z.of_nat (List.length l) >=? M) eqn:Efull.
      * apply bind_Ret in Hadd. destruct Hadd as (n0 & Hloop & Hlast).
        set (n := mkNode b d (Some l) nilNode nilNode nilNode nilNode) in *.
        assert (Hn0 : wf D M d n0 /\ grows (split_node n) n0).
        { revert Hloop.
          apply (fold_bind_invariant
                   (fun m i => addInternal fuel qt m i)
                   (fun m => wf D M d m /\ grows (split_node n) m)).
          - intros a i a' [Ha Hga] Ea.
            destruct (IH _ _ _ _ Ha Ea) as [Ha' Hga'].
            split; [exact Ha' | eapply grows_trans; eauto].
          - split; [apply split_node_wf; lia | apply grows_refl]. }
        destruct Hn0 as [Hn0 Hg0].
        destruct (IH _ _ _ _ Hn0 Hlast) as [Hn' Hg'].
        split; [exact Hn'|].
        assert (Hg : grows (split_node n) n') by (eapply grows_trans; eauto).
        apply split_node_grows in Hg.
        destruct Hg as (? & ? & ? & ? & ->). simpl. auto.
      * inversion Hadd; subst n'; simpl; repeat split; auto; try lia.
        intros _. rewrite length_app. simpl. lia.
    + (* an internal node *)
      destruct (0 >=? M) eqn:Efull; [subst M; lia|].
      apply bind_Ret in Hadd. destruct Hadd as (c & Hc & Hret).
      inversion Hret; subst n'; clear Hret.
      destruct (IH _ _ _ _ (child_wf _ _ _ _ _ _ _ Eq Hwf) Hc) as [Hwc Hgc].
      apply set_child_wf; assumption.
Qed.

Lemma grows_split_internal (n m : node) :
  n <> nilNode -> grows (split_node n) m -> is_leaf m = false.
Proof.
  destruct n as [|b d its cul cur cll clr]; [congruence|]. intros _ Hg.
  apply split_node_grows in Hg. destruct Hg as (? & ? & ? & ? & ->).
  reflexivity.
Qed.

Lemma fuel_for_child (q : quadrant) (b : Rect) (d : Z)
  (cul cur cll clr : node) (fuel : nat) :
  0 <= d < D ->
  (fuel_for D d (mkNode b d None cul cur cll clr) <= S fuel)%nat ->
  (fuel_for D (d + 1) (child q (mkNode b d None cul cur cll clr)) <= fuel)%nat.
Proof.
  unfold fuel_for. intros Hd Hf.
  replace (is_leaf (mkNode b d None cul cur cll clr)) with false in Hf
    by reflexivity.
  destruct (is_leaf _); lia.
Qed.

(** With [fuel_for] fuel, [addInternal] returns on a well-formed node:
    the recursion ends, and no nil reference is followed. *)
Lemma addInternal_total (fuel : nat) :
  forall (n : node) (item : treeEntry) (d : Z),
    wf D M d n ->
    (fuel_for D d n <= fuel)%nat ->
    exists n', addInternal fuel qt n item = Ret n'.
Proof.
  induction fuel as [|fuel IH]; intros n item d Hwf Hfuel.
  - exfalso. destruct n as [|b d0 its cul cur cll clr]; [destruct Hwf|].
    unfold fuel_for in Hfuel. destruct its as [l|]; simpl in Hwf.
    + destruct Hwf as (_ & _ & -> & -> & -> & -> & _). simpl in Hfuel. lia.
    + destruct Hwf as (_ & ? & ? & _). lia.
  - destruct n as [|b d0 its cul cur cll clr]; [destruct Hwf|].
    rewrite addInternal_eq. cbv zeta. fold D M.
    assert (d0 = d) by (destruct Hwf; assumption). subst d0.
    destruct (is_quadrantNone (whichQuadrant b (position item))) eqn:Eq;
      [eauto|].
    destruct its as [l|]; cbn [is_nil negb andb len range].
    + destruct (d >=? D) eqn:Emax; [eauto|].
      destruct (Z.of_nat (List.length l) >=? M) eqn:Efull; [|eauto].
      pose proof Hwf as (_ & Hd0 & -> & -> & -> & -> & HdD & Hcap).
      assert (Hfuel' : (Z.to_nat (2 * (D - d)) <= fuel)%nat).
      { unfold fuel_for in Hfuel.
        cbn [is_leaf is_nil negb is_nilNode andb] in Hfuel. lia. }
      set (n := mkNode b d (Some l) nilNode nilNode nilNode nilNode) in *.
      assert (Hstep : forall m, wf D M d m /\ grows (split_node n) m ->
                (fuel_for D d m <= fuel)%nat).
      { intros m [_ Hg]. unfold fuel_for.
        rewrite (grows_split_internal n m); [lia | discriminate | exact Hg]. }
      destruct (fold_bind_total
                  (fun m i => addInternal fuel qt m i)
                  (fun m => wf D M d m /\ grows (split_node n) m) l)
        with (a := split_node n) as (n0 & -> & Hn0).
      * intros a i Pa. destruct (IH a i d (proj1 Pa) (Hstep a Pa)) as [a' Ea].
        exists a'. split; [exact Ea|].
        destruct (addInternal_wf _ _ _ _ _ (proj1 Pa) Ea) as [Ha' Hg'].
        split; [exact Ha' | eapply grows_trans; [exact (proj2 Pa) | exact Hg']].
      * split; [apply split_node_wf; lia | apply grows_refl].
      * simpl. apply (IH n0 item d (proj1 Hn0) (Hstep n0 Hn0)).
    + destruct (0 >=? M) eqn:Efull; [subst M; lia|].
      pose proof Hwf as (_ & Hd0 & HdD & _).
      destruct (IH (child (whichQuadrant b (position item))
                          (mkNode b d None cul cur cll clr)) item (d + 1))
        as [c Ec].
      * apply child_wf; assumption.
      * apply fuel_for_child; [lia | exact Hfuel].
      * rewrite Ec. simpl. eauto.
Qed.

End AddInternal.

(** ** The trees of the public API *)

Lemma NewQuadtree_inv (bounds : Rect) (D M : Z) (qt : Quadtree)
  (err : option string) :
  NewQuadtree bounds D M = (Some qt, err) ->
  1 <= D /\ 1 <= M /\ err = None /\
  qt = mkQuadtree D M (mkNode bounds 0 (Some []) nilNode nilNode nilNode nilNode)
                  0 false.
Proof.
  unfold NewQuadtree.
  destruct (D <=? 0) eqn:ED; [discriminate|].
  destruct (M <=? 0) eqn:EM; [discriminate|].
  intros E. inversion E. repeat split; lia.
Qed.

Lemma NewQuadtree_ok (bounds : Rect) (D M : Z) (qt : Quadtree)
  (err : option string) :
  GoInt.in_range D ->
  NewQuadtree bounds D M = (Some qt, err) -> tree_ok qt.
Proof.
  intros HD E. apply NewQuadtree_inv in E.
  destruct E as (HD1 & HM1 & _ & ->).
  unfold tree_ok. simpl. split; [exact HD|]. repeat split; auto; lia.
Qed.

Lemma Add_rejects (fuel : nat) (qt : Quadtree) (d : T) (pos : Point) :
  root qt <> nilNode ->
  Contains (root_bounds qt) pos = false ->
  Add fuel qt d pos = Ret (qt, out_of_bounds).
Proof.
  unfold Add, root_bounds. destruct (root qt); [congruence|].
  intros _ ->. reflexivity.
Qed.

Lemma Add_inv (fuel : nat) (qt qt' : Quadtree) (d : T) (pos : Point)
  (err : option string) :
  Add fuel qt d pos = Ret (qt', err) ->
  (Contains (root_bounds qt) pos = false /\ qt' = qt /\ err = out_of_bounds) \/
  (Contains (root_bounds qt) pos = true /\ err = None /\
   exists r, addInternal fuel qt (root qt) (mkEntry pos d) = Ret r /\
     qt' = mkQuadtree (maxDepth qt) (maxItemsPerNode qt) r
                      (GoInt.add (size qt) 1) (debugAssertions qt)).
Proof.
  unfold Add, root_bounds.
  destruct (root qt) as [|b d0 its cul cur cll clr] eqn:Er; [discriminate|].
  destruct (Contains b pos) eqn:Ec; simpl.
  - intros E. apply bind_Ret in E. destruct E as (r & Er' & E).
    inversion E; subst. right. repeat split. eauto.
  - intros E. inversion E; subst. left. auto.
Qed.

Lemma Add_ok (fuel : nat) (qt qt' : Quadtree) (d : T) (pos : Point)
  (err : option string) :
  tree_ok qt ->
  Add fuel qt d pos = Ret (qt', err) ->
  tree_ok qt' /\ grows (root qt) (root qt') /\
  maxDepth qt' = maxDepth qt /\ maxItemsPerNode qt' = maxItemsPerNode qt.
Proof.
  intros (HD & HM & Hwf) E. apply Add_inv in E.
  destruct E as [(_ & -> & _) | (_ & _ & r & Er & ->)].
  - split; [exact (conj HD (conj HM Hwf))|].
    split; [apply grows_refl | split; reflexivity].
  - destruct (addInternal_wf qt HD HM _ _ _ _ _ Hwf Er) as [Hr Hg].
    unfold tree_ok. simpl. auto.
Qed.

Lemma step_ok (fuel : nat) (qt qt' : Quadtree) (o : op) :
  tree_ok qt ->
  step fuel qt o = Ret qt' ->
  tree_ok qt' /\ grows (root qt) (root qt').
Proof.
  intros Hok E. destruct o as [d pos|bounds|]; simpl in E.
  - apply bind_Ret in E. destruct E as ([qt1 err] & Ea & E).
    inversion E; subst qt'; clear E. simpl.
    destruct (Add_ok fuel qt qt1 d pos err Hok Ea) as (? & ? & _). auto.
  - apply bind_Ret in E. destruct E as (? & _ & E).
    inversion E; subst qt'. split; [exact Hok | apply grows_refl].
  - inversion E; subst qt'. split; [exact Hok | apply grows_refl].
Qed.

Lemma reachable_ok (qt : Quadtree) : reachable qt -> tree_ok qt.
Proof.
  induction 1 as [bounds D M qt HD E | fuel qt o qt' _ IH E].
  - exact (NewQuadtree_ok bounds D M qt None HD E).
  - exact (proj1 (step_ok fuel qt qt' o IH E)).
Qed.

Lemma reachable_add_all (fuel : nat) (calls : list (T * Point)) :
  forall (qt qt' : Quadtree) (errs : list (option string)),
    reachable qt ->
    add_all fuel qt calls = Ret (qt', errs) ->
    reachable qt'.
Proof.
  induction calls as [|[d pos] calls IH]; simpl; intros qt qt' errs Hr E.
  - inversion E; subst. exact Hr.
  - apply bind_Ret in E. destruct E as ([qt1 e1] & Ea & E).
    apply bind_Ret in E. destruct E as ([qt2 e2] & Eb & E).
    inversion E; subst. simpl in *.
    apply (IH qt1 qt' e2); [|exact Eb].
    apply (reachable_step fuel qt (OpAdd d pos) qt1 Hr).
    simpl. rewrite Ea. reflexivity.
Qed.

Lemma grows_root_bounds (qt qt' : Quadtree) :
  grows (root qt) (root qt') -> root_bounds qt' = root_bounds qt.
Proof.
  unfold root_bounds. destruct (root qt), (root qt'); simpl; try tauto.
  intros (-> & _). reflexivity.
Qed.

Lemma fuel_for_root (qt : Quadtree) (fuel : nat) :
  (fuel_of qt <= fuel)%nat ->
  (fuel_for (maxDepth qt) 0 (root qt) <= fuel)%nat.
Proof.
  unfold fuel_of, fuel_for. intros Hf. destruct (is_leaf (root qt)); lia.
Qed.

Lemma Add_accepts (fuel : nat) (qt : Quadtree) (d : T) (pos : Point) :
  tree_ok qt ->
  (fuel_of qt <= fuel)%nat ->
  Contains (root_bounds qt) pos = true ->
  exists r,
    addInternal fuel qt (root qt) (mkEntry pos d) = Ret r /\
    Add fuel qt d pos =
      Ret (mkQuadtree (maxDepth qt) (maxItemsPerNode qt) r
                      (GoInt.add (size qt) 1) (debugAssertions qt), None).
Proof.
  intros (HD & HM & Hwf) Hf Hc.
  destruct (addInternal_total qt HD HM fuel (root qt) (mkEntry pos d) 0 Hwf
              (fuel_for_root qt fuel Hf)) as [r Er].
  exists r. split; [exact Er|].
  unfold Add, root_bounds in *.
  destruct (root qt) as [|b d0 its cul cur cll clr] eqn:Eroot; [destruct Hwf|].
  rewrite Hc. simpl. rewrite Er. reflexivity.
Qed.

Lemma add_all_size (fuel : nat) (calls : list (T * Point)) :
  forall qt : Quadtree,
    tree_ok qt ->
    (fuel_of qt <= fuel)%nat ->
    0 <= size qt ->
    size qt + Z.of_nat (accepted (root_bounds qt) calls) <= GoInt.max_int ->
    exists qt' errs,
      add_all fuel qt calls = Ret (qt', errs) /\
      Size qt' = size qt + Z.of_nat (accepted (root_bounds qt) calls) /\
      errs = map (fun c => if Contains (root_bounds qt) (snd c)
                           then None else out_of_bounds) calls.
Proof.
  induction calls as [|[d pos] calls IH]; intros qt Hok Hfuel Hsz Hmax.
  - exists qt, []. simpl. unfold accepted. simpl. repeat split. unfold Size. lia.
  - unfold accepted in *. cbn [add_all filter snd map] in *.
    destruct (Contains (root_bounds qt) pos) eqn:Ec.
    + destruct (Add_accepts fuel qt d pos Hok Hfuel Ec) as (r & Er & ->).
      cbn [bind fst snd].
      set (qt1 := mkQuadtree _ _ r _ _).
      cbn [List.length] in Hmax.
      assert (Hok1 : tree_ok qt1 /\ grows (root qt) (root qt1) /\
                     maxDepth qt1 = maxDepth qt /\
                     maxItemsPerNode qt1 = maxItemsPerNode qt).
      { apply (Add_ok fuel qt qt1 d pos None Hok).
        destruct (Add_accepts fuel qt d pos Hok Hfuel Ec) as (r' & Er' & E).
        rewrite E. subst qt1. congruence. }
      destruct Hok1 as (Hok1 & Hg & HD1 & _).
      assert (Hb : root_bounds qt1 = root_bounds qt)
        by (apply grows_root_bounds; exact Hg).
      assert (Hsize1 : size qt1 = size qt + 1).
      { subst qt1. simpl. apply GoInt.add_no_overflow.
        unfold GoInt.in_range, GoInt.min_int, GoInt.max_int in *. lia. }
      clearbody qt1.
      destruct (IH qt1 Hok1) as (qt' & errs & -> & Hsize & ->).
      * unfold fuel_of in *. rewrite HD1. exact Hfuel.
      * lia.
      * rewrite Hb, Hsize1. lia.
      * cbn [bind fst snd]. rewrite Hb in *. eexists _, _.
        split; [reflexivity|]. split; [|reflexivity].
        rewrite Hsize, Hsize1. cbn [List.length]. lia.
    + rewrite (Add_rejects fuel qt d pos); [|apply (wf_not_nil _ _ _ _ (proj2 (proj2 Hok)))|exact Ec].
      cbn [bind fst snd].
      destruct (IH qt Hok Hfuel Hsz Hmax) as (qt' & errs & -> & Hsize & ->).
      cbn [bind fst snd]. eauto.
Qed.

End Structure.

(** ** Containment, overlap and the traversal of a query *)

Section Queries.

Context {C : Type} `{Coord C} {T : Type}.

Local Abbreviation Point := (@Point C).
Local Abbreviation Rect := (@Rect C).
Local Abbreviation node := (@node C T).
Local Abbreviation treeEntry := (@treeEntry C T).
Local Abbreviation Quadtree := (@Quadtree C T).

Lemma Contains_iff (r : Rect) (p : Point) :
  Contains r p = true <->
  (cle (Rect_X r) (Point_X p) = true /\
   clt (Point_X p) (cadd (Rect_X r) (Width r)) = true) /\
  (cle (Rect_Y r) (Point_Y p) = true /\
   clt (Point_Y p) (cadd (Rect_Y r) (Height r)) = true).
Proof.
  unfold Contains, cge. rewrite !andb_true_iff. tauto.
Qed.

Lemma overlaps_iff (r1 r2 : Rect) :
  overlaps r1 r2 = true <->
  (clt (Rect_X r1) (cadd (Rect_X r2) (Width r2)) = true /\
   clt (Rect_X r2) (cadd (Rect_X r1) (Width r1)) = true) /\
  (clt (Rect_Y r1) (cadd (Rect_Y r2) (Height r2)) = true /\
   clt (Rect_Y r2) (cadd (Rect_Y r1) (Height r1)) = true).
Proof.
  unfold overlaps, cgt. rewrite !andb_true_iff. tauto.
Qed.

Lemma fold_left_filter {A S : Type} (f : A -> bool) (g : S -> A -> S)
  (l : list A) (s : S) :
  fold_left (fun acc e => if f e then g acc e else acc) l s =
  fold_left g (filter f l) s.
Proof.
  revert s. induction l as [|e l IH]; simpl; intros s; [reflexivity|].
  destruct (f e); simpl; apply IH.
Qed.

(** On a well-formed tree [queryInternal] returns, having handed exactly
    the entries of [visited] to its consumer, whatever the consumer
    answered. *)
Lemma queryInternal_visited {S : Type} (D M : Z) (q : Rect)
  (consume : consumer S) (n : node) :
  forall (d : Z) (s : S),
    wf D M d n ->
    queryInternal n q consume s =
      Ret (fold_left (fun acc e => snd (consume e acc)) (visited n q) s).
Proof.
  induction n as [|b d0 its cul IHul cur IHur cll IHll clr IHlr];
    intros d s Hwf; [destruct Hwf|].
  cbn [queryInternal visited]. destruct (overlaps b q); [|reflexivity].
  destruct its as [l|].
  - rewrite fold_left_filter. reflexivity.
  - destruct Hwf as (_ & _ & _ & Hul & Hur & Hll & Hlr).
    rewrite (IHul _ _ Hul). cbn [bind].
    rewrite (IHur _ _ Hur). cbn [bind].
    rewrite (IHll _ _ Hll). cbn [bind].
    rewrite (IHlr _ _ Hlr).
    rewrite !fold_left_app. reflexivity.
Qed.

(** The traversal does not read what the consumer answers: a consumer
    and the consumer that does the same and always answers true are
    traversed alike. *)
Lemma queryInternal_ignores_answer {S : Type} (q : Rect)
  (consume : consumer S) (n : node) :
  forall s : S,
    queryInternal n q consume s =
    queryInternal n q (fun e acc => (true, snd (consume e acc))) s.
Proof.
  induction n as [|b d0 its cul IHul cur IHur cll IHll clr IHlr];
    intros s; [reflexivity|].
  cbn [queryInternal]. destruct (overlaps b q); [|reflexivity].
  destruct its as [l|]; [reflexivity|].
  rewrite IHul. destruct (queryInternal cul q _ s) as [s1| |]; simpl; auto.
  rewrite IHur. destruct (queryInternal cur q _ s1) as [s2| |]; simpl; auto.
  rewrite IHll. destruct (queryInternal cll q _ s2) as [s3| |]; simpl; auto.
Qed.

Lemma fold_left_snoc_data (l : list treeEntry) (acc : list T) :
  fold_left (fun acc e => snd (true, acc ++ [data e])) l acc =
  acc ++ map data l.
Proof.
  revert acc. induction l as [|e l IH]; simpl; intros acc.
  - rewrite app_nil_r. reflexivity.
  - rewrite IH, <- app_assoc. reflexivity.
Qed.

Lemma Query_visited (qt : Quadtree) (q : Rect) :
  tree_ok qt -> Query qt q = Ret (map data (visited (root qt) q)).
Proof.
  intros (_ & _ & Hwf). unfold Query.
  rewrite (queryInternal_visited _ _ q _ (root qt) 0 [] Hwf).
  rewrite fold_left_snoc_data. reflexivity.
Qed.

Lemma visited_none (q : Rect) (n : node) :
  (forall p : Point, Contains q p = false) -> visited n q = [].
Proof.
  intros Hq.
  induction n as [|b d0 its cul IHul cur IHur cll IHll clr IHlr];
    [reflexivity|].
  cbn [visited]. destruct (overlaps b q); [|reflexivity].
  destruct its as [l|].
  - induction l as [|e l IHl]; simpl; [reflexivity|].
    rewrite Hq. exact IHl.
  - rewrite IHul, IHur, IHll, IHlr. reflexivity.
Qed.

Section Order.

Context `{!OrderLaws C}.

Lemma Contains_zero_size (r : Rect) (p : Point) :
  is_zero (Width r) = true \/ is_zero (Height r) = true ->
  Contains r p = false.
Proof.
  intros Hz. apply not_true_iff_false. rewrite Contains_iff.
  intros [[Hx1 Hx2] [Hy1 Hy2]].
  unfold is_zero in Hz. rewrite !andb_true_iff in Hz.
  destruct Hz as [[Hz1 Hz2] | [Hz1 Hz2]].
  - rewrite (cadd_zero_r _ _ _ Hz1 Hz2) in Hx2.
    exact (clt_cle_false _ _ Hx2 Hx1).
  - rewrite (cadd_zero_r _ _ _ Hz1 Hz2) in Hy2.
    exact (clt_cle_false _ _ Hy2 Hy1).
Qed.

Lemma overlaps_apart (r1 r2 : Rect) :
  cle (cadd (Rect_X r1) (Width r1)) (Rect_X r2) = true \/
  cle (cadd (Rect_X r2) (Width r2)) (Rect_X r1) = true \/
  cle (cadd (Rect_Y r1) (Height r1)) (Rect_Y r2) = true \/
  cle (cadd (Rect_Y r2) (Height r2)) (Rect_Y r1) = true ->
  overlaps r1 r2 = false.
Proof.
  intros Ht. apply not_true_iff_false. rewrite overlaps_iff.
  intros [[Hx1 Hx2] [Hy1 Hy2]].
  destruct Ht as [Ht | [Ht | [Ht | Ht]]].
  - exact (clt_cle_false _ _ Hx2 Ht).
  - exact (clt_cle_false _ _ Hx1 Ht).
  - exact (clt_cle_false _ _ Hy2 Ht).
  - exact (clt_cle_false _ _ Hy1 Ht).
Qed.

End Order.

End Queries.

(** ** Leaves and internal nodes *)

Section LeafOrInternal.

Context {C : Type} `{Coord C} {T : Type}.

Local Abbreviation node := (@node C T).
Local Abbreviation Quadtree := (@Quadtree C T).

Lemma wf_is_nilNode (D M d : Z) (n : node) : wf D M d n -> is_nilNode n = false.
Proof. destruct n; simpl; [tauto | reflexivity]. Qed.

Lemma wf_leaf_xor_internal (D M : Z) (n : node) :
  forall d : Z,
    wf D M d n ->
    Forall (fun m => xorb (is_leaf m) (is_internal m) = true) (subnodes n).
Proof.
  induction n as [|b d0 its cul IHul cur IHur cll IHll clr IHlr];
    intros d Hwf; [destruct Hwf|].
  cbn [subnodes]. destruct its as [l|].
  - destruct Hwf as (_ & _ & -> & -> & -> & -> & _). simpl.
    constructor; [reflexivity | constructor].
  - destruct Hwf as (_ & _ & _ & Hul & Hur & Hll & Hlr).
    constructor.
    + simpl. rewrite (wf_is_nilNode _ _ _ _ Hul), (wf_is_nilNode _ _ _ _ Hur),
        (wf_is_nilNode _ _ _ _ Hll), (wf_is_nilNode _ _ _ _ Hlr). reflexivity.
    + rewrite !Forall_app.
      exact (conj (IHul _ Hul) (conj (IHur _ Hur)
                                     (conj (IHll _ Hll) (IHlr _ Hlr)))).
Qed.

Lemma descend_nilNode (path : list quadrant) :
  descend path (@nilNode C T) = nilNode.
Proof. induction path as [|q path IH]; simpl; auto. Qed.

Lemma grows_not_nil (n n' : node) :
  grows n n' -> is_nilNode n = false -> is_nilNode n' = false.
Proof. destruct n, n'; simpl; auto; tauto. Qed.

(** A node that is internal stays internal when the tree grows. *)
Lemma grows_descend (D M : Z) (path : list quadrant) :
  forall (d : Z) (n n' : node),
    wf D M d n -> grows n n' ->
    is_internal (descend path n) = true ->
    is_internal (descend path n') = true.
Proof.
  induction path as [|q path IH]; intros d n n' Hwf Hg Hint.
  - simpl in *. destruct n as [|b d0 its cul cur cll clr]; [discriminate|].
    destruct n' as [|b' d' its' cul' cur' cll' clr']; [destruct Hg|].
    destruct its as [l|]; [discriminate|].
    destruct Hg as (_ & _ & -> & Gul & Gur & Gll & Glr).
    destruct Hwf as (_ & _ & _ & Hul & Hur & Hll & Hlr).
    simpl.
    rewrite (grows_not_nil _ _ Gul (wf_is_nilNode _ _ _ _ Hul)),
      (grows_not_nil _ _ Gur (wf_is_nilNode _ _ _ _ Hur)),
      (grows_not_nil _ _ Gll (wf_is_nilNode _ _ _ _ Hll)),
      (grows_not_nil _ _ Glr (wf_is_nilNode _ _ _ _ Hlr)). reflexivity.
  - cbn [descend] in *.
    destruct n as [|b d0 its cul cur cll clr]; [destruct Hwf|].
    destruct n' as [|b' d' its' cul' cur' cll' clr']; [destruct Hg|].
    destruct its as [l|].
    + destruct Hwf as (_ & _ & -> & -> & -> & -> & _).
      destruct q; simpl in Hint; rewrite descend_nilNode in Hint;
        discriminate.
    + destruct Hg as (_ & _ & -> & Gul & Gur & Gll & Glr).
      destruct Hwf as (_ & _ & _ & Hul & Hur & Hll & Hlr).
      destruct q; simpl in *.
      * rewrite descend_nilNode in Hint. discriminate.
      * exact (IH _ _ _ Hul Gul Hint).
      * exact (IH _ _ _ Hur Gur Hint).
      * exact (IH _ _ _ Hll Gll Hint).
      * exact (IH _ _ _ Hlr Glr Hint).
Qed.

End LeafOrInternal.

(** ** Where insertion puts the entries *)

Section Placement.

Context {C : Type} `{Coord C} {T : Type}.

Local Abbreviation Point := (@Point C).
Local Abbreviation Rect := (@Rect C).
Local Abbreviation node := (@node C T).
Local Abbreviation treeEntry := (@treeEntry C T).
Local Abbreviation Quadtree := (@Quadtree C T).

Lemma whichQuadrant_Contains (r : Rect) (p : Point) :
  is_quadrantNone (whichQuadrant r p) = negb (Contains r p).
Proof.
  unfold whichQuadrant. destruct (Contains r p); simpl; [|reflexivity].
  destruct (clt _ _), (clt _ _); reflexivity.
Qed.

Lemma fold_bind_invariant_on {A B : Type} (step : A -> B -> outcome A)
  (P : A -> Prop) (Q : B -> Prop) :
  (forall a i a', P a -> Q i -> step a i = Ret a' -> P a') ->
  forall (l : list B) (a a' : A),
    Forall Q l -> P a ->
    fold_left (fun acc i => m <- acc ;; step m i) l (Ret a) = Ret a' ->
    P a'.
Proof.
  intros Hstep. induction l as [|i l IH]; simpl; intros a a' HQ Pa E.
  - congruence.
  - inversion HQ as [|? ? Qi Ql]; subst.
    destruct (step a i) as [a1| |] eqn:E1.
    + eapply IH; [exact Ql| |exact E]. eapply Hstep; eauto.
    + apply fold_bind_Ret in E. destruct E; discriminate.
    + apply fold_bind_Ret in E. destruct E; discriminate.
Qed.

Lemma fold_bind_perm {A B : Type} (step : A -> B -> outcome A)
  (P : A -> Prop) (Q : B -> Prop) (ent : A -> list B) :
  (forall a i a', P a -> Q i -> step a i = Ret a' ->
     P a' /\ Permutation (ent a') (i :: ent a)) ->
  forall (l : list B) (a a' : A),
    Forall Q l -> P a ->
    fold_left (fun acc i => m <- acc ;; step m i) l (Ret a) = Ret a' ->
    P a' /\ Permutation (ent a') (l ++ ent a).
Proof.
  intros Hstep. induction l as [|i l IH]; simpl; intros a a' HQ Pa E.
  - inversion E; subst. auto.
  - inversion HQ as [|? ? Qi Ql]; subst.
    destruct (step a i) as [a1| |] eqn:E1.
    + destruct (Hstep a i a1 Pa Qi E1) as [P1 Hp1].
      destruct (IH a1 a' Ql P1 E) as [P' Hp'].
      split; [exact P'|].
      rewrite Hp', Hp1. symmetry. apply Permutation_middle.
    + apply fold_bind_Ret in E. destruct E; discriminate.
    + apply fold_bind_Ret in E. destruct E; discriminate.
Qed.

Lemma grows_bounds_of (n n' : node) : grows n n' -> bounds_of n' = bounds_of n.
Proof.
  destruct n, n'; simpl; try tauto. intros (-> & _). reflexivity.
Qed.

Lemma wf_leaf_entries (D M d : Z) (b : Rect) (d0 : Z) (l : list treeEntry)
  (cul cur cll clr : node) :
  wf D M d (mkNode b d0 (Some l) cul cur cll clr) ->
  entries (mkNode b d0 (Some l) cul cur cll clr) = l.
Proof.
  intros (_ & _ & -> & -> & -> & -> & _). simpl. apply app_nil_r.
Qed.

Lemma entries_set_child (q : quadrant) (b : Rect) (d : Z)
  (cul cur cll clr c : node) (extra : list treeEntry) :
  let n := mkNode b d None cul cur cll clr in
  is_quadrantNone q = false ->
  Permutation (entries c) (extra ++ entries (child q n)) ->
  Permutation (entries (set_child q n c)) (extra ++ entries n).
Proof.
  intros n Hq Hp. subst n.
  destruct q; [discriminate| | | |]; simpl in *; rewrite Hp; clear Hp;
    rewrite <- ?app_assoc.
  - reflexivity.
  - apply Permutation_app_swap_app.
  - rewrite (Permutation_app_swap_app (entries cur) extra).
    apply Permutation_app_swap_app.
  - rewrite (Permutation_app_swap_app (entries cll) extra).
    rewrite (Permutation_app_swap_app (entries cur) extra).
    apply Permutation_app_swap_app.
Qed.

Lemma entries_set_child_incl (q : quadrant) (b : Rect) (d : Z)
  (cul cur cll clr c : node) (item : treeEntry) :
  let n := mkNode b d None cul cur cll clr in
  incl (entries c) (item :: entries (child q n)) ->
  incl (entries (set_child q n c)) (item :: entries n).
Proof.
  intros n Hi e He. subst n.
  destruct q; simpl in *; auto;
    repeat (rewrite in_app_iff in He);
    repeat (rewrite in_app_iff);
    repeat match goal with
           | H : _ \/ _ |- _ => destruct H
           end;
    try tauto;
    match goal with
    | H : In e (entries c) |- _ =>
        apply Hi in H; simpl in H; rewrite ?in_app_iff in H; tauto
    end.
Qed.

Lemma placed_bounds (n : node) :
  placed n -> Forall (fun e => Contains (bounds_of n) (position e) = true)
                     (entries n).
Proof. destruct n; simpl; [constructor | tauto]. Qed.

Lemma child_placed (q : quadrant) (b : Rect) (d : Z) (cul cur cll clr : node) :
  let n := mkNode b d None cul cur cll clr in
  placed n ->
  placed (child q n) /\
  (is_quadrantNone q = false -> bounds_of (child q n) = quadrant_bounds q b).
Proof.
  intros n (_ & Hb & Hul & Hur & Hll & Hlr). subst n.
  unfold quadrant_bounds. rewrite <- Hb.
  destruct q; simpl; auto. split; [exact I | discriminate].
Qed.

Lemma set_child_placed (q : quadrant) (b : Rect) (d : Z)
  (cul cur cll clr c : node) (item : treeEntry) :
  let n := mkNode b d None cul cur cll clr in
  placed n -> placed c -> bounds_of c = bounds_of (child q n) ->
  Contains b (position item) = true ->
  incl (entries c) (item :: entries (child q n)) ->
  placed (set_child q n c).
Proof.
  intros n Hn Hc Hb Hitem Hi.
  pose proof (entries_set_child_incl q b d cul cur cll clr c item Hi) as Hincl.
  fold n in Hincl.
  assert (Hall : Forall (fun e => Contains b (position e) = true)
                        (entries (set_child q n c))).
  { apply Forall_forall. intros e He. apply Hincl in He.
    destruct He as [<- | He]; [exact Hitem|].
    pose proof (proj1 Hn) as Hf. rewrite Forall_forall in Hf. auto. }
  subst n. destruct Hn as (_ & Hq & Hul & Hur & Hll & Hlr).
  destruct q; simpl in *; (split; [exact Hall|]); auto;
    rewrite Hb; auto.
Qed.

Section AddInternalPlaced.

Variable qt : Quadtree.
Hypothesis depth_range : GoInt.in_range (maxDepth qt).
Hypothesis capacity_pos : 1 <= maxItemsPerNode qt.

Let D := maxDepth qt.
Let M := maxItemsPerNode qt.

Lemma split_node_placed (b : Rect) (d : Z) (its : option (list treeEntry))
  (cul cur cll clr : node) :
  placed (split_node (mkNode b d its cul cur cll clr)) /\
  entries (split_node (mkNode b d its cul cur cll clr)) = [].
Proof.
  unfold split_node.
  destruct (quadrants b) as [[[qul qur] qll] qlr] eqn:Eq.
  simpl. rewrite Eq. repeat split; auto.
Qed.

(** Insertion keeps every entry inside the bounds of the nodes above it,
    and stores nothing but the new entry. *)
Lemma addInternal_placed (fuel : nat) :
  forall (n : node) (item : treeEntry) (d : Z) (n' : node),
    wf D M d n -> placed n ->
    addInternal fuel qt n item = Ret n' ->
    placed n' /\ incl (entries n') (item :: entries n).
Proof.
  induction fuel as [|fuel IH]; intros n item d n' Hwf Hpl Hadd.
  - discriminate.
  - destruct n as [|b d0 its cul cur cll clr]; [destruct Hwf|].
    rewrite addInternal_eq in Hadd. cbv zeta in Hadd.
    fold D M in Hadd.
    assert (d0 = d) by (destruct Hwf; assumption). subst d0.
    rewrite whichQuadrant_Contains in Hadd.
    destruct (Contains b (position item)) eqn:Ec; cbn [negb] in Hadd.
    2:{ inversion Hadd; subst n'. split; [exact Hpl|]. apply incl_tl, incl_refl. }
    assert (Happend :
      forall l, its = Some l ->
        placed (mkNode b d (append its item) cul cur cll clr) /\
        incl (entries (mkNode b d (append its item) cul cur cll clr))
             (item :: entries (mkNode b d its cul cur cll clr))).
    { intros l ->. pose proof (wf_leaf_entries _ _ _ _ _ _ _ _ _ _ Hwf) as El.
      destruct Hwf as (_ & _ & -> & -> & -> & -> & _).
      simpl in *. rewrite !app_nil_r in *. split.
      - split; [|exact I]. apply Forall_app. split; [tauto|].
        constructor; [exact Ec | constructor].
      - intros e He. apply in_app_iff in He. simpl in *. tauto. }
    destruct its as [l|]; cbn [is_nil negb andb len range] in Hadd.
    + destruct (d >=? D) eqn:Emax.
      { inversion Hadd; subst n'. exact (Happend l eq_refl). }
      destruct (Z.of_nat (List.length l) >=? M) eqn:Efull.
      2:{ inversion Hadd; subst n'. exact (Happend l eq_refl). }
      clear Happend.
      pose proof (wf_leaf_entries _ _ _ _ _ _ _ _ _ _ Hwf) as El.
      pose proof Hwf as (_ & Hd0 & -> & -> & -> & -> & HdD & Hcap).
      apply bind_Ret in Hadd. destruct Hadd as (n0 & Hloop & Hlast).
      set (n := mkNode b d (Some l) nilNode nilNode nilNode nilNode) in *.
      assert (Hn0 : (wf D M d n0 /\ grows (split_node n) n0) /\
                    placed n0 /\ incl (entries n0) l).
      { revert Hloop.
        apply (fold_bind_invariant_on
                 (fun m i => addInternal fuel qt m i)
                 (fun m => (wf D M d m /\ grows (split_node n) m) /\
                           placed m /\ incl (entries m) l)
                 (fun i => In i l)).
        - intros a i a' ([Ha Hga] & Hpa & Hia) Hi Ea.
          destruct (addInternal_wf qt depth_range capacity_pos _ _ _ _ _ Ha Ea)
            as [Ha' Hga'].
          destruct (IH _ _ _ _ Ha Hpa Ea) as [Hpa' Hia'].
          split; [split; [exact Ha' | eapply grows_trans; eauto]|].
          split; [exact Hpa'|].
          intros e He. apply Hia' in He. destruct He as [<- | He]; auto.
        - apply Forall_forall. auto.
        - split; [split; [apply (split_node_wf qt depth_range capacity_pos);
                          fold D; lia
                         | apply grows_refl]|].
          destruct (split_node_placed b d (Some l) nilNode nilNode nilNode
                      nilNode) as [Hp He].
          split; [exact Hp|]. fold n in He. rewrite He. apply incl_nil_l. }
      destruct Hn0 as ([Hw0 _] & Hp0 & Hi0).
      destruct (IH _ _ _ _ Hw0 Hp0 Hlast) as [Hp' Hi'].
      split; [exact Hp'|].
      intros e He. apply Hi' in He. rewrite El.
      destruct He as [<- | He]; [left; reflexivity | right; auto].
    + destruct (0 >=? M) eqn:Efull; [subst M; lia|].
      apply bind_Ret in Hadd. destruct Hadd as (c & Hc & Hret).
      inversion Hret; subst n'; clear Hret.
      assert (Eq : is_quadrantNone (whichQuadrant b (position item)) = false)
        by (rewrite whichQuadrant_Contains, Ec; reflexivity).
      pose proof (child_wf qt _ b d cul cur cll clr Eq Hwf) as Hcw.
      destruct (child_placed (whichQuadrant b (position item)) b d
                  cul cur cll clr Hpl) as [Hcp _].
      destruct (IH _ _ _ _ Hcw Hcp Hc) as [Hcp' Hci'].
      destruct (addInternal_wf qt depth_range capacity_pos _ _ _ _ _ Hcw Hc)
        as [_ Hcg].
      split.
      * apply (set_child_placed _ b d cul cur cll clr c item); auto.
        apply grows_bounds_of. exact Hcg.
      * apply entries_set_child_incl. exact Hci'.
Qed.

End AddInternalPlaced.

Lemma step_placed (fuel : nat) (qt qt' : Quadtree) (o : op) :
  tree_ok qt -> placed (root qt) ->
  step fuel qt o = Ret qt' -> placed (root qt').
Proof.
  intros (HD & HM & Hwf) Hpl E. destruct o as [d pos|bounds|]; simpl in E.
  - apply bind_Ret in E. destruct E as ([qt1 err] & Ea & E).
    inversion E; subst qt'; clear E. simpl.
    apply Add_inv in Ea.
    destruct Ea as [(_ & -> & _) | (_ & _ & r & Er & ->)]; [exact Hpl|].
    simpl. exact (proj1 (addInternal_placed qt HD HM _ _ _ _ _ Hwf Hpl Er)).
  - apply bind_Ret in E. destruct E as (? & _ & E).
    inversion E; subst qt'. exact Hpl.
  - inversion E; subst qt'. exact Hpl.
Qed.

(** In a tree of the API every entry is stored below nodes whose bounds
    contain its position. *)
Lemma reachable_placed (qt : Quadtree) : reachable qt -> placed (root qt).
Proof.
  induction 1 as [bounds D M qt HD E | fuel qt o qt' Hr IH E].
  - apply NewQuadtree_inv in E. destruct E as (_ & _ & _ & ->).
    simpl. split; [constructor | exact I].
  - exact (step_placed fuel qt qt' o (reachable_ok qt Hr) IH E).
Qed.

Section PlacementOrder.

Context `{!OrderLaws C}.

Lemma Contains_overlaps (r1 r2 : Rect) (p : Point) :
  Contains r1 p = true -> Contains r2 p = true -> overlaps r1 r2 = true.
Proof.
  rewrite !Contains_iff, overlaps_iff.
  intros [[Hx1 Hx2] [Hy1 Hy2]] [[Kx1 Kx2] [Ky1 Ky2]].
  repeat split; eapply cle_clt_trans; eassumption.
Qed.

Lemma filter_none {A : Type} (f : A -> bool) (l : list A) :
  Forall (fun x => f x = false) l -> filter f l = [].
Proof.
  induction 1 as [|x l Hx _ IH]; simpl; [reflexivity|].
  rewrite Hx. exact IH.
Qed.

(** The traversal prunes no entry that qualifies: what [queryInternal]
    visits are the stored entries whose position the query contains. *)
Lemma visited_filter (D M : Z) (q : Rect) (n : node) :
  forall d : Z,
    wf D M d n -> placed n ->
    visited n q = filter (fun e => Contains q (position e)) (entries n).
Proof.
  induction n as [|b d0 its cul IHul cur IHur cll IHll clr IHlr];
    intros d Hwf Hpl; [reflexivity|].
  cbn [visited]. destruct (overlaps b q) eqn:Eo.
  - destruct its as [l|].
    + rewrite (wf_leaf_entries _ _ _ _ _ _ _ _ _ _ Hwf). reflexivity.
    + destruct Hwf as (_ & _ & _ & Hul & Hur & Hll & Hlr).
      destruct Hpl as (_ & _ & Pul & Pur & Pll & Plr).
      simpl. rewrite !filter_app.
      rewrite (IHul _ Hul Pul), (IHur _ Hur Pur),
        (IHll _ Hll Pll), (IHlr _ Hlr Plr). reflexivity.
  - symmetry. apply filter_none.
    destruct Hpl as [Hall _].
    eapply Forall_impl; [|exact Hall]. cbv beta. intros e He.
    destruct (Contains q (position e)) eqn:Eq; [|reflexivity].
    rewrite (Contains_overlaps b q _ He Eq) in Eo. discriminate.
Qed.

Lemma filter_all {A : Type} (f : A -> bool) (l : list A) :
  Forall (fun x => f x = true) l -> filter f l = l.
Proof.
  induction 1 as [|x l Hx _ IH]; simpl; [reflexivity|].
  rewrite Hx, IH. reflexivity.
Qed.

(** A query with a rectangle that contains every point of the root's
    bounds returns the payloads of all stored entries. *)
Lemma Query_enclosing (qt : Quadtree) (q : Rect) :
  reachable qt ->
  within (root_bounds qt) q ->
  Query qt q = Ret (map data (entries (root qt))).
Proof.
  intros Hr Hq. pose proof (reachable_ok qt Hr) as Hok.
  pose proof (reachable_placed qt Hr) as Hpl.
  rewrite (Query_visited qt q Hok).
  destruct Hok as (_ & _ & Hwf).
  rewrite (visited_filter _ _ q _ 0 Hwf Hpl).
  rewrite filter_all; [reflexivity|].
  apply placed_bounds in Hpl.
  eapply Forall_impl; [|exact Hpl]. cbv beta. intros e He.
  apply Hq. unfold root_bounds.
  destruct (root qt); [destruct Hwf | exact He].
Qed.

End PlacementOrder.

Section PlacementExact.

Context `{!ExactLaws C}.

Ltac contains_false :=
  apply not_true_iff_false; rewrite Contains_iff; simpl;
  intros [[? ?] [? ?]];
  first [ congruence
        | match goal with
          | H1 : clt ?a ?b = true, H2 : cle ?b ?a = true |- _ =>
              exact (False_ind _ (clt_cle_false a b H1 H2))
          end ].

(** Without rounding, a point of a rectangle is in the quadrant that
    [whichQuadrant] names and in no other. *)
Lemma quadrant_partition (r : Rect) (p : Point) :
  Contains r p = true ->
  is_quadrantNone (whichQuadrant r p) = false /\
  Contains (quadrant_bounds (whichQuadrant r p) r) p = true /\
  (forall q, is_quadrantNone q = false -> q <> whichQuadrant r p ->
     Contains (quadrant_bounds q r) p = false).
Proof.
  intros Hc. split; [rewrite whichQuadrant_Contains, Hc; reflexivity|].
  unfold whichQuadrant, quadrant_bounds, quadrants. rewrite Hc. cbn [negb].
  apply Contains_iff in Hc. destruct Hc as [[Hx1 Hx2] [Hy1 Hy2]].
  destruct (clt (Point_X p) (cadd (Rect_X r) (chalf (Width r)))) eqn:Ex;
    destruct (clt (Point_Y p) (cadd (Rect_Y r) (chalf (Height r)))) eqn:Ey.
  all: try (apply cle_total in Ex as Ex').
  all: try (apply cle_total in Ey as Ey').
  all: split;
    [ apply Contains_iff; simpl; rewrite ?chalf_twice; auto
    | intros q Hq Hne; destruct q; try discriminate; try congruence;
      contains_false ].
Qed.

(** Without rounding, a quadrant lies within its rectangle. *)
Lemma quadrant_within (q : quadrant) (r : Rect) :
  within (quadrant_bounds q r) r.
Proof.
  intros p. unfold quadrant_bounds, quadrants.
  destruct q; simpl; auto; rewrite !Contains_iff; simpl;
    intros [[Hx1 Hx2] [Hy1 Hy2]]; rewrite ?chalf_twice in *;
    repeat split;
    eauto using lower_half_within, upper_half_within.
Qed.

Section AddInternalExact.

Variable qt : Quadtree.
Hypothesis depth_range : GoInt.in_range (maxDepth qt).
Hypothesis capacity_pos : 1 <= maxItemsPerNode qt.

Let D := maxDepth qt.
Let M := maxItemsPerNode qt.

(** Without rounding, insertion at a position inside the bounds of a node
    stores the new entry below it and keeps the entries that were there. *)
Lemma addInternal_perm (fuel : nat) :
  forall (n : node) (item : treeEntry) (d : Z) (n' : node),
    wf D M d n -> placed n ->
    Contains (bounds_of n) (position item) = true ->
    addInternal fuel qt n item = Ret n' ->
    Permutation (entries n') (item :: entries n).
Proof.
  induction fuel as [|fuel IH]; intros n item d n' Hwf Hpl Hin Hadd.
  - discriminate.
  - destruct n as [|b d0 its cul cur cll clr]; [destruct Hwf|].
    rewrite addInternal_eq in Hadd. cbv zeta in Hadd.
    fold D M in Hadd. cbn [bounds_of] in Hin.
    assert (d0 = d) by (destruct Hwf; assumption). subst d0.
    assert (Eq : is_quadrantNone (whichQuadrant b (position item)) = false)
      by (rewrite whichQuadrant_Contains, Hin; reflexivity).
    rewrite Eq in Hadd.
    destruct its as [l|]; cbn [is_nil negb andb len range] in Hadd.
    + pose proof (wf_leaf_entries _ _ _ _ _ _ _ _ _ _ Hwf) as El.
      pose proof Hwf as (_ & Hd0 & -> & -> & -> & -> & HdD & Hcap).
      assert (Happend :
        Permutation
          (entries (mkNode b d (append (Some l) item)
                           nilNode nilNode nilNode nilNode))
          (item :: entries (mkNode b d (Some l)
                                   nilNode nilNode nilNode nilNode))).
      { simpl. rewrite !app_nil_r. symmetry. apply Permutation_cons_append. }
      destruct (d >=? D) eqn:Emax.
      { inversion Hadd; subst n'. exact Happend. }
      destruct (Z.of_nat (List.length l) >=? M) eqn:Efull.
      2:{ inversion Hadd; subst n'. exact Happend. }
      clear Happend.
      apply bind_Ret in Hadd. destruct Hadd as (n0 & Hloop & Hlast).
      set (n := mkNode b d (Some l) nilNode nilNode nilNode nilNode) in *.
      destruct (split_node_placed b d (Some l) nilNode nilNode nilNode nilNode)
        as [Hsp Hse].
      fold n in Hsp, Hse.
      assert (Hsb : bounds_of (split_node n) = b).
      { subst n. unfold split_node. destruct (quadrants b) as [[[? ?] ?] ?].
        reflexivity. }
      assert (Hn0 : (wf D M d n0 /\ grows (split_node n) n0 /\ placed n0) /\
                    Permutation (entries n0) (l ++ entries (split_node n))).
      { revert Hloop.
        apply (fold_bind_perm
                 (fun m i => addInternal fuel qt m i)
                 (fun m => wf D M d m /\ grows (split_node n) m /\ placed m)
                 (fun i => Contains b (position i) = true)
                 entries).
        - intros a i a' (Ha & Hga & Hpa) Hi Ea.
          destruct (addInternal_wf qt depth_range capacity_pos _ _ _ _ _ Ha Ea)
            as [Ha' Hga'].
          destruct (addInternal_placed qt depth_range capacity_pos
                      _ _ _ _ _ Ha Hpa Ea) as [Hpa' _].
          split; [split; [exact Ha' | split; [eapply grows_trans; eauto
                                              | exact Hpa']]|].
          apply (IH a i d a' Ha Hpa); [|exact Ea].
          rewrite (grows_bounds_of _ _ Hga), Hsb. exact Hi.
        - rewrite <- El. exact (proj1 Hpl).
        - split; [apply (split_node_wf qt depth_range capacity_pos);
                  fold D; lia|].
          split; [apply grows_refl | exact Hsp]. }
      destruct Hn0 as ((Hw0 & Hg0 & Hp0) & Hperm0).
      rewrite Hse, app_nil_r in Hperm0.
      rewrite El, <- Hperm0.
      apply (IH n0 item d n' Hw0 Hp0); [|exact Hlast].
      rewrite (grows_bounds_of _ _ Hg0), Hsb. exact Hin.
    + destruct (0 >=? M) eqn:Efull; [subst M; lia|].
      apply bind_Ret in Hadd. destruct Hadd as (c & Hc & Hret).
      inversion Hret; subst n'; clear Hret.
      pose proof (child_wf qt _ b d cul cur cll clr Eq Hwf) as Hcw.
      destruct (child_placed (whichQuadrant b (position item)) b d
                  cul cur cll clr Hpl) as [Hcp Hcb].
      apply (entries_set_child _ b d cul cur cll clr c [item] Eq).
      apply (IH _ _ _ _ Hcw Hcp); [|exact Hc].
      rewrite (Hcb Eq).
      exact (proj1 (proj2 (quadrant_partition b (position item) Hin))).
Qed.

End AddInternalExact.

Lemma add_all_perm (fuel : nat) (calls : list (T * Point)) :
  forall qt : Quadtree,
    tree_ok qt -> placed (root qt) ->
    (fuel_of qt <= fuel)%nat ->
    Forall (fun c => Contains (root_bounds qt) (snd c) = true) calls ->
    exists qt' errs,
      add_all fuel qt calls = Ret (qt', errs) /\
      errs = map (fun _ => None) calls /\
      Permutation (entries (root qt'))
                  (map entry_of calls ++ entries (root qt)).
Proof.
  induction calls as [|[d pos] calls IH]; intros qt Hok Hpl Hfuel Hall.
  - exists qt, []. simpl. auto.
  - inversion Hall as [|? ? Hc Hrest]; subst. cbn [snd] in Hc.
    cbn [add_all].
    destruct (Add_accepts fuel qt d pos Hok Hfuel Hc) as (r & Er & Ea).
    rewrite Ea. cbn [bind fst snd].
    set (qt1 := mkQuadtree _ _ r _ _) in *.
    destruct (Add_ok fuel qt qt1 d pos None Hok Ea) as (Hok1 & Hg & HD1 & _).
    assert (Hb : root_bounds qt1 = root_bounds qt)
      by (apply grows_root_bounds; exact Hg).
    pose proof Hok as (HD & HM & Hwf).
    assert (Hpl1 : placed (root qt1)).
    { exact (proj1 (addInternal_placed qt HD HM _ _ _ _ _ Hwf Hpl Er)). }
    assert (Hperm1 : Permutation (entries (root qt1))
                       (mkEntry pos d :: entries (root qt))).
    { apply (addInternal_perm qt HD HM fuel (root qt) _ 0 r Hwf Hpl);
        [|exact Er].
      unfold root_bounds in Hc. destruct (root qt); [destruct Hwf|exact Hc]. }
    clearbody qt1.
    destruct (IH qt1 Hok1 Hpl1) as (qt' & errs & -> & -> & Hperm).
    + unfold fuel_of in *. rewrite HD1. exact Hfuel.
    + rewrite Hb. exact Hrest.
    + cbn [bind fst snd]. eexists _, _. split; [reflexivity|].
      split; [reflexivity|].
      rewrite Hperm, Hperm1. cbn [map entry_of fst snd app].
      symmetry. apply Permutation_middle.
Qed.

End PlacementExact.

End Placement.

(** ** Entries at one position *)

Section Saturation.

Context {C : Type} `{Coord C} {T : Type}.

Local Abbreviation Point := (@Point C).
Local Abbreviation Rect := (@Rect C).
Local Abbreviation node := (@node C T).
Local Abbreviation treeEntry := (@treeEntry C T).
Local Abbreviation Quadtree := (@Quadtree C T).

Lemma on_route_entries (D M : Z) (pos : Point) (n : node) :
  forall d : Z,
    wf D M d n -> on_route pos n ->
    entries n = range (items_of (route pos n)).
Proof.
  induction n as [|b d0 its cul IHul cur IHur cll IHll clr IHlr];
    intros d Hwf Hon; [reflexivity|].
  destruct its as [l|].
  - rewrite (wf_leaf_entries _ _ _ _ _ _ _ _ _ _ Hwf). reflexivity.
  - destruct Hwf as (_ & _ & _ & Hul & Hur & Hll & Hlr).
    cbn [on_route route entries range] in *.
    destruct (whichQuadrant b pos).
    + destruct Hon as (-> & -> & -> & ->). reflexivity.
    + destruct Hon as (Hon & -> & -> & ->).
      rewrite (IHul _ Hul Hon), !app_nil_r. reflexivity.
    + destruct Hon as (Hon & -> & -> & ->).
      rewrite (IHur _ Hur Hon), !app_nil_r. reflexivity.
    + destruct Hon as (Hon & -> & -> & ->).
      rewrite (IHll _ Hll Hon), !app_nil_r. reflexivity.
    + destruct Hon as (Hon & -> & -> & ->).
      rewrite (IHlr _ Hlr Hon). reflexivity.
Qed.

Lemma on_route_set_child (pos : Point) (b : Rect) (d : Z)
  (cul cur cll clr c : node) :
  let n := mkNode b d None cul cur cll clr in
  on_route pos n -> on_route pos c ->
  on_route pos (set_child (whichQuadrant b pos) n c).
Proof.
  intros n Hn Hc. subst n. cbn [on_route] in Hn.
  destruct (whichQuadrant b pos) eqn:Eq; cbn [set_child on_route];
    rewrite Eq; tauto.
Qed.

Lemma on_route_child (pos : Point) (b : Rect) (d : Z)
  (cul cur cll clr : node) :
  let n := mkNode b d None cul cur cll clr in
  on_route pos n -> on_route pos (child (whichQuadrant b pos) n).
Proof.
  intros n Hn. subst n. cbn [on_route] in Hn.
  destruct (whichQuadrant b pos); simpl; tauto.
Qed.

Section AddInternalOnRoute.

Variable qt : Quadtree.
Hypothesis depth_range : GoInt.in_range (maxDepth qt).
Hypothesis capacity_pos : 1 <= maxItemsPerNode qt.

Let D := maxDepth qt.
Let M := maxItemsPerNode qt.

Lemma split_node_on_route (pos : Point) (b : Rect) (d : Z)
  (its : option (list treeEntry)) (cul cur cll clr : node) :
  on_route pos (split_node (mkNode b d its cul cur cll clr)).
Proof.
  unfold split_node. destruct (quadrants b) as [[[qul qur] qll] qlr].
  cbn [on_route newNode]. destruct (whichQuadrant b pos); simpl; auto.
Qed.

(** While every entry has the position [pos], insertion keeps the
    entries in the one leaf that [pos] is routed to. *)
Lemma addInternal_on_route (pos : Point) (fuel : nat) :
  forall (n : node) (item : treeEntry) (d : Z) (n' : node),
    wf D M d n -> placed n -> on_route pos n ->
    position item = pos ->
    Forall (fun e => position e = pos) (entries n) ->
    addInternal fuel qt n item = Ret n' ->
    on_route pos n'.
Proof.
  induction fuel as [|fuel IH];
    intros n item d n' Hwf Hpl Hon Hitem Hall Hadd.
  - discriminate.
  - destruct n as [|b d0 its cul cur cll clr]; [destruct Hwf|].
    rewrite addInternal_eq in Hadd. cbv zeta in Hadd.
    fold D M in Hadd.
    assert (d0 = d) by (destruct Hwf; assumption). subst d0.
    destruct (is_quadrantNone (whichQuadrant b (position item))) eqn:Eq.
    { inversion Hadd; subst n'. exact Hon. }
    destruct its as [l|]; cbn [is_nil negb andb len range] in Hadd.
    + destruct (d >=? D) eqn:Emax.
      { inversion Hadd; subst n'. exact I. }
      destruct (Z.of_nat (List.length l) >=? M) eqn:Efull.
      2:{ inversion Hadd; subst n'. exact I. }
      rewrite (wf_leaf_entries _ _ _ _ _ _ _ _ _ _ Hwf) in Hall.
      pose proof Hwf as (_ & Hd0 & -> & -> & -> & -> & HdD & Hcap).
      apply bind_Ret in Hadd. destruct Hadd as (n0 & Hloop & Hlast).
      set (n := mkNode b d (Some l) nilNode nilNode nilNode nilNode) in *.
      assert (Hn0 : (wf D M d n0 /\ placed n0) /\ on_route pos n0 /\
                    Forall (fun e => position e = pos) (entries n0)).
      { revert Hloop.
        apply (fold_bind_invariant_on
                 (fun m i => addInternal fuel qt m i)
                 (fun m => (wf D M d m /\ placed m) /\ on_route pos m /\
                           Forall (fun e => position e = pos) (entries m))
                 (fun i => position i = pos)).
        - intros a i a' ([Ha Hpa] & Hoa & Hfa) Hi Ea.
          destruct (addInternal_placed qt depth_range capacity_pos
                      _ _ _ _ _ Ha Hpa Ea) as [Hpa' Hia'].
          split; [split; [|exact Hpa']|].
          { exact (proj1 (addInternal_wf qt depth_range capacity_pos
                            _ _ _ _ _ Ha Ea)). }
          split; [exact (IH _ _ _ _ Ha Hpa Hoa Hi Hfa Ea)|].
          apply (incl_Forall Hia'). constructor; assumption.
        - exact Hall.
        - destruct (split_node_placed b d (Some l) nilNode nilNode
                      nilNode nilNode) as [Hsp Hse].
          split; [split; [|exact Hsp]|].
          { apply (split_node_wf qt depth_range capacity_pos). fold D. lia. }
          split; [apply split_node_on_route|].
          fold n in Hse. rewrite Hse. constructor. }
      destruct Hn0 as ([Hw0 Hp0] & Ho0 & Hf0).
      exact (IH _ _ _ _ Hw0 Hp0 Ho0 Hitem Hf0 Hlast).
    + destruct (0 >=? M) eqn:Efull; [subst M; lia|].
      apply bind_Ret in Hadd. destruct Hadd as (c & Hc & Hret).
      inversion Hret; subst n'; clear Hret.
      rewrite Hitem in *.
      apply on_route_set_child; [exact Hon|].
      apply (IH _ _ _ _ (child_wf qt _ b d cul cur cll clr Eq Hwf)
                (proj1 (child_placed (whichQuadrant b pos) b d
                          cul cur cll clr Hpl))
                (on_route_child pos b d cul cur cll clr Hon) Hitem);
        [|exact Hc].
      eapply incl_Forall; [|exact Hall].
      destruct (whichQuadrant b pos); simpl; intros e He;
        rewrite ?in_app_iff; auto; destruct He.
Qed.

End AddInternalOnRoute.

Lemma add_all_on_route (pos : Point) (fuel : nat)
  (calls : list (T * Point)) :
  forall (qt qt' : Quadtree) (errs : list (option string)),
    tree_ok qt -> placed (root qt) -> on_route pos (root qt) ->
    Forall (fun e => position e = pos) (entries (root qt)) ->
    Forall (fun c => snd c = pos) calls ->
    add_all fuel qt calls = Ret (qt', errs) ->
    on_route pos (root qt').
Proof.
  induction calls as [|[d p] calls IH];
    intros qt qt' errs Hok Hpl Hon Hall Hcalls E.
  - inversion E; subst. exact Hon.
  - inversion Hcalls as [|? ? Hp Hrest]; subst. cbn [snd] in *.
    cbn [add_all] in E.
    apply bind_Ret in E. destruct E as ([qt1 e1] & Ea & E).
    apply bind_Ret in E. destruct E as ([qt2 e2] & Eb & E).
    inversion E; subst; clear E. cbn [fst snd] in *.
    pose proof (Add_ok fuel qt qt1 d _ e1 Hok Ea) as (Hok1 & _).
    pose proof Hok as (HD & HM & Hwf).
    apply Add_inv in Ea.
    destruct Ea as [(_ & -> & _) | (_ & _ & r & Er & ->)].
    + exact (IH qt qt' e2 Hok Hpl Hon Hall Hrest Eb).
    + destruct (addInternal_placed qt HD HM _ _ _ _ _ Hwf Hpl Er)
        as [Hpl1 Hincl].
      apply (IH _ qt' e2 Hok1); [exact Hpl1| | |exact Hrest|exact Eb].
      * exact (addInternal_on_route qt HD HM p fuel (root qt) (mkEntry p d)
                 0 r Hwf Hpl Hon eq_refl Hall Er).
      * simpl. apply (incl_Forall Hincl). constructor; [reflexivity|exact Hall].
Qed.

Section SaturationExact.

Context `{!ExactLaws C}.

(** Without rounding, a position inside the bounds of a node is routed
    to a leaf below that node. *)
Lemma route_leaf (D M : Z) (pos : Point) (n : node) :
  forall d : Z,
    wf D M d n -> placed n ->
    Contains (bounds_of n) pos = true ->
    is_leaf (route pos n) = true /\
    wf D M (depth_of (route pos n)) (route pos n).
Proof.
  induction n as [|b d0 its cul IHul cur IHur cll IHll clr IHlr];
    intros d Hwf Hpl Hin; [destruct Hwf|].
  destruct its as [l|].
  - cbn [route]. pose proof Hwf as (-> & _ & -> & -> & -> & -> & _).
    split; [reflexivity | exact Hwf].
  - cbn [bounds_of] in Hin.
    destruct (quadrant_partition b pos Hin) as (Hq & Hcq & _).
    destruct (child_placed (whichQuadrant b pos) b d0 cul cur cll clr Hpl)
      as [Hcp Hcb].
    rewrite <- (Hcb Hq) in Hcq.
    destruct Hwf as (_ & _ & _ & Hul & Hur & Hll & Hlr).
    cbn [route]. destruct (whichQuadrant b pos); [discriminate| | | |];
      simpl in Hcp, Hcq; eauto.
Qed.

(** Without rounding: more than [maxItemsPerNode] entries added to a new
    tree at one position inside its bounds are all stored, in insertion
    order up to permutation, in one leaf, which is at depth [maxDepth];
    no other node holds an entry. *)
Lemma same_position_fills_deepest_leaf (bounds : Rect) (D M : Z)
  (qt0 : Quadtree) (pos : Point) (calls : list (T * Point)) (fuel : nat) :
  GoInt.in_range D ->
  NewQuadtree bounds D M = (Some qt0, None) ->
  (fuel_of qt0 <= fuel)%nat ->
  Contains bounds pos = true ->
  Forall (fun c => snd c = pos) calls ->
  M < Z.of_nat (List.length calls) ->
  exists qt' errs,
    add_all fuel qt0 calls = Ret (qt', errs) /\
    errs = map (fun _ => None) calls /\
    let leaf := route pos (root qt') in
    is_leaf leaf = true /\
    depth_of leaf = D /\
    Permutation (range (items_of leaf)) (map entry_of calls) /\
    entries (root qt') = range (items_of leaf).
Proof.
  intros HD Hnew Hfuel Hin Hcalls Hmany.
  pose proof (NewQuadtree_ok _ _ _ _ _ HD Hnew) as Hok.
  assert (Hr0 : reachable qt0) by (eapply reachable_new; eauto).
  pose proof (reachable_placed qt0 Hr0) as Hpl0.
  apply NewQuadtree_inv in Hnew. destruct Hnew as (_ & _ & _ & Eqt).
  assert (Hb : root_bounds qt0 = bounds) by (subst qt0; reflexivity).
  assert (He0 : entries (root qt0) = []) by (subst qt0; reflexivity).
  assert (Ho0 : on_route pos (root qt0)) by (subst qt0; exact I).
  assert (HD0 : maxDepth qt0 = D) by (subst qt0; reflexivity).
  assert (HM0 : maxItemsPerNode qt0 = M) by (subst qt0; reflexivity).
  destruct (add_all_perm fuel calls qt0 Hok Hpl0 Hfuel)
    as (qt' & errs & E & Herrs & Hperm).
  { rewrite Hb. eapply Forall_impl; [|exact Hcalls].
    cbv beta. intros c ->. exact Hin. }
  exists qt', errs. split; [exact E|]. split; [exact Herrs|].
  rewrite He0, app_nil_r in Hperm.
  pose proof (reachable_add_all fuel calls qt0 qt' errs Hr0 E) as Hr'.
  pose proof (reachable_ok qt' Hr') as (_ & _ & Hwf').
  pose proof (reachable_placed qt' Hr') as Hpl'.
  assert (Hon' : on_route pos (root qt')).
  { apply (add_all_on_route pos fuel calls qt0 qt' errs Hok Hpl0 Ho0);
      [rewrite He0; constructor | exact Hcalls | exact E]. }
  assert (Hsame : maxDepth qt' = D /\ maxItemsPerNode qt' = M /\
                  root_bounds qt' = bounds).
  { clear - E HD0 HM0 Hb Hok. revert qt0 qt' errs E HD0 HM0 Hb Hok.
    induction calls as [|[d p] calls IH]; intros qt0 qt' errs E HD0 HM0 Hb Hok.
    - inversion E; subst. auto.
    - cbn [add_all] in E.
      apply bind_Ret in E. destruct E as ([qt1 e1] & Ea & E).
      apply bind_Ret in E. destruct E as ([qt2 e2] & Eb & E).
      inversion E; subst; clear E. cbn [fst snd] in *.
      destruct (Add_ok fuel qt0 qt1 d p e1 Hok Ea) as (Hok1 & Hg & E1 & E2).
      apply (IH qt1 qt' e2 Eb); try congruence.
      rewrite (grows_root_bounds _ _ Hg). reflexivity. }
  destruct Hsame as (HD' & HM' & Hb').
  rewrite HD', HM' in Hwf'.
  assert (Hin' : Contains (bounds_of (root qt')) pos = true).
  { unfold root_bounds in Hb'. destruct (root qt'); [destruct Hwf'|].
    simpl in *. rewrite Hb'. exact Hin. }
  destruct (route_leaf D M pos (root qt') 0 Hwf' Hpl' Hin') as [Hleaf Hwfl].
  pose proof (on_route_entries D M pos (root qt') 0 Hwf' Hon') as Hent.
  cbv zeta. split; [exact Hleaf|].
  rewrite <- Hent. split; [|split; [exact Hperm | reflexivity]].
  assert (Hlen : List.length (entries (root qt')) = List.length calls).
  { rewrite (Permutation_length Hperm). apply length_map. }
  rewrite Hent in Hlen.
  destruct (route pos (root qt')) as [|lb ld lits ? ? ? ?]; [discriminate|].
  destruct lits as [ll|]; [|discriminate].
  simpl in *. destruct Hwfl as (_ & _ & _ & _ & _ & _ & HldD & Hcap). lia.
Qed.

End SaturationExact.

End Saturation.

(** * The claims *)

Section Claims.

Context {C : Type} `{Coord C} {T : Type}.

Local Abbreviation Point := (@Point C).
Local Abbreviation Rect := (@Rect C).
Local Abbreviation node := (@node C T).
Local Abbreviation treeEntry := (@treeEntry C T).
Local Abbreviation Quadtree := (@Quadtree C T).

(** C3.  [Contains r p] is true exactly when
    [r.X <= p.X < r.X + r.Width] and [r.Y <= p.Y < r.Y + r.Height]; a
    rectangle whose width or height is zero contains no point. *)
Theorem C3_Contains_half_open `{!OrderLaws C} (r : Rect) (p : Point) :
  (Contains r p = true <->
   (cle (Rect_X r) (Point_X p) = true /\
    clt (Point_X p) (cadd (Rect_X r) (Width r)) = true) /\
   (cle (Rect_Y r) (Point_Y p) = true /\
    clt (Point_Y p) (cadd (Rect_Y r) (Height r)) = true)) /\
  (is_zero (Width r) = true \/ is_zero (Height r) = true ->
   Contains r p = false).
Proof.
  split; [apply Contains_iff | apply Contains_zero_size].
Qed.

(** C4.  From a new tree, a sequence of [Add] calls of which [accepted]
    many have their position in the root bounds and [rejected] many have
    not returns, [Size] is then the number of accepted calls, the calls
    that got an error are exactly the rejected ones, and on every tree of
    the API a rejected [Add] returns the error and the tree as it was. *)
Theorem C4_Size_counts_accepted_adds (bounds : Rect) (D M : Z)
  (qt0 : Quadtree) (calls : list (T * Point)) (fuel : nat) :
  GoInt.in_range D ->
  NewQuadtree bounds D M = (Some qt0, None) ->
  (fuel_of qt0 <= fuel)%nat ->
  Z.of_nat (accepted bounds calls) <= GoInt.max_int ->
  (exists qt' errs,
     add_all fuel qt0 calls = Ret (qt', errs) /\
     Size qt' = Z.of_nat (accepted bounds calls) /\
     errs = map (fun c => if Contains bounds (snd c)
                          then None else out_of_bounds) calls /\
     List.length (filter (fun e => negb (is_nil_error e)) errs) =
       rejected bounds calls) /\
  (forall (qt : Quadtree) (d : T) (pos : Point) (f : nat),
     reachable qt ->
     Contains (root_bounds qt) pos = false ->
     Add f qt d pos = Ret (qt, out_of_bounds)).
Proof.
  intros HD Hnew Hfuel Hmax. split.
  - pose proof (NewQuadtree_ok _ _ _ _ _ HD Hnew) as Hok.
    apply NewQuadtree_inv in Hnew. destruct Hnew as (_ & _ & _ & Eqt).
    assert (Hb : root_bounds qt0 = bounds) by (subst qt0; reflexivity).
    assert (Hs : size qt0 = 0) by (subst qt0; reflexivity).
    destruct (add_all_size fuel calls qt0 Hok Hfuel) as (qt' & errs & E & Hsz & Herrs).
    + lia.
    + rewrite Hb, Hs. lia.
    + exists qt', errs. rewrite Hb, Hs in *.
      split; [exact E|]. split; [exact Hsz|]. split; [exact Herrs|].
      subst errs. unfold rejected. clear.
      induction calls as [|[d pos] calls IH]; simpl; [reflexivity|].
      destruct (Contains bounds pos); simpl; rewrite IH; reflexivity.
  - intros qt d pos f Hr Hc. apply Add_rejects; [|exact Hc].
    apply reachable_ok in Hr. destruct Hr as (_ & _ & Hwf).
    exact (wf_not_nil _ _ _ _ Hwf).
Qed.

(** C5.  [NewQuadtree] returns an error, and no tree, exactly when
    [maxDepth < 1] or [maxItemsPerNode < 1]; otherwise it returns no error
    and the tree whose root is an empty leaf at depth 0 with the given
    bounds and whose size is 0. *)
Theorem C5_NewQuadtree_validates (bounds : Rect) (D M : Z) :
  (snd (@NewQuadtree C T bounds D M) <> None <-> D < 1 \/ M < 1) /\
  (fst (@NewQuadtree C T bounds D M) = None <-> D < 1 \/ M < 1) /\
  (1 <= D /\ 1 <= M ->
   let leaf := mkNode bounds 0 (Some []) nilNode nilNode nilNode nilNode in
   @NewQuadtree C T bounds D M = (Some (mkQuadtree D M leaf 0 false), None) /\
   is_leaf leaf = true /\ entries leaf = [] /\
   Size (mkQuadtree D M leaf 0 false) = 0).
Proof.
  unfold NewQuadtree.
  destruct (D <=? 0) eqn:ED; [|destruct (M <=? 0) eqn:EM]; simpl.
  - repeat split; try discriminate; try lia.
  - repeat split; try discriminate; try lia.
  - repeat split; try congruence; try lia.
    all: intros [? | ?]; lia.
Qed.

(** C8.  In a tree of the API the root is set and every node is either a
    leaf or internal, never both and never neither; and whichever
    operation comes next, a node that is internal is internal
    afterwards. *)
Theorem C8_leaf_xor_internal (qt : Quadtree) :
  reachable qt ->
  root qt <> nilNode /\
  Forall (fun m => xorb (is_leaf m) (is_internal m) = true)
         (subnodes (root qt)) /\
  (forall (fuel : nat) (o : op) (qt' : Quadtree),
     step fuel qt o = Ret qt' ->
     forall path : list quadrant,
       is_internal (descend path (root qt)) = true ->
       is_internal (descend path (root qt')) = true).
Proof.
  intros Hr. pose proof (reachable_ok qt Hr) as Hok.
  pose proof Hok as (_ & _ & Hwf).
  split; [exact (wf_not_nil _ _ _ _ Hwf)|].
  split; [exact (wf_leaf_xor_internal _ _ _ _ Hwf)|].
  intros fuel o qt' E path.
  destruct (step_ok fuel qt qt' o Hok E) as [_ Hg].
  exact (grows_descend _ _ path 0 _ _ Hwf Hg).
Qed.

(** C7 (amended).  [overlaps r1 r2] is true exactly when each rectangle
    starts strictly before the other ends, on both axes; rectangles of
    which one ends where the other starts do not overlap; and a query
    with a rectangle of zero width or zero height returns no payload,
    whether or not that rectangle overlaps the bounds of a node. *)
Theorem C7_overlaps_strict `{!OrderLaws C} (r1 r2 : Rect) :
  (overlaps r1 r2 = true <->
   (clt (Rect_X r1) (cadd (Rect_X r2) (Width r2)) = true /\
    clt (Rect_X r2) (cadd (Rect_X r1) (Width r1)) = true) /\
   (clt (Rect_Y r1) (cadd (Rect_Y r2) (Height r2)) = true /\
    clt (Rect_Y r2) (cadd (Rect_Y r1) (Height r1)) = true)) /\
  (cle (cadd (Rect_X r1) (Width r1)) (Rect_X r2) = true \/
   cle (cadd (Rect_X r2) (Width r2)) (Rect_X r1) = true \/
   cle (cadd (Rect_Y r1) (Height r1)) (Rect_Y r2) = true \/
   cle (cadd (Rect_Y r2) (Height r2)) (Rect_Y r1) = true ->
   overlaps r1 r2 = false) /\
  (forall qt : Quadtree,
     reachable qt ->
     is_zero (Width r2) = true \/ is_zero (Height r2) = true ->
     Query qt r2 = Ret []).
Proof.
  split; [apply overlaps_iff|]. split; [apply overlaps_apart|].
  intros qt Hr Hz. rewrite (Query_visited qt r2 (reachable_ok qt Hr)).
  rewrite visited_none; [reflexivity|].
  intros p. apply Contains_zero_size, Hz.
Qed.

(** Without rounding ([ExactLaws]), the round trip of C1 holds: after
    [Add] calls with positions inside the bounds of a new tree, [Query]
    over those bounds returns the payloads of the calls, up to order. *)
Lemma round_trip_without_rounding `{!ExactLaws C} (bounds : Rect) (D M : Z)
  (qt0 : Quadtree) (calls : list (T * Point)) (fuel : nat) :
  GoInt.in_range D ->
  NewQuadtree bounds D M = (Some qt0, None) ->
  (fuel_of qt0 <= fuel)%nat ->
  Forall (fun c => Contains bounds (snd c) = true) calls ->
  exists qt' errs payloads,
    add_all fuel qt0 calls = Ret (qt', errs) /\
    errs = map (fun _ => None) calls /\
    Query qt' bounds = Ret payloads /\
    Permutation payloads (map fst calls).
Proof.
  intros HD Hnew Hfuel Hall.
  pose proof (NewQuadtree_ok _ _ _ _ _ HD Hnew) as Hok.
  assert (Hr0 : reachable qt0) by (eapply reachable_new; eauto).
  apply NewQuadtree_inv in Hnew. destruct Hnew as (_ & _ & _ & Eqt).
  assert (Hb : root_bounds qt0 = bounds) by (subst qt0; reflexivity).
  assert (He0 : entries (root qt0) = []) by (subst qt0; reflexivity).
  destruct (add_all_perm fuel calls qt0 Hok (reachable_placed qt0 Hr0) Hfuel)
    as (qt' & errs & E & Herrs & Hperm).
  { rewrite Hb. exact Hall. }
  rewrite He0, app_nil_r in Hperm.
  pose proof (reachable_add_all fuel calls qt0 qt' errs Hr0 E) as Hr'.
  exists qt', errs, (map data (entries (root qt'))).
  split; [exact E|]. split; [exact Herrs|]. split.
  - apply (Query_enclosing qt' bounds Hr').
    replace (root_bounds qt') with bounds; [intros p Hp; exact Hp|].
    clear - E Hb Hok. revert qt0 qt' errs E Hb Hok.
    induction calls as [|[d p] calls IH]; intros qt0 qt' errs E Hb Hok.
    + inversion E; subst. reflexivity.
    + cbn [add_all] in E.
      apply bind_Ret in E. destruct E as ([qt1 e1] & Ea & E).
      apply bind_Ret in E. destruct E as ([qt2 e2] & Eb & E).
      inversion E; subst; clear E. cbn [fst snd] in *.
      destruct (Add_ok fuel qt0 qt1 d p e1 Hok Ea) as (Hok1 & Hg & _).
      apply (IH qt1 qt' e2 Eb); [|exact Hok1].
      apply grows_root_bounds. exact Hg.
  - rewrite Hperm, map_map. unfold entry_of. simpl. reflexivity.
Qed.

End Claims.

(** * The code on [float64] inputs *)

Lemma build_reachable {C T : Type} `{Coord C} (bounds : @Rect C) (D M : Z)
  (calls : list (T * @Point C)) (qt : @Quadtree C T)
  (errs : list (option string)) :
  GoInt.in_range D ->
  build bounds D M calls = Ret (qt, errs) ->
  reachable qt.
Proof.
  unfold build. intros HD E.
  destruct (NewQuadtree bounds D M) as [[qt0|] err] eqn:Enew; simpl in E;
    [|discriminate].
  destruct (NewQuadtree_inv _ _ _ _ _ Enew) as (_ & _ & -> & _).
  eapply reachable_add_all; [|exact E].
  eapply reachable_new; eauto.
Qed.

Lemma small_in_range (z : Z) : -100 <= z <= 100 -> GoInt.in_range z.
Proof. unfold GoInt.in_range, GoInt.min_int, GoInt.max_int. lia. Qed.

Lemma point_rect_tree_reachable : reachable point_rect_tree.
Proof.
  apply (build_reachable point_rect_bounds 2 2
           [(1%nat, Point64 1 1)] point_rect_tree [None]).
  - apply small_in_range. lia.
  - vm_compute. reflexivity.
Qed.

Lemma depth_tree_reachable : reachable depth_tree.
Proof.
  apply (build_reachable depth_bounds 2 2
           (map (fun i => (i, Point64 1 1))
                [1; 2; 3; 4; 5; 6]%nat)
           depth_tree [None; None; None; None; None; None]).
  - apply small_in_range. lia.
  - vm_compute. reflexivity.
Qed.

(** C3 at the zero-size rectangle and the point of
    TestQuery_withPointRect_doesNotreturnItemAtPosition. *)
Lemma C3_witness :
  Contains point_rect (Point64 1 1) = false.
Proof.
  apply (proj2 (C3_Contains_half_open (C := float) point_rect
                  (Point64 1 1))).
  left. vm_compute. reflexivity.
Defined.

(** C4 at the calls of TestSize_sizeIncrements with four rejected calls
    in between. *)
Lemma C4_witness :
  exists qt' errs,
    add_all 11 size_tree0 size_calls = Ret (qt', errs) /\
    Size qt' = 4 /\
    errs = [None; None; out_of_bounds; None; out_of_bounds; out_of_bounds;
            None; out_of_bounds] /\
    List.length (filter (fun e => negb (is_nil_error e)) errs) = 4%nat.
Proof.
  refine (proj1 (C4_Size_counts_accepted_adds (C := float) (T := nat)
                   size_bounds 5 1 size_tree0 size_calls 11 _ _ _ _)).
  - apply small_in_range. lia.
  - reflexivity.
  - vm_compute. lia.
  - vm_compute. discriminate.
Defined.

(** C7 (amended) at the tree and the query of
    TestQuery_withPointRect_doesNotreturnItemAtPosition. *)
Lemma C7_witness : Query point_rect_tree point_rect = Ret [].
Proof.
  refine (proj2 (proj2 (C7_overlaps_strict (C := float) (T := nat)
                          point_rect_bounds point_rect))
                point_rect_tree point_rect_tree_reachable _).
  left. vm_compute. reflexivity.
Defined.

(** C7, as stated, fails: the zero-size rectangle of the test lies inside
    the bounds of the root and overlaps them. *)
Lemma C7_counterexample :
  is_zero (Width point_rect) = true /\
  is_zero (Height point_rect) = true /\
  overlaps point_rect_bounds point_rect = true.
Proof. vm_compute. auto. Qed.

(** C8 at the tree of TestQuery_whenSplittingToMaxDepth_returnsAllItems. *)
Lemma C8_witness :
  root depth_tree <> nilNode /\
  Forall (fun m => xorb (is_leaf m) (is_internal m) = true)
         (subnodes (root depth_tree)) /\
  (forall (fuel : nat) (o : op) (qt' : @Quadtree float nat),
     step fuel depth_tree o = Ret qt' ->
     forall path : list quadrant,
       is_internal (descend path (root depth_tree)) = true ->
       is_internal (descend path (root qt')) = true).
Proof.
  exact (C8_leaf_xor_internal depth_tree depth_tree_reachable).
Defined.

(** Without rounding the two entries are stored and found. *)
Example ulp_round_trip_exact :
  exists qt,
    build ulp_bounds_exact 1 1 ulp_calls_exact = Ret (qt, [None; None]) /\
    Query qt ulp_bounds_exact = Ret [1%nat; 2%nat] /\
    whichQuadrant ulp_bounds_exact ulp_point_exact = quadrantLowerLeft.
Proof.
  eexists. split; [vm_compute; reflexivity|].
  split; vm_compute; reflexivity.
Qed.

(** C1, at failing inputs.  In each run all positions are inside the
    bounds and all [Add] calls return no error, so that [Size] counts
    them; yet [Query] over the bounds of the tree returns only payload 2
    in [tenth_tree], where payload 1 is lost, and nothing in [ulp_tree]. *)
Theorem C1_float64_entries_lost :
  (build tenth_bounds 10 1 tenth_calls = Ret (tenth_tree, [None; None]) /\
   Forall (fun c => Contains tenth_bounds (snd c) = true) tenth_calls /\
   Size tenth_tree = 2 /\
   Query tenth_tree tenth_bounds = Ret [2%nat]) /\
  (build ulp_bounds 1 1 ulp_calls = Ret (ulp_tree, [None; None]) /\
   Forall (fun c => Contains ulp_bounds (snd c) = true) ulp_calls /\
   Size ulp_tree = 2 /\
   Query ulp_tree ulp_bounds = Ret []).
Proof.
  split.
  - split; [vm_compute; reflexivity|].
    split; [vm_compute; repeat constructor|].
    split; vm_compute; reflexivity.
  - split; [vm_compute; reflexivity|].
    split; [vm_compute; repeat constructor|].
    split; vm_compute; reflexivity.
Qed.

(** C2, at a failing input.  In the test's tree all four entries qualify;
    the visitor answers false at its second call, and the traversal of
    [queryInternal] calls it four times, where the test expects two. *)
Theorem C2_visitor_called_after_false :
  build visit_bounds 2 2 visit_calls =
    Ret (visit_tree, [None; None; None; None]) /\
  List.length (visited (root visit_tree) visit_bounds) = 4%nat /\
  queryInternal (root visit_tree) visit_bounds (visiting counting_visitor) 0
    = Ret 4.
Proof. split; [|split]; vm_compute; reflexivity. Qed.

(** C6, at failing inputs.  With [maxDepth = 10] and
    [maxItemsPerNode = 10], eleven entries at one position inside the
    bounds are all accepted; afterwards no node of [tenth_same_tree]
    holds an entry.  With [maxDepth = 1] and [maxItemsPerNode = 1] the
    same happens to two entries: the root of [ulp_tree] is internal, its
    children are four empty leaves. *)
Theorem C6_float64_no_leaf_holds_them :
  (build tenth_bounds 10 10 tenth_same_calls =
     Ret (tenth_same_tree, map (fun _ => None) tenth_same_calls) /\
   Forall (fun c => snd c = tenth_point) tenth_same_calls /\
   Contains tenth_bounds tenth_point = true /\
   (Z.of_nat (List.length tenth_same_calls)
      > maxItemsPerNode tenth_same_tree) /\
   Forall (fun m => range (items_of m) = [])
          (subnodes (root tenth_same_tree)) /\
   entries (root tenth_same_tree) = []) /\
  (build ulp_bounds 1 1 ulp_calls = Ret (ulp_tree, [None; None]) /\
   Forall (fun c => snd c = ulp_point) ulp_calls /\
   Contains ulp_bounds ulp_point = true /\
   (Z.of_nat (List.length ulp_calls) > maxItemsPerNode ulp_tree) /\
   is_internal (root ulp_tree) = true /\
   Forall (fun q => is_leaf (child q (root ulp_tree)) = true)
          [quadrantUpperLeft; quadrantUpperRight;
           quadrantLowerLeft; quadrantLowerRight] /\
   Forall (fun m => range (items_of m) = []) (subnodes (root ulp_tree)) /\
   entries (root ulp_tree) = []).
Proof.
  split.
  - split; [vm_compute; reflexivity|].
    split; [vm_compute; repeat constructor|].
    split; [vm_compute; reflexivity|].
    split; [vm_compute; reflexivity|].
    split; [vm_compute; repeat constructor|].
    vm_compute; reflexivity.
  - split; [vm_compute; reflexivity|].
    split; [vm_compute; repeat constructor|].
    split; [vm_compute; reflexivity|].
    split; [vm_compute; reflexivity|].
    split; [vm_compute; reflexivity|].
    split; [vm_compute; repeat constructor|].
    split; [vm_compute; repeat constructor|].
    vm_compute; reflexivity.
Qed.

(** C9, at failing inputs.  The point is inside the rectangle and
    [whichQuadrant] sends it to a right quadrant, but none of the four
    quadrants contains it, and so the insertion into that child takes the
    [quadrantNone] branch. *)
Theorem C9_float64_no_quadrant_contains :
  (Contains tenth_bounds tenth_point = true /\
   whichQuadrant tenth_bounds tenth_point = quadrantUpperRight /\
   (let '(qul, qur, qll, qlr) := quadrants tenth_bounds in
    Contains qul tenth_point = false /\ Contains qur tenth_point = false /\
    Contains qll tenth_point = false /\ Contains qlr tenth_point = false /\
    whichQuadrant qur tenth_point = quadrantNone)) /\
  (Contains ulp_bounds ulp_point = true /\
   whichQuadrant ulp_bounds ulp_point = quadrantLowerRight /\
   (let '(qul, qur, qll, qlr) := quadrants ulp_bounds in
    Contains qul ulp_point = false /\ Contains qur ulp_point = false /\
    Contains qll ulp_point = false /\ Contains qlr ulp_point = false /\
    whichQuadrant qlr ulp_point = quadrantNone)).
Proof. vm_compute. auto 20. Qed.

(** C10, at failing inputs.  In [tenth_tree] and in [ulp_tree] a point
    of the root's bounds is in the bounds of none of the four children;
    in [skew_tree] the bounds of the upper left child contain a point
    that the bounds of the root do not. *)
Theorem C10_float64_children_do_not_partition :
  (build tenth_bounds 10 1 tenth_calls = Ret (tenth_tree, [None; None]) /\
   Contains (bounds_of (root tenth_tree)) tenth_point = true /\
   Forall (fun q => Contains (bounds_of (child q (root tenth_tree)))
                             tenth_point = false)
          [quadrantUpperLeft; quadrantUpperRight;
           quadrantLowerLeft; quadrantLowerRight]) /\
  (build ulp_bounds 1 1 ulp_calls = Ret (ulp_tree, [None; None]) /\
   Contains (bounds_of (root ulp_tree)) ulp_point = true /\
   Forall (fun q => Contains (bounds_of (child q (root ulp_tree))) ulp_point
                    = false)
          [quadrantUpperLeft; quadrantUpperRight;
           quadrantLowerLeft; quadrantLowerRight]) /\
  (build skew_bounds 1 1 [(1%nat, Point64 0.5 1); (2%nat, Point64 0.5 1)] =
     Ret (skew_tree, [None; None]) /\
   Contains (bounds_of (child quadrantUpperLeft (root skew_tree))) skew_point
     = true /\
   Contains (bounds_of (root skew_tree)) skew_point = false).
Proof.
  split; [|split].
  - split; [vm_compute; reflexivity|].
    split; [vm_compute; reflexivity|].
    vm_compute. repeat constructor.
  - split; [vm_compute; reflexivity|].
    split; [vm_compute; reflexivity|].
    vm_compute. repeat constructor.
  - split; [vm_compute; reflexivity|]. split; vm_compute; reflexivity.
Qed.

(** * Further properties of the code *)

(** ** More fuel changes nothing *)

Section Fuel.

Context {C : Type} `{Coord C} {T : Type}.

Local Abbreviation Point := (@Point C).
Local Abbreviation Rect := (@Rect C).
Local Abbreviation node := (@node C T).
Local Abbreviation treeEntry := (@treeEntry C T).
Local Abbreviation Quadtree := (@Quadtree C T).

Lemma fold_bind_mono {A B : Type} (step1 step2 : A -> B -> outcome A) :
  (forall a i a', step1 a i = Ret a' -> step2 a i = Ret a') ->
  forall (l : list B) (a a' : A),
    fold_left (fun acc i => m <- acc ;; step1 m i) l (Ret a) = Ret a' ->
    fold_left (fun acc i => m <- acc ;; step2 m i) l (Ret a) = Ret a'.
Proof.
  intros Hstep. induction l as [|i l IH]; simpl; intros a a' E; [exact E|].
  destruct (step1 a i) as [a1| |] eqn:E1.
  - rewrite (Hstep _ _ _ E1). apply IH. exact E.
  - apply fold_bind_Ret in E. destruct E; discriminate.
  - apply fold_bind_Ret in E. destruct E; discriminate.
Qed.

Lemma addInternal_fuel_S (qt : Quadtree) (fuel : nat) :
  forall (n : node) (item : treeEntry) (n' : node),
    addInternal fuel qt n item = Ret n' ->
    addInternal (S fuel) qt n item = Ret n'.
Proof.
  induction fuel as [|fuel IH]; intros n item n' E; [discriminate|].
  destruct n as [|b d its cul cur cll clr]; [discriminate|].
  rewrite addInternal_eq in E. rewrite addInternal_eq. cbv zeta in *.
  destruct (is_quadrantNone _); [exact E|].
  destruct (negb (is_nil its) && (d >=? maxDepth qt)); [exact E|].
  destruct (len its >=? maxItemsPerNode qt).
  - apply bind_Ret in E. destruct E as (n0 & Hloop & Hlast).
    rewrite (fold_bind_mono (fun m i => addInternal fuel qt m i)
               (fun m i => addInternal (S fuel) qt m i) IH _ _ _ Hloop).
    simpl. apply IH. exact Hlast.
  - destruct (negb (is_nil its)); [exact E|].
    apply bind_Ret in E. destruct E as (c & Hc & Hret).
    rewrite (IH _ _ _ Hc). exact Hret.
Qed.

Lemma addInternal_fuel_le (qt : Quadtree) (fuel fuel' : nat)
  (n : node) (item : treeEntry) (n' : node) :
  (fuel <= fuel')%nat ->
  addInternal fuel qt n item = Ret n' ->
  addInternal fuel' qt n item = Ret n'.
Proof.
  induction 1 as [|fuel' _ IH]; intros E; [exact E|].
  apply addInternal_fuel_S, IH, E.
Qed.

Lemma Add_fuel_le (qt : Quadtree) (fuel fuel' : nat) (d : T) (pos : Point)
  (r : Quadtree * option string) :
  (fuel <= fuel')%nat ->
  Add fuel qt d pos = Ret r ->
  Add fuel' qt d pos = Ret r.
Proof.
  intros Hle. unfold Add. destruct (root qt) as [|b d0 its cul cur cll clr] eqn:Er;
    [discriminate|].
  destruct (negb (Contains b pos)); [auto|].
  intros E. apply bind_Ret in E. destruct E as (n' & En & E).
  rewrite (addInternal_fuel_le qt fuel fuel' _ _ _ Hle En). exact E.
Qed.

End Fuel.

(** ** Nodes along a path *)

Section Paths.

Context {C : Type} `{Coord C} {T : Type}.

Local Abbreviation Point := (@Point C).
Local Abbreviation Rect := (@Rect C).
Local Abbreviation node := (@node C T).
Local Abbreviation treeEntry := (@treeEntry C T).
Local Abbreviation Quadtree := (@Quadtree C T).

Lemma wf_descend (D M : Z) (path : list quadrant) :
  forall (d : Z) (n : node),
    wf D M d n ->
    descend path n <> nilNode ->
    wf D M (d + Z.of_nat (List.length path)) (descend path n).
Proof.
  induction path as [|q path IH]; intros d n Hwf Hnn.
  - simpl. rewrite Z.add_0_r. exact Hwf.
  - cbn [descend List.length] in *.
    destruct n as [|b d0 its cul cur cll clr]; [destruct Hwf|].
    replace (d + Z.of_nat (S (List.length path)))
      with ((d + 1) + Z.of_nat (List.length path)) by lia.
    destruct its as [l|].
    + destruct Hwf as (_ & _ & -> & -> & -> & -> & _).
      exfalso. apply Hnn. destruct q; simpl; apply descend_nilNode.
    + destruct Hwf as (_ & _ & _ & Hul & Hur & Hll & Hlr).
      destruct q; simpl in *; auto.
      exfalso. apply Hnn. apply descend_nilNode.
Qed.

Lemma child_wf_any (q : quadrant) (b : Rect) (d : Z)
  (cul cur cll clr : node) (D M : Z) :
  is_quadrantNone q = false ->
  wf D M d (mkNode b d None cul cur cll clr) ->
  wf D M (d + 1) (child q (mkNode b d None cul cur cll clr)).
Proof.
  intros Hq (_ & _ & _ & Hul & Hur & Hll & Hlr).
  destruct q; simpl; auto; discriminate.
Qed.

Lemma wf_fields (D M d : Z) (n : node) :
  wf D M d n ->
  depth_of n = d /\ 0 <= d <= D /\
  (is_leaf n = true -> d < D -> len (items_of n) <= M) /\
  (is_leaf n = false -> d < D /\ is_internal n = true).
Proof.
  destruct n as [|b d0 its cul cur cll clr]; [intros []|].
  destruct its as [l|]; cbn [wf].
  - intros (-> & ? & -> & -> & -> & -> & ? & ?). simpl.
    repeat split; auto; try lia; discriminate.
  - intros (-> & ? & ? & Hul & Hur & Hll & Hlr). simpl.
    rewrite (wf_is_nilNode _ _ _ _ Hul), (wf_is_nilNode _ _ _ _ Hur),
      (wf_is_nilNode _ _ _ _ Hll), (wf_is_nilNode _ _ _ _ Hlr).
    repeat split; auto; try lia; discriminate.
Qed.

Lemma placed_descend (D M : Z) (path : list quadrant) :
  forall (d : Z) (n : node),
    wf D M d n -> placed n -> placed (descend path n).
Proof.
  induction path as [|q path IH]; intros d n Hwf Hp; [exact Hp|].
  cbn [descend].
  destruct n as [|b d0 its cul cur cll clr]; [destruct Hwf|].
  destruct its as [l|].
  - destruct Hwf as (_ & _ & -> & -> & -> & -> & _).
    destruct q; simpl; rewrite descend_nilNode; exact I.
  - destruct Hp as (_ & _ & Pul & Pur & Pll & Plr).
    destruct Hwf as (_ & _ & _ & Hul & Hur & Hll & Hlr).
    destruct q; simpl; eauto.
    rewrite descend_nilNode. exact I.
Qed.

End Paths.

(** ** Quadrants do not share points *)

Section Disjoint.

Context {C : Type} `{Coord C} `{!OrderLaws C} {T : Type}.

Local Abbreviation Point := (@Point C).
Local Abbreviation Rect := (@Rect C).
Local Abbreviation node := (@node C T).
Local Abbreviation treeEntry := (@treeEntry C T).

Ltac order_contradiction :=
  first [ congruence
        | match goal with
          | H1 : clt ?a ?b = true, H2 : cle ?b ?a = true |- _ =>
              exact (False_ind _ (clt_cle_false a b H1 H2))
          end ].

Lemma quadrants_disjoint (r : Rect) (p : Point) (q1 q2 : quadrant) :
  is_quadrantNone q1 = false -> is_quadrantNone q2 = false ->
  Contains (quadrant_bounds q1 r) p = true ->
  Contains (quadrant_bounds q2 r) p = true ->
  q1 = q2.
Proof.
  unfold quadrant_bounds, quadrants.
  destruct q1; try discriminate; destruct q2; try discriminate;
    intros _ _; try reflexivity;
    rewrite !Contains_iff; simpl;
    intros [[? ?] [? ?]] [[? ?] [? ?]]; exfalso; order_contradiction.
Qed.

Lemma whichQuadrant_of_quadrant (r : Rect) (p : Point) (q : quadrant) :
  Contains r p = true ->
  is_quadrantNone q = false ->
  Contains (quadrant_bounds q r) p = true ->
  whichQuadrant r p = q.
Proof.
  intros Hc Hq. unfold whichQuadrant, quadrant_bounds, quadrants.
  rewrite Hc. cbn [negb].
  destruct q; try discriminate;
    rewrite Contains_iff; simpl; intros [[? ?] [? ?]];
    destruct (clt (Point_X p) (cadd (Rect_X r) (chalf (Width r)))) eqn:Ex;
    destruct (clt (Point_Y p) (cadd (Rect_Y r) (chalf (Height r)))) eqn:Ey;
    try reflexivity; exfalso; order_contradiction.
Qed.

Lemma items_in_entries (n : node) : incl (range (items_of n)) (entries n).
Proof.
  destruct n as [|b d its cul cur cll clr]; simpl; [apply incl_refl|].
  apply incl_appl, incl_refl.
Qed.

Lemma entries_child_incl (q : quadrant) (n : node) :
  incl (entries (child q n)) (entries n).
Proof.
  destruct n as [|b d its cul cur cll clr]; [destruct q; apply incl_refl|].
  destruct q; simpl; intros e He; rewrite ?in_app_iff; auto; destruct He.
Qed.

Lemma entries_descend_incl (path : list quadrant) :
  forall n : node, incl (entries (descend path n)) (entries n).
Proof.
  induction path as [|q path IH]; intros n; [apply incl_refl|].
  cbn [descend]. eapply incl_tran; [apply IH | apply entries_child_incl].
Qed.

(** Two stored entries with one position are in one leaf. *)
Lemma same_position_same_leaf (D M : Z) (path1 : list quadrant) :
  forall (d : Z) (n : node) (path2 : list quadrant) (e1 e2 : treeEntry),
    wf D M d n -> placed n ->
    In e1 (range (items_of (descend path1 n))) ->
    In e2 (range (items_of (descend path2 n))) ->
    position e1 = position e2 ->
    path1 = path2.
Proof.
  induction path1 as [|q1 path1 IH]; intros d n path2 e1 e2 Hwf Hpl H1 H2 Hpos.
  - cbn [descend] in H1.
    destruct n as [|b d0 its cul cur cll clr]; [destruct Hwf|].
    destruct its as [l|]; [|destruct H1].
    destruct path2 as [|q2 path2]; [reflexivity|].
    destruct Hwf as (_ & _ & -> & -> & -> & -> & _).
    cbn [descend] in H2.
    destruct q2; simpl in H2; rewrite descend_nilNode in H2; destruct H2.
  - cbn [descend] in H1.
    destruct n as [|b d0 its cul cur cll clr]; [destruct Hwf|].
    destruct its as [l|].
    { destruct Hwf as (_ & _ & -> & -> & -> & -> & _).
      destruct q1; simpl in H1; rewrite descend_nilNode in H1; destruct H1. }
    destruct path2 as [|q2 path2]; [destruct H2|].
    cbn [descend] in H2.
    set (n := mkNode b d0 None cul cur cll clr) in *.
    assert (Hq1 : is_quadrantNone q1 = false).
    { destruct q1; try reflexivity. simpl in H1.
      rewrite descend_nilNode in H1. destruct H1. }
    assert (Hq2 : is_quadrantNone q2 = false).
    { destruct q2; try reflexivity. simpl in H2.
      rewrite descend_nilNode in H2. destruct H2. }
    assert (d0 = d) by (destruct Hwf; assumption). subst d0.
    pose proof (child_wf_any q1 b d cul cur cll clr D M Hq1 Hwf) as Hw1.
    pose proof (child_wf_any q2 b d cul cur cll clr D M Hq2 Hwf) as Hw2.
    destruct (child_placed q1 b d cul cur cll clr Hpl) as [Hp1 Hb1].
    destruct (child_placed q2 b d cul cur cll clr Hpl) as [Hp2 Hb2].
    fold n in Hw1, Hw2, Hp1, Hp2, Hb1, Hb2.
    assert (Hc1 : Contains (quadrant_bounds q1 b) (position e1) = true).
    { rewrite <- (Hb1 Hq1).
      pose proof (placed_bounds _ Hp1) as Hall. rewrite Forall_forall in Hall.
      apply Hall. apply entries_descend_incl with (path := path1).
      apply items_in_entries. exact H1. }
    assert (Hc2 : Contains (quadrant_bounds q2 b) (position e1) = true).
    { rewrite Hpos, <- (Hb2 Hq2).
      pose proof (placed_bounds _ Hp2) as Hall. rewrite Forall_forall in Hall.
      apply Hall. apply entries_descend_incl with (path := path2).
      apply items_in_entries. exact H2. }
    pose proof (quadrants_disjoint b _ q1 q2 Hq1 Hq2 Hc1 Hc2) as ->.
    f_equal. exact (IH _ _ _ _ _ Hw1 Hp1 H1 H2 Hpos).
Qed.

End Disjoint.

(** ** Nothing is stored twice *)

Section Keeps.

Context {C : Type} `{Coord C} {T : Type}.

Local Abbreviation Point := (@Point C).
Local Abbreviation Rect := (@Rect C).
Local Abbreviation node := (@node C T).
Local Abbreviation treeEntry := (@treeEntry C T).
Local Abbreviation Quadtree := (@Quadtree C T).

Lemma fold_bind_keeps {A B : Type} (step : A -> B -> outcome A)
  (P : A -> Prop) (ent : A -> list B) :
  (forall a i a', P a -> step a i = Ret a' ->
     P a' /\ exists dr, Permutation (i :: ent a) (ent a' ++ dr)) ->
  forall (l : list B) (a a' : A),
    P a ->
    fold_left (fun acc i => m <- acc ;; step m i) l (Ret a) = Ret a' ->
    P a' /\ exists dr, Permutation (l ++ ent a) (ent a' ++ dr).
Proof.
  intros Hstep. induction l as [|i l IH]; simpl; intros a a' Pa E.
  - inversion E; subst. split; [exact Pa|]. exists []. rewrite app_nil_r.
    reflexivity.
  - destruct (step a i) as [a1| |] eqn:E1.
    + destruct (Hstep a i a1 Pa E1) as [P1 [dr1 Hp1]].
      destruct (IH a1 a' P1 E) as [P' [dr Hp]].
      split; [exact P'|]. exists (dr ++ dr1).
      rewrite app_assoc, <- Hp, <- app_assoc, <- Hp1.
      apply Permutation_middle.
    + apply fold_bind_Ret in E. destruct E; discriminate.
    + apply fold_bind_Ret in E. destruct E; discriminate.
Qed.

Lemma entries_child_split (q : quadrant) (b : Rect) (d : Z)
  (cul cur cll clr : node) :
  let n := mkNode b d None cul cur cll clr in
  is_quadrantNone q = false ->
  exists front back,
    entries n = front ++ entries (child q n) ++ back /\
    forall c, entries (set_child q n c) = front ++ entries c ++ back.
Proof.
  intros n Hq. subst n. destruct q; [discriminate| | | |]; simpl.
  - exists [], (entries cur ++ entries cll ++ entries clr). auto.
  - exists (entries cul), (entries cll ++ entries clr). auto.
  - exists (entries cul ++ entries cur), (entries clr).
    split; [|intros c]; rewrite <- !app_assoc; reflexivity.
  - exists (entries cul ++ entries cur ++ entries cll), [].
    split; [|intros c]; rewrite <- !app_assoc, app_nil_r; reflexivity.
Qed.

Section AddInternalKeeps.

Variable qt : Quadtree.
Hypothesis depth_range : GoInt.in_range (maxDepth qt).
Hypothesis capacity_pos : 1 <= maxItemsPerNode qt.

Let D := maxDepth qt.
Let M := maxItemsPerNode qt.

(** What is stored after an insertion is what was stored before and the
    new entry, less what the [quadrantNone] branch dropped. *)
Lemma addInternal_keeps (fuel : nat) :
  forall (n : node) (item : treeEntry) (d : Z) (n' : node),
    wf D M d n ->
    addInternal fuel qt n item = Ret n' ->
    exists dropped, Permutation (item :: entries n) (entries n' ++ dropped).
Proof.
  induction fuel as [|fuel IH]; intros n item d n' Hwf Hadd.
  - discriminate.
  - destruct n as [|b d0 its cul cur cll clr]; [destruct Hwf|].
    rewrite addInternal_eq in Hadd. cbv zeta in Hadd.
    fold D M in Hadd.
    assert (d0 = d) by (destruct Hwf; assumption). subst d0.
    destruct (is_quadrantNone (whichQuadrant b (position item))) eqn:Eq.
    { inversion Hadd; subst n'. exists [item]. apply Permutation_cons_append. }
    destruct its as [l|]; cbn [is_nil negb andb len range] in Hadd.
    + pose proof (wf_leaf_entries _ _ _ _ _ _ _ _ _ _ Hwf) as El.
      pose proof Hwf as (_ & Hd0 & -> & -> & -> & -> & HdD & Hcap).
      assert (Happend :
        exists dropped,
          Permutation
            (item :: entries (mkNode b d (Some l)
                                     nilNode nilNode nilNode nilNode))
            (entries (mkNode b d (append (Some l) item)
                             nilNode nilNode nilNode nilNode) ++ dropped)).
      { exists []. simpl. rewrite !app_nil_r. apply Permutation_cons_append. }
      destruct (d >=? D) eqn:Emax.
      { inversion Hadd; subst n'. exact Happend. }
      destruct (Z.of_nat (List.length l) >=? M) eqn:Efull.
      2:{ inversion Hadd; subst n'. exact Happend. }
      clear Happend.
      apply bind_Ret in Hadd. destruct Hadd as (n0 & Hloop & Hlast).
      set (n := mkNode b d (Some l) nilNode nilNode nilNode nilNode) in *.
      destruct (split_node_placed b d (Some l) nilNode nilNode nilNode nilNode)
        as [_ Hse].
      fold n in Hse.
      assert (Hn0 : wf D M d n0 /\
                    exists dr, Permutation (l ++ entries (split_node n))
                                           (entries n0 ++ dr)).
      { revert Hloop.
        apply (fold_bind_keeps
                 (fun m i => addInternal fuel qt m i)
                 (fun m => wf D M d m) entries).
        - intros a i a' Ha Ea.
          split; [exact (proj1 (addInternal_wf qt depth_range capacity_pos
                                  _ _ _ _ _ Ha Ea))|].
          exact (IH _ _ _ _ Ha Ea).
        - apply (split_node_wf qt depth_range capacity_pos). fold D. lia. }
      destruct Hn0 as (Hw0 & dr0 & Hp0).
      rewrite Hse, app_nil_r in Hp0.
      destruct (IH _ _ _ _ Hw0 Hlast) as [dr1 Hp1].
      exists (dr1 ++ dr0). rewrite El.
      rewrite app_assoc, <- Hp1. simpl. constructor. exact Hp0.
    + destruct (0 >=? M) eqn:Efull; [subst M; lia|].
      apply bind_Ret in Hadd. destruct Hadd as (c & Hc & Hret).
      assert (En' : n' = set_child (whichQuadrant b (position item))
                                   (mkNode b d None cul cur cll clr) c)
        by congruence.
      subst n'; clear Hret.
      destruct (IH _ _ _ _ (child_wf qt _ b d cul cur cll clr Eq Hwf) Hc)
        as [dr Hp].
      destruct (entries_child_split _ b d cul cur cll clr Eq)
        as (front & back & Hn & Hset).
      exists dr. rewrite Hn, Hset.
      rewrite <- !app_assoc.
      rewrite (Permutation_app_comm back dr), app_assoc, (app_assoc _ dr back).
      rewrite <- Hp. simpl.
      rewrite <- app_assoc. simpl. apply Permutation_middle.
Qed.

End AddInternalKeeps.

Lemma add_all_keeps (fuel : nat) (calls : list (T * Point)) :
  forall (qt qt' : Quadtree) (errs : list (option string)),
    tree_ok qt ->
    add_all fuel qt calls = Ret (qt', errs) ->
    exists dropped,
      Permutation
        (map entry_of (filter (fun c => Contains (root_bounds qt) (snd c)) calls)
           ++ entries (root qt))
        (entries (root qt') ++ dropped).
Proof.
  induction calls as [|[d pos] calls IH]; intros qt qt' errs Hok E.
  - inversion E; subst. exists []. simpl. rewrite app_nil_r. reflexivity.
  - cbn [add_all] in E.
    apply bind_Ret in E. destruct E as ([qt1 e1] & Ea & E).
    apply bind_Ret in E. destruct E as ([qt2 e2] & Eb & E).
    inversion E; subst; clear E. cbn [fst snd filter] in *.
    destruct (Add_ok fuel qt qt1 d pos e1 Hok Ea) as (Hok1 & Hg & _).
    pose proof (grows_root_bounds _ _ Hg) as Hb.
    destruct (IH qt1 qt' e2 Hok1 Eb) as [dr Hp]. rewrite Hb in Hp.
    pose proof Hok as (HD & HM & Hwf).
    apply Add_inv in Ea.
    destruct Ea as [(Hc & -> & _) | (Hc & _ & r & Er & ->)]; rewrite Hc.
    + exists dr. exact Hp.
    + destruct (addInternal_keeps qt HD HM fuel _ _ _ _ Hwf Er) as [dr1 Hp1].
      simpl in Hp. exists (dr ++ dr1).
      rewrite app_assoc, <- Hp, <- app_assoc, <- Hp1.
      cbn [map app]. unfold entry_of at 1. cbn [fst snd].
      apply Permutation_middle.
Qed.

End Keeps.

(** ** Round trip of the entries that can be carried down *)

Section Routed.

Context {C : Type} `{Coord C} {T : Type}.

Local Abbreviation Point := (@Point C).
Local Abbreviation Rect := (@Rect C).
Local Abbreviation node := (@node C T).
Local Abbreviation treeEntry := (@treeEntry C T).
Local Abbreviation Quadtree := (@Quadtree C T).

Lemma child_routed (D : Z) (q : quadrant) (b : Rect) (d : Z)
  (cul cur cll clr : node) :
  routed D (mkNode b d None cul cur cll clr) ->
  routed D (child q (mkNode b d None cul cur cll clr)).
Proof. intros (? & ? & ? & ?). destruct q; simpl; auto. Qed.

Lemma set_child_routed (D : Z) (q : quadrant) (b : Rect) (d : Z)
  (cul cur cll clr c : node) :
  routed D (mkNode b d None cul cur cll clr) -> routed D c ->
  routed D (set_child q (mkNode b d None cul cur cll clr) c).
Proof. intros (? & ? & ? & ?) Hc. destruct q; simpl; auto. Qed.

Lemma split_node_routed (D : Z) (b : Rect) (d : Z)
  (its : option (list treeEntry)) (cul cur cll clr : node) :
  routed D (split_node (mkNode b d its cul cur cll clr)).
Proof.
  unfold split_node. destruct (quadrants b) as [[[qul qur] qll] qlr].
  simpl. repeat split; constructor.
Qed.

Section AddInternalRouted.

Variable qt : Quadtree.
Hypothesis depth_range : GoInt.in_range (maxDepth qt).
Hypothesis capacity_pos : 1 <= maxItemsPerNode qt.

Let D := maxDepth qt.
Let M := maxItemsPerNode qt.

(** An entry that can be carried down from a node is stored below it,
    beside the entries that were there. *)
Lemma addInternal_perm_routed (fuel : nat) :
  forall (n : node) (item : treeEntry) (d : Z) (n' : node),
    wf D M d n -> placed n -> routed D n ->
    Contains (bounds_of n) (position item) = true ->
    routable (Z.to_nat (D - d)) (bounds_of n) (position item) = true ->
    addInternal fuel qt n item = Ret n' ->
    Permutation (entries n') (item :: entries n) /\ routed D n'.
Proof.
  induction fuel as [|fuel IH]; intros n item d n' Hwf Hpl Hrt Hin Hro Hadd.
  - discriminate.
  - destruct n as [|b d0 its cul cur cll clr]; [destruct Hwf|].
    rewrite addInternal_eq in Hadd. cbv zeta in Hadd.
    fold D M in Hadd. cbn [bounds_of] in Hin, Hro.
    assert (d0 = d) by (destruct Hwf; assumption). subst d0.
    assert (Eq : is_quadrantNone (whichQuadrant b (position item)) = false)
      by (rewrite whichQuadrant_Contains, Hin; reflexivity).
    rewrite Eq in Hadd.
    destruct its as [l|]; cbn [is_nil negb andb len range] in Hadd.
    + pose proof (wf_leaf_entries _ _ _ _ _ _ _ _ _ _ Hwf) as El.
      pose proof Hwf as (_ & Hd0 & -> & -> & -> & -> & HdD & Hcap).
      assert (Hall : Forall (fun e => Contains b (position e) = true) l).
      { pose proof Hpl as [Hall _]. simpl in Hall.
        rewrite !app_nil_r in Hall. exact Hall. }
      assert (Happend :
        Permutation
          (entries (mkNode b d (append (Some l) item)
                           nilNode nilNode nilNode nilNode))
          (item :: entries (mkNode b d (Some l)
                                   nilNode nilNode nilNode nilNode)) /\
        routed D (mkNode b d (append (Some l) item)
                         nilNode nilNode nilNode nilNode)).
      { split.
        - simpl. rewrite !app_nil_r. symmetry. apply Permutation_cons_append.
        - simpl in *. apply Forall_app. split; [exact Hrt|].
          constructor; [exact Hro | constructor]. }
      destruct (d >=? D) eqn:Emax.
      { inversion Hadd; subst n'. exact Happend. }
      destruct (Z.of_nat (List.length l) >=? M) eqn:Efull.
      2:{ inversion Hadd; subst n'. exact Happend. }
      clear Happend.
      apply bind_Ret in Hadd. destruct Hadd as (n0 & Hloop & Hlast).
      set (n := mkNode b d (Some l) nilNode nilNode nilNode nilNode) in *.
      destruct (split_node_placed b d (Some l) nilNode nilNode nilNode nilNode)
        as [Hsp Hse].
      fold n in Hsp, Hse.
      assert (Hsb : bounds_of (split_node n) = b).
      { subst n. unfold split_node. destruct (quadrants b) as [[[? ?] ?] ?].
        reflexivity. }
      assert (Hn0 : ((wf D M d n0 /\ grows (split_node n) n0) /\
                     placed n0 /\ routed D n0) /\
                    Permutation (entries n0) (l ++ entries (split_node n))).
      { revert Hloop.
        apply (fold_bind_perm
                 (fun m i => addInternal fuel qt m i)
                 (fun m => (wf D M d m /\ grows (split_node n) m) /\
                           placed m /\ routed D m)
                 (fun i => Contains b (position i) = true /\
                           routable (Z.to_nat (D - d)) b (position i) = true)
                 entries).
        - intros a i a' ([Ha Hga] & Hpa & Hra) [Hi Hri] Ea.
          destruct (addInternal_wf qt depth_range capacity_pos _ _ _ _ _ Ha Ea)
            as [Ha' Hga'].
          destruct (addInternal_placed qt depth_range capacity_pos
                      _ _ _ _ _ Ha Hpa Ea) as [Hpa' _].
          destruct (IH a i d a' Ha Hpa Hra) as [Hperm Hra'];
            [rewrite (grows_bounds_of _ _ Hga), Hsb; exact Hi
            |rewrite (grows_bounds_of _ _ Hga), Hsb; exact Hri
            |exact Ea|].
          split; [|exact Hperm].
          split; [split; [exact Ha' | eapply grows_trans; eauto]|].
          split; [exact Hpa' | exact Hra'].
        - simpl in Hrt.
          rewrite Forall_forall in *. intros e He. auto.
        - split; [split; [apply (split_node_wf qt depth_range capacity_pos);
                          fold D; lia
                         | apply grows_refl]|].
          split; [exact Hsp | apply split_node_routed]. }
      destruct Hn0 as (([Hw0 Hg0] & Hp0 & Hr0) & Hperm0).
      rewrite Hse, app_nil_r in Hperm0.
      rewrite El, <- Hperm0.
      apply (IH n0 item d n' Hw0 Hp0 Hr0); [| |exact Hlast];
        rewrite (grows_bounds_of _ _ Hg0), Hsb; assumption.
    + destruct (0 >=? M) eqn:Efull; [subst M; lia|].
      apply bind_Ret in Hadd. destruct Hadd as (c & Hc & Hret).
      assert (En' : n' = set_child (whichQuadrant b (position item))
                                   (mkNode b d None cul cur cll clr) c)
        by congruence.
      subst n'; clear Hret.
      pose proof (child_wf qt _ b d cul cur cll clr Eq Hwf) as Hcw.
      destruct (child_placed (whichQuadrant b (position item)) b d
                  cul cur cll clr Hpl) as [Hcp Hcb].
      pose proof Hwf as (_ & Hd0 & HdD & _).
      replace (Z.to_nat (D - d)) with (S (Z.to_nat (D - (d + 1)))) in Hro
        by lia.
      cbn [routable] in Hro. apply andb_true_iff in Hro.
      destruct Hro as [Hcq Hrq].
      destruct (IH _ item _ c Hcw Hcp
                  (child_routed D _ b d cul cur cll clr Hrt))
        as [Hperm Hrc].
      * rewrite (Hcb Eq). exact Hcq.
      * rewrite (Hcb Eq). exact Hrq.
      * exact Hc.
      * split; [|apply set_child_routed; assumption].
        apply (entries_set_child _ b d cul cur cll clr c [item] Eq).
        exact Hperm.
Qed.

End AddInternalRouted.

Lemma add_all_perm_routed (fuel : nat) (calls : list (T * Point)) :
  forall qt : Quadtree,
    tree_ok qt -> placed (root qt) -> routed (maxDepth qt) (root qt) ->
    (fuel_of qt <= fuel)%nat ->
    Forall (fun c =>
              Contains (root_bounds qt) (snd c) = true /\
              routable (Z.to_nat (maxDepth qt)) (root_bounds qt) (snd c) = true)
           calls ->
    exists qt' errs,
      add_all fuel qt calls = Ret (qt', errs) /\
      errs = map (fun _ => None) calls /\
      Permutation (entries (root qt'))
                  (map entry_of calls ++ entries (root qt)).
Proof.
  induction calls as [|[d pos] calls IH]; intros qt Hok Hpl Hrt Hfuel Hall.
  - exists qt, []. simpl. auto.
  - inversion Hall as [|? ? [Hc Hro] Hrest]; subst. cbn [snd] in Hc, Hro.
    cbn [add_all].
    destruct (Add_accepts fuel qt d pos Hok Hfuel Hc) as (r & Er & Ea).
    rewrite Ea. cbn [bind fst snd].
    set (qt1 := mkQuadtree _ _ r _ _) in *.
    destruct (Add_ok fuel qt qt1 d pos None Hok Ea) as (Hok1 & Hg & HD1 & _).
    assert (Hb : root_bounds qt1 = root_bounds qt)
      by (apply grows_root_bounds; exact Hg).
    pose proof Hok as (HD & HM & Hwf).
    assert (Hpl1 : placed (root qt1)).
    { exact (proj1 (addInternal_placed qt HD HM _ _ _ _ _ Hwf Hpl Er)). }
    assert (Hbo : bounds_of (root qt) = root_bounds qt).
    { unfold root_bounds. destruct (root qt); reflexivity. }
    destruct (addInternal_perm_routed qt HD HM fuel (root qt)
                (mkEntry pos d) 0 r Hwf Hpl Hrt) as [Hperm1 Hrt1];
      [rewrite Hbo; exact Hc
      |rewrite Hbo, Z.sub_0_r; exact Hro
      |exact Er|].
    assert (Hrt1' : routed (maxDepth qt1) (root qt1))
      by (rewrite HD1; exact Hrt1).
    assert (Hr1 : root qt1 = r) by reflexivity.
    clearbody qt1.
    destruct (IH qt1 Hok1 Hpl1 Hrt1') as (qt' & errs & -> & -> & Hperm).
    + unfold fuel_of in *. rewrite HD1. exact Hfuel.
    + rewrite Hb, HD1. exact Hrest.
    + cbn [bind fst snd]. eexists _, _. split; [reflexivity|].
      split; [reflexivity|].
      rewrite Hperm, Hr1, Hperm1. cbn [map entry_of fst snd app].
      symmetry. apply Permutation_middle.
Qed.

End Routed.

(** ** Sequences of operations *)

Section Sequences.

Context {C : Type} `{Coord C} {T : Type}.

Local Abbreviation Point := (@Point C).
Local Abbreviation Rect := (@Rect C).
Local Abbreviation node := (@node C T).
Local Abbreviation treeEntry := (@treeEntry C T).
Local Abbreviation Quadtree := (@Quadtree C T).

Lemma overlaps_sym (r1 r2 : Rect) : overlaps r1 r2 = overlaps r2 r1.
Proof.
  unfold overlaps, cgt.
  destruct (clt (Rect_X r1) _), (clt (Rect_X r2) _),
    (clt (Rect_Y r1) _), (clt (Rect_Y r2) _); reflexivity.
Qed.

(** A leaf that is at the maximum depth or has room takes the entry at
    the end of its list, and no recursive call is made. *)
Lemma addInternal_leaf_append (fuel : nat) (qt : Quadtree) (b : Rect) (d : Z)
  (l : list treeEntry) (cul cur cll clr : node) (item : treeEntry) :
  Contains b (position item) = true ->
  maxDepth qt <= d \/ Z.of_nat (List.length l) < maxItemsPerNode qt ->
  addInternal (S fuel) qt (mkNode b d (Some l) cul cur cll clr) item =
    Ret (mkNode b d (Some (l ++ [item])) cul cur cll clr).
Proof.
  intros Hc Hroom. rewrite addInternal_eq. cbv zeta.
  rewrite whichQuadrant_Contains, Hc. cbn [negb is_nil andb len append].
  destruct (d >=? maxDepth qt) eqn:Ed; [reflexivity|].
  destruct (Z.of_nat (List.length l) >=? maxItemsPerNode qt) eqn:El;
    [lia | reflexivity].
Qed.

Lemma add_all_leaf (fuel : nat) (calls : list (T * Point)) :
  forall (qt : Quadtree) (b : Rect) (d : Z) (l : list treeEntry),
    root qt = mkNode b d (Some l) nilNode nilNode nilNode nilNode ->
    Z.of_nat (List.length l + List.length calls) <= maxItemsPerNode qt ->
    Forall (fun c => Contains b (snd c) = true) calls ->
    exists qt',
      add_all (S fuel) qt calls = Ret (qt', map (fun _ => None) calls) /\
      root qt' = mkNode b d (Some (l ++ map entry_of calls))
                        nilNode nilNode nilNode nilNode.
Proof.
  induction calls as [|[x pos] calls IH]; intros qt b d l Hroot Hlen Hall.
  - exists qt. simpl. rewrite app_nil_r. auto.
  - inversion Hall as [|? ? Hc Hrest]; subst. cbn [snd] in Hc.
    cbn [add_all]. unfold Add. rewrite Hroot, Hc. cbn [negb].
    rewrite addInternal_leaf_append;
      [|exact Hc | right; cbn [List.length] in Hlen; lia].
    cbn [bind fst snd].
    set (qt1 := mkQuadtree _ _ _ _ _).
    destruct (IH qt1 b d (l ++ [mkEntry pos x])) as (qt' & -> & Hroot').
    + reflexivity.
    + subst qt1. cbn [maxItemsPerNode]. rewrite length_app.
      cbn [List.length] in *. lia.
    + exact Hrest.
    + exists qt'. cbn [bind fst snd map]. split; [reflexivity|].
      rewrite Hroot', <- app_assoc. reflexivity.
Qed.

Lemma step_fields (fuel : nat) (qt qt' : Quadtree) (o : op) :
  tree_ok qt ->
  step fuel qt o = Ret qt' ->
  maxDepth qt' = maxDepth qt /\
  maxItemsPerNode qt' = maxItemsPerNode qt /\
  debugAssertions qt' = debugAssertions qt.
Proof.
  intros Hok E. destruct o as [d pos|bounds|]; simpl in E.
  - apply bind_Ret in E. destruct E as ([qt1 err] & Ea & E).
    inversion E; subst qt'; clear E. cbn [fst].
    apply Add_inv in Ea.
    destruct Ea as [(_ & -> & _) | (_ & _ & r & _ & ->)]; auto.
  - apply bind_Ret in E. destruct E as (? & _ & E).
    inversion E; subst qt'. auto.
  - inversion E; subst qt'. auto.
Qed.

Lemma run_ok (fuel : nat) (ops : list op) :
  forall qt qt' : Quadtree,
    tree_ok qt ->
    run fuel qt ops = Ret qt' ->
    tree_ok qt' /\ grows (root qt) (root qt') /\
    maxDepth qt' = maxDepth qt /\
    maxItemsPerNode qt' = maxItemsPerNode qt /\
    debugAssertions qt' = debugAssertions qt.
Proof.
  induction ops as [|o ops IH]; intros qt qt' Hok E; cbn [run] in E.
  - inversion E; subst qt'. split; [exact Hok|].
    split; [apply grows_refl | auto].
  - apply bind_Ret in E. destruct E as (qt1 & E1 & E).
    destruct (step_ok fuel qt qt1 o Hok E1) as [Hok1 Hg1].
    destruct (step_fields fuel qt qt1 o Hok E1) as (HD1 & HM1 & Hdbg1).
    destruct (IH qt1 qt' Hok1 E) as (Hok' & Hg' & HD' & HM' & Hdbg').
    split; [exact Hok'|]. split; [eapply grows_trans; eauto|].
    split; [congruence|]. split; congruence.
Qed.

Lemma run_reachable (fuel : nat) (ops : list op) :
  forall qt qt' : Quadtree,
    reachable qt -> run fuel qt ops = Ret qt' -> reachable qt'.
Proof.
  induction ops as [|o ops IH]; intros qt qt' Hr E; cbn [run] in E.
  - inversion E; subst qt'. exact Hr.
  - apply bind_Ret in E. destruct E as (qt1 & E1 & E).
    apply (IH qt1 qt'); [|exact E].
    exact (reachable_step fuel qt o qt1 Hr E1).
Qed.

Lemma step_total (fuel : nat) (qt : Quadtree) (o : op) :
  tree_ok qt -> (fuel_of qt <= fuel)%nat ->
  exists qt', step fuel qt o = Ret qt'.
Proof.
  intros Hok Hf. destruct o as [d pos|bounds|]; cbn [step].
  - destruct (Contains (root_bounds qt) pos) eqn:Ec.
    + destruct (Add_accepts fuel qt d pos Hok Hf Ec) as (r & _ & ->).
      cbn [bind fst]. eauto.
    + rewrite (Add_rejects fuel qt d pos);
        [|apply (wf_not_nil _ _ _ _ (proj2 (proj2 Hok))) | exact Ec].
      cbn [bind fst]. eauto.
  - rewrite (Query_visited qt bounds Hok). cbn [bind]. eauto.
  - eauto.
Qed.

Lemma run_total (fuel : nat) (ops : list op) :
  forall qt : Quadtree,
    tree_ok qt -> (fuel_of qt <= fuel)%nat ->
    exists qt', run fuel qt ops = Ret qt'.
Proof.
  induction ops as [|o ops IH]; intros qt Hok Hf; cbn [run].
  - eauto.
  - destruct (step_total fuel qt o Hok Hf) as [qt1 E1]. rewrite E1.
    cbn [bind].
    destruct (step_ok fuel qt qt1 o Hok E1) as [Hok1 _].
    destruct (step_fields fuel qt qt1 o Hok E1) as (HD1 & _).
    apply (IH qt1 Hok1). unfold fuel_of in *. rewrite HD1. exact Hf.
Qed.

(** Where the tree has a node, the grown tree has the node grown from
    it. *)
Lemma grows_descend_grows (D M : Z) (path : list quadrant) :
  forall (d : Z) (n n' : node),
    wf D M d n -> grows n n' ->
    descend path n <> nilNode ->
    grows (descend path n) (descend path n').
Proof.
  induction path as [|q path IH]; intros d n n' Hwf Hg Hnn; [exact Hg|].
  cbn [descend] in *.
  destruct n as [|b d0 its cul cur cll clr]; [destruct Hwf|].
  destruct n' as [|b' d' its' cul' cur' cll' clr']; [destruct Hg|].
  destruct its as [l|].
  - destruct Hwf as (_ & _ & -> & -> & -> & -> & _).
    exfalso. apply Hnn. destruct q; simpl; apply descend_nilNode.
  - destruct Hg as (_ & _ & -> & Gul & Gur & Gll & Glr).
    destruct Hwf as (_ & _ & _ & Hul & Hur & Hll & Hlr).
    destruct q; simpl in *.
    + exfalso. apply Hnn. apply descend_nilNode.
    + exact (IH _ _ _ Hul Gul Hnn).
    + exact (IH _ _ _ Hur Gur Hnn).
    + exact (IH _ _ _ Hll Gll Hnn).
    + exact (IH _ _ _ Hlr Glr Hnn).
Qed.

Lemma grows_fields (n n' : node) :
  grows n n' ->
  bounds_of n' = bounds_of n /\ depth_of n' = depth_of n /\
  (is_nilNode n = false -> is_nil (items_of n) = true ->
   is_nil (items_of n') = true).
Proof.
  destruct n as [|b d its cul cur cll clr],
           n' as [|b' d' its' cul' cur' cll' clr']; simpl; try tauto.
  intros (-> & -> & Hits). split; [reflexivity|]. split; [reflexivity|].
  intros _. destruct its; [discriminate|].
  destruct Hits as (-> & _). reflexivity.
Qed.

Lemma add_all_total (fuel : nat) (calls : list (T * Point)) :
  forall qt : Quadtree,
    tree_ok qt -> (fuel_of qt <= fuel)%nat ->
    exists qt' errs, add_all fuel qt calls = Ret (qt', errs).
Proof.
  induction calls as [|[d pos] calls IH]; intros qt Hok Hf; cbn [add_all].
  - eauto.
  - assert (Ha : exists r, Add fuel qt d pos = Ret r).
    { destruct (Contains (root_bounds qt) pos) eqn:Ec.
      - destruct (Add_accepts fuel qt d pos Hok Hf Ec) as (r & _ & ->). eauto.
      - rewrite (Add_rejects fuel qt d pos);
          [|apply (wf_not_nil _ _ _ _ (proj2 (proj2 Hok))) | exact Ec].
        eauto. }
    destruct Ha as [[qt1 e1] Ea]. rewrite Ea. cbn [bind fst snd].
    destruct (Add_ok fuel qt qt1 d pos e1 Hok Ea) as (Hok1 & _ & HD1 & _).
    destruct (IH qt1 Hok1) as (qt' & errs & ->).
    + unfold fuel_of in *. rewrite HD1. exact Hf.
    + cbn [bind]. eauto.
Qed.

Lemma add_all_fields (fuel : nat) (calls : list (T * Point)) :
  forall (qt qt' : Quadtree) (errs : list (option string)),
    tree_ok qt ->
    add_all fuel qt calls = Ret (qt', errs) ->
    tree_ok qt' /\ root_bounds qt' = root_bounds qt /\
    maxDepth qt' = maxDepth qt.
Proof.
  induction calls as [|[d pos] calls IH]; intros qt qt' errs Hok E;
    cbn [add_all] in E.
  - inversion E; subst. auto.
  - apply bind_Ret in E. destruct E as ([qt1 e1] & Ea & E).
    apply bind_Ret in E. destruct E as ([qt2 e2] & Eb & E).
    inversion E; subst; clear E. cbn [fst snd] in *.
    destruct (Add_ok fuel qt qt1 d pos e1 Hok Ea) as (Hok1 & Hg & HD1 & _).
    destruct (IH qt1 qt' e2 Hok1 Eb) as (Hok' & Hb' & HD').
    split; [exact Hok'|].
    split; [rewrite Hb'; apply grows_root_bounds; exact Hg | congruence].
Qed.

End Sequences.

(** ** Splitting, and the number of results *)

Section Splits.

Context {C : Type} `{Coord C} {T : Type}.

Local Abbreviation Point := (@Point C).
Local Abbreviation Rect := (@Rect C).
Local Abbreviation node := (@node C T).
Local Abbreviation treeEntry := (@treeEntry C T).
Local Abbreviation Quadtree := (@Quadtree C T).

Lemma visited_length (D M : Z) (q : Rect) (n : node) :
  forall d : Z,
    wf D M d n ->
    (List.length (visited n q) <= List.length (entries n))%nat.
Proof.
  induction n as [|b d0 its cul IHul cur IHur cll IHll clr IHlr];
    intros d Hwf; [destruct Hwf|].
  cbn [visited]. destruct (overlaps b q); [|cbn [List.length]; lia].
  destruct its as [l|].
  - rewrite (wf_leaf_entries _ _ _ _ _ _ _ _ _ _ Hwf).
    apply filter_length_le.
  - destruct Hwf as (_ & _ & _ & Hul & Hur & Hll & Hlr).
    cbn [entries range app]. rewrite !length_app.
    pose proof (IHul _ Hul). pose proof (IHur _ Hur).
    pose proof (IHll _ Hll). pose proof (IHlr _ Hlr). lia.
Qed.

Lemma reachable_depth_pos (qt : Quadtree) : reachable qt -> 1 <= maxDepth qt.
Proof.
  induction 1 as [bounds D M qt HD E | fuel qt o qt' Hr IH E].
  - apply NewQuadtree_inv in E. destruct E as (HD1 & _ & _ & ->). exact HD1.
  - destruct (step_fields fuel qt qt' o (reachable_ok qt Hr) E) as (-> & _).
    exact IH.
Qed.

Section AddInternalSplits.

Variable qt : Quadtree.
Hypothesis depth_range : GoInt.in_range (maxDepth qt).
Hypothesis capacity_pos : 1 <= maxItemsPerNode qt.

Let D := maxDepth qt.
Let M := maxItemsPerNode qt.

(** A full leaf above the maximum depth is split by the entry it
    receives. *)
Lemma addInternal_full_leaf_splits (fuel : nat) (b : Rect) (d : Z)
  (l : list treeEntry) (cul cur cll clr : node) (item : treeEntry)
  (n' : node) :
  wf D M d (mkNode b d (Some l) cul cur cll clr) ->
  d < D ->
  M <= Z.of_nat (List.length l) ->
  Contains b (position item) = true ->
  addInternal fuel qt (mkNode b d (Some l) cul cur cll clr) item = Ret n' ->
  is_internal n' = true.
Proof.
  intros Hwf HdD Hfull Hc Hadd.
  destruct fuel as [|fuel]; [discriminate|].
  rewrite addInternal_eq in Hadd. cbv zeta in Hadd. fold D M in Hadd.
  rewrite whichQuadrant_Contains, Hc in Hadd.
  cbn [negb is_nil andb len range] in Hadd.
  destruct (d >=? D) eqn:Emax; [lia|].
  destruct (Z.of_nat (List.length l) >=? M) eqn:Efull; [|lia].
  apply bind_Ret in Hadd. destruct Hadd as (n0 & Hloop & Hlast).
  pose proof Hwf as (_ & Hd0 & _).
  set (n := mkNode b d (Some l) cul cur cll clr) in *.
  assert (Hsw : wf D M d (split_node n))
    by (apply (split_node_wf qt depth_range capacity_pos); fold D; lia).
  assert (Hn0 : wf D M d n0 /\ grows (split_node n) n0).
  { revert Hloop.
    apply (fold_bind_invariant
             (fun m i => addInternal fuel qt m i)
             (fun m => wf D M d m /\ grows (split_node n) m)).
    - intros a i a' [Ha Hga] Ea.
      destruct (addInternal_wf qt depth_range capacity_pos _ _ _ _ _ Ha Ea)
        as [Ha' Hga'].
      split; [exact Ha' | eapply grows_trans; eauto].
    - split; [exact Hsw | apply grows_refl]. }
  destruct Hn0 as [Hw0 Hg0].
  destruct (addInternal_wf qt depth_range capacity_pos _ _ _ _ _ Hw0 Hlast)
    as [_ Hg'].
  apply (grows_descend D M [] d (split_node n) n' Hsw
           (grows_trans _ _ _ Hg0 Hg')).
  subst n. unfold split_node.
  destruct (quadrants b) as [[[qul qur] qll] qlr]. reflexivity.
Qed.

End AddInternalSplits.

End Splits.

(** ** The properties *)

Section Properties.

Context {C : Type} `{Coord C} {T : Type}.

Local Abbreviation Point := (@Point C).
Local Abbreviation Rect := (@Rect C).
Local Abbreviation node := (@node C T).
Local Abbreviation treeEntry := (@treeEntry C T).
Local Abbreviation Quadtree := (@Quadtree C T).

(** X1.  On every tree of the API [Add] returns: there is one result that
    it returns with every fuel from [2 * maxDepth + 1] on.  The bounds of
    the root are those of before; a position inside them gets no error
    and increments [size], and a position outside them gets the error and
    the tree as it was. *)
Theorem X1_Add_returns (qt : Quadtree) (d : T) (pos : Point) :
  reachable qt ->
  exists (qt' : Quadtree) (err : option string),
    (forall fuel : nat,
       (fuel_of qt <= fuel)%nat -> Add fuel qt d pos = Ret (qt', err)) /\
    root_bounds qt' = root_bounds qt /\
    (Contains (root_bounds qt) pos = true ->
     err = None /\ size qt' = GoInt.add (size qt) 1) /\
    (Contains (root_bounds qt) pos = false ->
     err = out_of_bounds /\ qt' = qt).
Proof.
  intros Hr. pose proof (reachable_ok qt Hr) as Hok.
  destruct (Contains (root_bounds qt) pos) eqn:Ec.
  - destruct (Add_accepts (fuel_of qt) qt d pos Hok (le_n _) Ec)
      as (r & _ & Ea).
    eexists _, _.
    split; [intros fuel Hf; exact (Add_fuel_le qt _ fuel d pos _ Hf Ea)|].
    split.
    + apply grows_root_bounds.
      exact (proj1 (proj2 (Add_ok _ _ _ _ _ _ Hok Ea))).
    + split; [intros _; split; reflexivity | discriminate].
  - exists qt, out_of_bounds.
    split.
    + intros fuel _. apply Add_rejects; [|exact Ec].
      exact (wf_not_nil _ _ _ _ (proj2 (proj2 Hok))).
    + split; [reflexivity|]. split; [discriminate | auto].
Qed.

(** X2.  On every tree of the API [Query] returns the payloads of exactly
    the stored entries whose position the query rectangle contains, each
    once, in the order of the traversal: the pruning by [overlaps] skips
    no entry that qualifies. *)
Theorem X2_Query_returns_the_contained `{!OrderLaws C} (qt : Quadtree)
  (q : Rect) :
  reachable qt ->
  Query qt q =
    Ret (map data
           (filter (fun e => Contains q (position e)) (entries (root qt)))).
Proof.
  intros Hr. pose proof (reachable_ok qt Hr) as Hok.
  rewrite (Query_visited qt q Hok).
  rewrite (visited_filter _ _ q _ 0 (proj2 (proj2 Hok))
             (reachable_placed qt Hr)).
  reflexivity.
Qed.

(** X3.  From every node of a tree of the API [queryInternal] returns,
    having handed to its consumer the entries stored below that node
    whose position the query rectangle contains, each once and in
    traversal order, whatever the consumer does with them. *)
Theorem X3_queryInternal_hands_over_the_contained `{!OrderLaws C}
  {S : Type} (qt : Quadtree) (path : list quadrant) (q : Rect)
  (consume : consumer S) (s : S) :
  reachable qt ->
  descend path (root qt) <> nilNode ->
  queryInternal (descend path (root qt)) q consume s =
    Ret (fold_left (fun acc e => snd (consume e acc))
           (filter (fun e => Contains q (position e))
                   (entries (descend path (root qt))))
           s).
Proof.
  intros Hr Hnn. pose proof (reachable_ok qt Hr) as (_ & _ & Hwf).
  pose proof (wf_descend _ _ path 0 _ Hwf Hnn) as Hwfp.
  pose proof (placed_descend _ _ path 0 _ Hwf (reachable_placed qt Hr))
    as Hplp.
  rewrite (queryInternal_visited _ _ q consume _ _ s Hwfp).
  rewrite (visited_filter _ _ q _ _ Hwfp Hplp).
  reflexivity.
Qed.

(** X4.  In a tree of the API the position of every entry stored below a
    node is inside the bounds of that node, and the four children of an
    internal node have the bounds that [quadrants] gives for the bounds
    of the node. *)
Theorem X4_entries_inside_the_bounds_above (qt : Quadtree)
  (path : list quadrant) (b : Rect) (d : Z)
  (its : option (list treeEntry)) (cul cur cll clr : node) :
  reachable qt ->
  descend path (root qt) = mkNode b d its cul cur cll clr ->
  Forall (fun e => Contains b (position e) = true)
         (entries (mkNode b d its cul cur cll clr)) /\
  (its = None ->
   (bounds_of cul, bounds_of cur, bounds_of cll, bounds_of clr) =
     quadrants b).
Proof.
  intros Hr E. pose proof (reachable_ok qt Hr) as (_ & _ & Hwf).
  pose proof (placed_descend _ _ path 0 _ Hwf (reachable_placed qt Hr))
    as Hpl.
  rewrite E in Hpl. destruct Hpl as [Hall Hrest].
  split; [exact Hall|]. intros ->. exact (proj1 Hrest).
Qed.

(** X5.  In a tree of the API the depth recorded in a node is the number
    of child references followed from the root to reach it; it is at
    most [maxDepth], and less than [maxDepth] for an internal node. *)
Theorem X5_depth_is_the_path_length (qt : Quadtree) (path : list quadrant) :
  reachable qt ->
  descend path (root qt) <> nilNode ->
  depth_of (descend path (root qt)) = Z.of_nat (List.length path) /\
  Z.of_nat (List.length path) <= maxDepth qt /\
  (is_internal (descend path (root qt)) = true ->
   Z.of_nat (List.length path) < maxDepth qt).
Proof.
  intros Hr Hnn. pose proof (reachable_ok qt Hr) as (_ & _ & Hwf).
  pose proof (wf_descend _ _ path 0 _ Hwf Hnn) as Hwfp.
  rewrite Z.add_0_l in Hwfp.
  destruct (wf_fields _ _ _ _ Hwfp) as (Hd & Hle & _ & Hint).
  split; [exact Hd|]. split; [lia|].
  intros Hi. apply Hint.
  destruct (descend path (root qt)) as [|b d its cul cur cll clr];
    [discriminate|].
  simpl in *. destruct its; [discriminate | reflexivity].
Qed.

(** X6.  In a tree of the API a leaf above the maximum depth holds at
    most [maxItemsPerNode] entries: a leaf with more entries is at depth
    [maxDepth]. *)
Theorem X6_leaf_above_max_depth_within_capacity (qt : Quadtree)
  (path : list quadrant) :
  reachable qt ->
  is_leaf (descend path (root qt)) = true ->
  Z.of_nat (List.length path) < maxDepth qt ->
  len (items_of (descend path (root qt))) <= maxItemsPerNode qt.
Proof.
  intros Hr Hleaf Hd. pose proof (reachable_ok qt Hr) as (_ & _ & Hwf).
  assert (Hnn : descend path (root qt) <> nilNode)
    by (intros E; rewrite E in Hleaf; discriminate).
  pose proof (wf_descend _ _ path 0 _ Hwf Hnn) as Hwfp.
  rewrite Z.add_0_l in Hwfp.
  destruct (wf_fields _ _ _ _ Hwfp) as (_ & _ & Hcap & _).
  exact (Hcap Hleaf Hd).
Qed.

(** X7.  A sequence of [Add] calls on a new tree returns, and the entries
    then stored are entries of accepted calls, none of them more often
    than it was added: the accepted calls are the stored entries and the
    entries that the [quadrantNone] branch of [addInternal] dropped.  So
    the tree stores at most as many entries as calls were accepted. *)
Theorem X7_stored_entries_were_added (bounds : Rect) (D M : Z)
  (qt0 : Quadtree) (calls : list (T * Point)) (fuel : nat) :
  GoInt.in_range D ->
  NewQuadtree bounds D M = (Some qt0, None) ->
  (fuel_of qt0 <= fuel)%nat ->
  exists (qt' : Quadtree) (errs : list (option string))
         (dropped : list treeEntry),
    add_all fuel qt0 calls = Ret (qt', errs) /\
    Permutation
      (map entry_of (filter (fun c => Contains bounds (snd c)) calls))
      (entries (root qt') ++ dropped) /\
    (List.length (entries (root qt')) <= accepted bounds calls)%nat.
Proof.
  intros HD Hnew Hfuel.
  pose proof (NewQuadtree_ok _ _ _ _ _ HD Hnew) as Hok.
  apply NewQuadtree_inv in Hnew. destruct Hnew as (_ & _ & _ & Eqt).
  assert (Hb : root_bounds qt0 = bounds) by (subst qt0; reflexivity).
  assert (He0 : entries (root qt0) = []) by (subst qt0; reflexivity).
  destruct (add_all_total fuel calls qt0 Hok Hfuel) as (qt' & errs & E).
  destruct (add_all_keeps fuel calls qt0 qt' errs Hok E) as [dropped Hperm].
  rewrite Hb, He0, app_nil_r in Hperm.
  exists qt', errs, dropped. split; [exact E|]. split; [exact Hperm|].
  apply Permutation_length in Hperm.
  rewrite length_map, length_app in Hperm. unfold accepted. lia.
Qed.

(** X8.  With any coordinate arithmetic whose comparisons satisfy
    [OrderLaws], that of [float64] included: if every position of a
    sequence of [Add] calls on a new tree is inside the bounds and is
    [routable] down to [maxDepth], every call returns no error and
    [Query] over the bounds then returns the payloads of the calls, up
    to order. *)
Theorem X8_round_trip_of_routable_positions `{!OrderLaws C} (bounds : Rect)
  (D M : Z) (qt0 : Quadtree) (calls : list (T * Point)) (fuel : nat) :
  GoInt.in_range D ->
  NewQuadtree bounds D M = (Some qt0, None) ->
  (fuel_of qt0 <= fuel)%nat ->
  Forall (fun c => Contains bounds (snd c) = true /\
                   routable (Z.to_nat D) bounds (snd c) = true) calls ->
  exists (qt' : Quadtree) (payloads : list T),
    add_all fuel qt0 calls = Ret (qt', map (fun _ => None) calls) /\
    Query qt' bounds = Ret payloads /\
    Permutation payloads (map fst calls).
Proof.
  intros HD Hnew Hfuel Hall.
  pose proof (NewQuadtree_ok _ _ _ _ _ HD Hnew) as Hok.
  assert (Hr0 : reachable qt0) by (eapply reachable_new; eauto).
  apply NewQuadtree_inv in Hnew. destruct Hnew as (_ & _ & _ & Eqt).
  assert (Hb : root_bounds qt0 = bounds) by (subst qt0; reflexivity).
  assert (HD0 : maxDepth qt0 = D) by (subst qt0; reflexivity).
  assert (He0 : entries (root qt0) = []) by (subst qt0; reflexivity).
  assert (Hrt0 : routed (maxDepth qt0) (root qt0))
    by (subst qt0; simpl; constructor).
  destruct (add_all_perm_routed fuel calls qt0 Hok
              (reachable_placed qt0 Hr0) Hrt0 Hfuel)
    as (qt' & errs & E & -> & Hperm).
  { rewrite Hb, HD0. exact Hall. }
  rewrite He0, app_nil_r in Hperm.
  pose proof (reachable_add_all fuel calls qt0 qt' _ Hr0 E) as Hr'.
  destruct (add_all_fields fuel calls qt0 qt' _ Hok E) as (_ & Hb' & _).
  exists qt', (map data (entries (root qt'))).
  split; [exact E|]. split.
  - apply (Query_enclosing qt' bounds Hr').
    rewrite Hb', Hb. intros p Hp. exact Hp.
  - rewrite Hperm, map_map. unfold entry_of. simpl. reflexivity.
Qed.

(** X9.  The first [maxItemsPerNode] accepted entries of a new tree stay
    in the root, which is not split, in the order of their insertion;
    no recursive call of [addInternal] is made, and [Query] over the
    bounds returns their payloads in that order. *)
Theorem X9_first_entries_stay_in_the_root `{!OrderLaws C} (bounds : Rect)
  (D M : Z) (qt0 : Quadtree) (calls : list (T * Point)) :
  NewQuadtree bounds D M = (Some qt0, None) ->
  Z.of_nat (List.length calls) <= M ->
  Forall (fun c => Contains bounds (snd c) = true) calls ->
  exists qt' : Quadtree,
    add_all 1 qt0 calls = Ret (qt', map (fun _ => None) calls) /\
    root qt' = mkNode bounds 0 (Some (map entry_of calls))
                      nilNode nilNode nilNode nilNode /\
    Query qt' bounds = Ret (map fst calls).
Proof.
  intros Hnew Hlen Hall.
  apply NewQuadtree_inv in Hnew. destruct Hnew as (_ & _ & _ & ->).
  destruct (add_all_leaf 0 calls
              (mkQuadtree D M (mkNode bounds 0 (Some []) nilNode nilNode
                                      nilNode nilNode) 0 false)
              bounds 0 [] eq_refl) as (qt' & E & Hroot);
    [exact Hlen | exact Hall |].
  cbn [app] in Hroot.
  exists qt'. split; [exact E|]. split; [exact Hroot|].
  unfold Query. rewrite Hroot. cbn [queryInternal].
  assert (Hdata : map data (map entry_of calls) = map fst calls).
  { rewrite map_map. unfold entry_of. simpl. reflexivity. }
  destruct (overlaps bounds bounds) eqn:Eo.
  - rewrite fold_left_filter, filter_all, fold_left_snoc_data;
      [rewrite Hdata; reflexivity|].
    rewrite Forall_map. exact Hall.
  - destruct calls as [|[x pos] calls]; [reflexivity|].
    inversion Hall as [|? ? Hc _]; subst. cbn [snd] in Hc.
    rewrite (Contains_overlaps bounds bounds pos Hc Hc) in Eo.
    discriminate.
Qed.

(** X10.  With comparisons that satisfy [OrderLaws], those of [float64]
    included: the quadrant that [whichQuadrant] names for a point of a
    rectangle is the only one of the four rectangles of [quadrants] that
    can contain the point; if one of them contains it, [whichQuadrant]
    names that one, and no two of them contain one point. *)
Theorem X10_whichQuadrant_names_the_containing_quadrant `{!OrderLaws C}
  (r : Rect) (p : Point) (q : quadrant) :
  Contains r p = true ->
  is_quadrantNone q = false ->
  Contains (quadrant_bounds q r) p = true ->
  whichQuadrant r p = q /\
  (forall q' : quadrant,
     is_quadrantNone q' = false ->
     Contains (quadrant_bounds q' r) p = true -> q' = q).
Proof.
  intros Hr Hq Hc.
  split; [exact (whichQuadrant_of_quadrant r p q Hr Hq Hc)|].
  intros q' Hq' Hc'. exact (quadrants_disjoint r p q' q Hq' Hq Hc' Hc).
Qed.

(** X11.  [overlaps] does not depend on the order of its arguments, and
    two rectangles that contain one point overlap: a node below which an
    entry qualifies for a query is not pruned. *)
Theorem X11_overlaps_symmetric_and_sound `{!OrderLaws C} (r1 r2 : Rect) :
  overlaps r1 r2 = overlaps r2 r1 /\
  (forall p : Point,
     Contains r1 p = true -> Contains r2 p = true ->
     overlaps r1 r2 = true).
Proof.
  split; [apply overlaps_sym|].
  intros p. apply Contains_overlaps.
Qed.

(** X12.  On a tree of the API every sequence of [Add], [Query] and
    [Size] calls returns: no call dereferences a nil node and none
    recurses deeper than [2 * maxDepth + 1]; and the calls leave
    [maxDepth], [maxItemsPerNode] and the bounds of the root as they
    were. *)
Theorem X12_operations_return (qt : Quadtree) (ops : list op) (fuel : nat) :
  reachable qt ->
  (fuel_of qt <= fuel)%nat ->
  exists qt' : Quadtree,
    run fuel qt ops = Ret qt' /\
    reachable qt' /\
    maxDepth qt' = maxDepth qt /\
    maxItemsPerNode qt' = maxItemsPerNode qt /\
    root_bounds qt' = root_bounds qt.
Proof.
  intros Hr Hf. pose proof (reachable_ok qt Hr) as Hok.
  destruct (run_total fuel ops qt Hok Hf) as [qt' E].
  destruct (run_ok fuel ops qt qt' Hok E) as (_ & Hg & HD & HM & _).
  exists qt'. split; [exact E|].
  split; [exact (run_reachable fuel ops qt qt' Hr E)|].
  split; [exact HD|]. split; [exact HM|].
  apply grows_root_bounds. exact Hg.
Qed.

(** X13.  With comparisons that satisfy [OrderLaws], those of [float64]
    included: two entries stored in a tree of the API with one position
    are in the list of one leaf. *)
Theorem X13_equal_positions_share_a_leaf `{!OrderLaws C} (qt : Quadtree)
  (path1 path2 : list quadrant) (e1 e2 : treeEntry) :
  reachable qt ->
  In e1 (range (items_of (descend path1 (root qt)))) ->
  In e2 (range (items_of (descend path2 (root qt)))) ->
  position e1 = position e2 ->
  path1 = path2.
Proof.
  intros Hr H1 H2 Hpos. pose proof (reachable_ok qt Hr) as (_ & _ & Hwf).
  exact (same_position_same_leaf _ _ path1 0 (root qt) path2 e1 e2 Hwf
           (reachable_placed qt Hr) H1 H2 Hpos).
Qed.

(** X14.  No sequence of operations removes or moves a node: where a
    tree of the API has a node, the tree after the operations has a node
    with the same bounds and the same depth, and an internal node where
    there was one. *)
Theorem X14_nodes_persist (qt qt' : Quadtree) (ops : list op) (fuel : nat)
  (path : list quadrant) :
  reachable qt ->
  run fuel qt ops = Ret qt' ->
  descend path (root qt) <> nilNode ->
  descend path (root qt') <> nilNode /\
  bounds_of (descend path (root qt')) = bounds_of (descend path (root qt)) /\
  depth_of (descend path (root qt')) = depth_of (descend path (root qt)) /\
  (is_internal (descend path (root qt)) = true ->
   is_internal (descend path (root qt')) = true).
Proof.
  intros Hr E Hnn. pose proof (reachable_ok qt Hr) as Hok.
  pose proof Hok as (_ & _ & Hwf).
  destruct (run_ok fuel ops qt qt' Hok E) as (_ & Hg & _).
  pose proof (grows_descend_grows _ _ path 0 _ _ Hwf Hg Hnn) as Hgp.
  destruct (grows_fields _ _ Hgp) as (Hb & Hd & _).
  split.
  - intros E'. rewrite E' in Hgp.
    destruct (descend path (root qt)); [apply Hnn; reflexivity | exact Hgp].
  - split; [exact Hb|]. split; [exact Hd|].
    exact (grows_descend _ _ path 0 _ _ Hwf Hg).
Qed.

(** X15.  After a sequence of [Add] calls on a new tree, every [Query]
    returns, and it returns at most [Size] payloads. *)
Theorem X15_Query_returns_at_most_Size (bounds : Rect) (D M : Z)
  (qt0 : Quadtree) (calls : list (T * Point)) (fuel : nat) :
  GoInt.in_range D ->
  NewQuadtree bounds D M = (Some qt0, None) ->
  (fuel_of qt0 <= fuel)%nat ->
  Z.of_nat (accepted bounds calls) <= GoInt.max_int ->
  exists (qt' : Quadtree) (errs : list (option string)),
    add_all fuel qt0 calls = Ret (qt', errs) /\
    forall q : Rect,
      exists payloads : list T,
        Query qt' q = Ret payloads /\
        Z.of_nat (List.length payloads) <= Size qt'.
Proof.
  intros HD Hnew Hfuel Hmax.
  pose proof (NewQuadtree_ok _ _ _ _ _ HD Hnew) as Hok.
  apply NewQuadtree_inv in Hnew. destruct Hnew as (_ & _ & _ & Eqt).
  assert (Hb : root_bounds qt0 = bounds) by (subst qt0; reflexivity).
  assert (Hs : size qt0 = 0) by (subst qt0; reflexivity).
  assert (He0 : entries (root qt0) = []) by (subst qt0; reflexivity).
  destruct (add_all_size fuel calls qt0 Hok Hfuel)
    as (qt' & errs & E & Hsz & _).
  { lia. }
  { rewrite Hb, Hs. lia. }
  rewrite Hb, Hs in Hsz.
  destruct (add_all_keeps fuel calls qt0 qt' errs Hok E) as [dropped Hperm].
  rewrite Hb, He0, app_nil_r in Hperm.
  apply Permutation_length in Hperm.
  rewrite length_map, length_app in Hperm.
  destruct (add_all_fields fuel calls qt0 qt' errs Hok E) as (Hok' & _).
  exists qt', errs. split; [exact E|].
  intros q. exists (map data (visited (root qt') q)).
  split; [exact (Query_visited qt' q Hok')|].
  rewrite length_map, Hsz.
  pose proof (visited_length _ _ q (root qt') 0 (proj2 (proj2 Hok'))).
  unfold accepted. lia.
Qed.

(** X16.  On a tree of the API whose root is a leaf that holds
    [maxItemsPerNode] entries or more, an [Add] with a position inside
    the bounds returns no error and splits the root: afterwards the root
    is internal. *)
Theorem X16_Add_splits_a_full_root (qt : Quadtree) (d : T) (pos : Point)
  (fuel : nat) :
  reachable qt ->
  is_leaf (root qt) = true ->
  maxItemsPerNode qt <= len (items_of (root qt)) ->
  Contains (root_bounds qt) pos = true ->
  (fuel_of qt <= fuel)%nat ->
  exists qt' : Quadtree,
    Add fuel qt d pos = Ret (qt', None) /\
    is_internal (root qt') = true.
Proof.
  intros Hr Hleaf Hfull Hc Hf. pose proof (reachable_ok qt Hr) as Hok.
  pose proof (reachable_depth_pos qt Hr) as HD1.
  destruct (Add_accepts fuel qt d pos Hok Hf Hc) as (r & Er & Ea).
  eexists. split; [exact Ea|]. cbn [root].
  destruct Hok as (HD & HM & Hwf). unfold root_bounds in Hc.
  destruct (root qt) as [|b d0 its cul cur cll clr]; [discriminate|].
  destruct its as [l|]; [|discriminate].
  assert (d0 = 0) by (destruct Hwf; assumption). subst d0.
  cbn [items_of len] in Hfull.
  exact (addInternal_full_leaf_splits qt HD HM fuel b 0 l cul cur cll clr
           (mkEntry pos d) r Hwf ltac:(lia) Hfull Hc Er).
Qed.

End Properties.

(** ** The properties at [float64] inputs *)

Lemma visit_tree_reachable : reachable visit_tree.
Proof.
  apply (build_reachable visit_bounds 2 2 visit_calls visit_tree
           [None; None; None; None]).
  - apply small_in_range. lia.
  - vm_compute. reflexivity.
Qed.

(** X1 at the tree of TestQuery_withPointRect_doesNotreturnItemAtPosition
    and a position inside its bounds. *)
Lemma X1_witness :
  exists (qt' : @Quadtree float nat) (err : option string),
    (forall fuel : nat,
       (fuel_of point_rect_tree <= fuel)%nat ->
       Add fuel point_rect_tree 2%nat (Point64 2 2) = Ret (qt', err)) /\
    root_bounds qt' = root_bounds point_rect_tree /\
    (Contains (root_bounds point_rect_tree) (Point64 2 2) = true ->
     err = None /\ size qt' = GoInt.add (size point_rect_tree) 1) /\
    (Contains (root_bounds point_rect_tree) (Point64 2 2) = false ->
     err = out_of_bounds /\ qt' = point_rect_tree).
Proof.
  exact (X1_Add_returns point_rect_tree 2%nat (Point64 2 2)
           point_rect_tree_reachable).
Defined.

(** X2 at the tree of TestQueryIterative_stopsWhenReturnFalse and a
    rectangle over parts of its two lower quadrants. *)
Lemma X2_witness :
  Query visit_tree (Rect64 (-0.8) (-1) 0.6 0.5) =
    Ret (map data
           (filter (fun e => Contains (Rect64 (-0.8) (-1) 0.6 0.5)
                                      (position e))
                   (entries (root visit_tree)))).
Proof.
  exact (X2_Query_returns_the_contained (C := float) visit_tree
           (Rect64 (-0.8) (-1) 0.6 0.5) visit_tree_reachable).
Defined.

(** X3 at the upper-right child of that tree and the test's visitor. *)
Lemma X3_witness :
  descend [quadrantUpperRight] (root visit_tree) <> nilNode /\
  queryInternal (descend [quadrantUpperRight] (root visit_tree))
                visit_bounds (visiting counting_visitor) 0 =
    Ret (fold_left
           (fun acc e => snd (visiting counting_visitor e acc))
           (filter (fun e => Contains visit_bounds (position e))
                   (entries (descend [quadrantUpperRight]
                                     (root visit_tree))))
           0).
Proof.
  assert (Hnn : descend [quadrantUpperRight] (root visit_tree) <> nilNode)
    by (vm_compute; discriminate).
  split; [exact Hnn|].
  exact (X3_queryInternal_hands_over_the_contained (C := float) visit_tree
           [quadrantUpperRight] visit_bounds (visiting counting_visitor) 0
           visit_tree_reachable Hnn).
Defined.

(** X4 at the root of that tree. *)
Lemma X4_witness :
  exists b d its cul cur cll clr,
    descend [] (root visit_tree) = mkNode b d its cul cur cll clr /\
    Forall (fun e => Contains b (position e) = true)
           (entries (mkNode b d its cul cur cll clr)) /\
    (its = None ->
     (bounds_of cul, bounds_of cur, bounds_of cll, bounds_of clr) =
       quadrants b).
Proof.
  eexists _, _, _, _, _, _, _.
  assert (E : descend [] (root visit_tree) = _)
    by (vm_compute; reflexivity).
  split; [exact E|].
  exact (X4_entries_inside_the_bounds_above visit_tree [] _ _ _ _ _ _ _
           visit_tree_reachable E).
Defined.

(** X5 at the leaf at depth 2 of the tree of
    TestQuery_whenSplittingToMaxDepth_returnsAllItems. *)
Lemma X5_witness :
  depth_of (descend [quadrantLowerLeft; quadrantLowerLeft]
                    (root depth_tree)) = 2 /\
  2 <= maxDepth depth_tree /\
  (is_internal (descend [quadrantLowerLeft; quadrantLowerLeft]
                        (root depth_tree)) = true ->
   2 < maxDepth depth_tree).
Proof.
  refine (X5_depth_is_the_path_length depth_tree
            [quadrantLowerLeft; quadrantLowerLeft]
            depth_tree_reachable _).
  vm_compute. discriminate.
Defined.

(** X6 at the upper-right leaf of the tree of
    TestQueryIterative_stopsWhenReturnFalse, which holds two entries. *)
Lemma X6_witness :
  len (items_of (descend [quadrantUpperRight] (root visit_tree))) <=
  maxItemsPerNode visit_tree.
Proof.
  refine (X6_leaf_above_max_depth_within_capacity visit_tree
            [quadrantUpperRight] visit_tree_reachable _ _).
  - vm_compute. reflexivity.
  - vm_compute. reflexivity.
Defined.

(** X7 at the bounds and calls of [tenth_tree], where one accepted entry
    is dropped. *)
Lemma X7_witness :
  exists (qt' : @Quadtree float nat) (errs : list (option string))
         (dropped : list (@treeEntry float nat)),
    add_all 21 (mkQuadtree 10 1
                  (mkNode tenth_bounds 0 (Some []) nilNode nilNode nilNode
                          nilNode) 0 false)
            tenth_calls = Ret (qt', errs) /\
    Permutation
      (map entry_of
           (filter (fun c => Contains tenth_bounds (snd c)) tenth_calls))
      (entries (root qt') ++ dropped) /\
    (List.length (entries (root qt')) <= accepted tenth_bounds tenth_calls)%nat.
Proof.
  refine (X7_stored_entries_were_added (C := float) (T := nat)
            tenth_bounds 10 1 _ tenth_calls 21 _ _ _).
  - apply small_in_range. lia.
  - reflexivity.
  - vm_compute. lia.
Defined.

(** X8 at the bounds and calls of
    TestQueryIterative_stopsWhenReturnFalse. *)
Lemma X8_witness :
  exists (qt' : @Quadtree float nat) (payloads : list nat),
    add_all 5 (mkQuadtree 2 2
                 (mkNode visit_bounds 0 (Some []) nilNode nilNode nilNode
                         nilNode) 0 false)
            visit_calls = Ret (qt', map (fun _ => None) visit_calls) /\
    Query qt' visit_bounds = Ret payloads /\
    Permutation payloads (map fst visit_calls).
Proof.
  refine (X8_round_trip_of_routable_positions (C := float) (T := nat)
            visit_bounds 2 2 _ visit_calls 5 _ _ _ _).
  - apply small_in_range. lia.
  - reflexivity.
  - vm_compute. lia.
  - repeat (apply Forall_cons; [split; vm_compute; reflexivity|]).
    apply Forall_nil.
Defined.

(** X9 at those bounds and calls, with room for four entries in a
    node. *)
Lemma X9_witness :
  exists qt' : @Quadtree float nat,
    add_all 1 (mkQuadtree 2 4
                 (mkNode visit_bounds 0 (Some []) nilNode nilNode nilNode
                         nilNode) 0 false)
            visit_calls = Ret (qt', map (fun _ => None) visit_calls) /\
    root qt' = mkNode visit_bounds 0 (Some (map entry_of visit_calls))
                      nilNode nilNode nilNode nilNode /\
    Query qt' visit_bounds = Ret (map fst visit_calls).
Proof.
  refine (X9_first_entries_stay_in_the_root (C := float) (T := nat)
            visit_bounds 2 4 _ visit_calls _ _ _).
  - reflexivity.
  - vm_compute. discriminate.
  - repeat (apply Forall_cons; [vm_compute; reflexivity|]).
    apply Forall_nil.
Defined.

(** X10 at the bounds of that tree and the position of its first entry,
    which is on the vertical midline. *)
Lemma X10_witness :
  whichQuadrant visit_bounds (Point64 (-0.5) (-0.1)) = quadrantUpperRight /\
  (forall q' : quadrant,
     is_quadrantNone q' = false ->
     Contains (quadrant_bounds q' visit_bounds) (Point64 (-0.5) (-0.1))
       = true ->
     q' = quadrantUpperRight).
Proof.
  refine (X10_whichQuadrant_names_the_containing_quadrant (C := float)
            visit_bounds (Point64 (-0.5) (-0.1)) quadrantUpperRight _ _ _).
  - vm_compute. reflexivity.
  - reflexivity.
  - vm_compute. reflexivity.
Defined.

(** X11 at the bounds of
    TestQuery_withPointRect_doesNotreturnItemAtPosition and a rectangle
    across their right edge. *)
Lemma X11_witness :
  overlaps point_rect_bounds (Rect64 4 4 3 3) =
    overlaps (Rect64 4 4 3 3) point_rect_bounds /\
  (forall p : @Point float,
     Contains point_rect_bounds p = true ->
     Contains (Rect64 4 4 3 3) p = true ->
     overlaps point_rect_bounds (Rect64 4 4 3 3) = true).
Proof.
  exact (X11_overlaps_symmetric_and_sound (C := float) point_rect_bounds
           (Rect64 4 4 3 3)).
Defined.

(** X12 at the tree of TestQueryIterative_stopsWhenReturnFalse, followed
    by an accepted [Add] that splits a leaf at depth 1, a [Query], a
    [Size] and a rejected [Add]. *)
Lemma X12_witness :
  exists qt' : @Quadtree float nat,
    run 5 visit_tree
        [OpAdd 5%nat (Point64 (-0.2) (-0.2)); OpQuery visit_bounds; OpSize;
         OpAdd 6%nat (Point64 3 3)] = Ret qt' /\
    reachable qt' /\
    maxDepth qt' = maxDepth visit_tree /\
    maxItemsPerNode qt' = maxItemsPerNode visit_tree /\
    root_bounds qt' = root_bounds visit_tree.
Proof.
  refine (X12_operations_return visit_tree _ 5 visit_tree_reachable _).
  vm_compute. lia.
Defined.

(** X13 at two of the six entries at one position in the tree of
    TestQuery_whenSplittingToMaxDepth_returnsAllItems. *)
Lemma X13_witness :
  In (mkEntry (Point64 1 1) 2%nat)
     (range (items_of (descend [quadrantLowerLeft; quadrantLowerLeft]
                               (root depth_tree)))) /\
  In (mkEntry (Point64 1 1) 5%nat)
     (range (items_of (descend [quadrantLowerLeft; quadrantLowerLeft]
                               (root depth_tree)))) /\
  [quadrantLowerLeft; quadrantLowerLeft] =
    [quadrantLowerLeft; quadrantLowerLeft].
Proof.
  assert (H2 : In (mkEntry (Point64 1 1) 2%nat)
                  (range (items_of
                            (descend [quadrantLowerLeft; quadrantLowerLeft]
                                     (root depth_tree)))))
    by (vm_compute; auto).
  assert (H5 : In (mkEntry (Point64 1 1) 5%nat)
                  (range (items_of
                            (descend [quadrantLowerLeft; quadrantLowerLeft]
                                     (root depth_tree)))))
    by (vm_compute; auto 7).
  split; [exact H2|]. split; [exact H5|].
  exact (X13_equal_positions_share_a_leaf (C := float) depth_tree
           [quadrantLowerLeft; quadrantLowerLeft]
           [quadrantLowerLeft; quadrantLowerLeft]
           (mkEntry (Point64 1 1) 2%nat) (mkEntry (Point64 1 1) 5%nat)
           depth_tree_reachable H2 H5 eq_refl).
Defined.

(** X14 at the upper-right leaf of the tree of
    TestQueryIterative_stopsWhenReturnFalse, which an [Add] splits. *)
Lemma X14_witness :
  exists qt' : @Quadtree float nat,
    run 5 visit_tree
        [OpAdd 5%nat (Point64 (-0.2) (-0.2)); OpQuery visit_bounds] = Ret qt' /\
    descend [quadrantUpperRight] (root qt') <> nilNode /\
    bounds_of (descend [quadrantUpperRight] (root qt')) =
      bounds_of (descend [quadrantUpperRight] (root visit_tree)) /\
    depth_of (descend [quadrantUpperRight] (root qt')) =
      depth_of (descend [quadrantUpperRight] (root visit_tree)) /\
    (is_internal (descend [quadrantUpperRight] (root visit_tree)) = true ->
     is_internal (descend [quadrantUpperRight] (root qt')) = true).
Proof.
  eexists.
  assert (E : run 5 visit_tree
                [OpAdd 5%nat (Point64 (-0.2) (-0.2)); OpQuery visit_bounds]
              = Ret _) by (vm_compute; reflexivity).
  split; [exact E|].
  refine (X14_nodes_persist visit_tree _ _ 5 [quadrantUpperRight]
            visit_tree_reachable E _).
  vm_compute. discriminate.
Defined.

(** X15 at the bounds and calls of [tenth_tree], where [Size] is 2 and
    one entry is stored. *)
Lemma X15_witness :
  exists (qt' : @Quadtree float nat) (errs : list (option string)),
    add_all 21 (mkQuadtree 10 1
                  (mkNode tenth_bounds 0 (Some []) nilNode nilNode nilNode
                          nilNode) 0 false)
            tenth_calls = Ret (qt', errs) /\
    forall q : @Rect float,
      exists payloads : list nat,
        Query qt' q = Ret payloads /\
        Z.of_nat (List.length payloads) <= Size qt'.
Proof.
  refine (X15_Query_returns_at_most_Size (C := float) (T := nat)
            tenth_bounds 10 1 _ tenth_calls 21 _ _ _ _).
  - apply small_in_range. lia.
  - reflexivity.
  - vm_compute. lia.
  - vm_compute. discriminate.
Defined.

(** X16 at the tree of TestQuery_withPointRect_doesNotreturnItemAtPosition
    after a second entry, which fills its root. *)
Lemma X16_witness :
  exists qt' : @Quadtree float nat,
    Add 5 (tree_of (build point_rect_bounds 2 2
                      [(1%nat, Point64 1 1); (2%nat, Point64 4 4)]))
        3%nat (Point64 4 1) = Ret (qt', None) /\
    is_internal (root qt') = true.
Proof.
  refine (X16_Add_splits_a_full_root (C := float) (T := nat) _ 3%nat
            (Point64 4 1) 5 _ _ _ _ _).
  - apply (build_reachable point_rect_bounds 2 2
             [(1%nat, Point64 1 1); (2%nat, Point64 4 4)] _ [None; None]).
    + apply small_in_range. lia.
    + vm_compute. reflexivity.
  - vm_compute. reflexivity.
  - vm_compute. discriminate.
  - vm_compute. reflexivity.
  - vm_compute. lia.
Defined.
